(** * StackStorm: the scheduling queue handler and the dig action

    Shallow embeddings of two files of the repository, and what is proved
    about them: [st2actions/scheduler/handler.py], the handler of the
    action execution scheduling queue, and
    [contrib/linux/actions/dig.py], the action that runs [dig]. *)

From Stdlib Require Import List ZArith NArith PeanoNat Bool String Ascii Lia Permutation.
Import ListNotations.
Local Open Scope Z_scope.

Set Implicit Arguments.

(** * The dig action

    [contrib/linux/actions/dig.py]: [DigAction.run] builds the command
    line of [dig], runs it, and hands back the lines of its output.  The
    file is Python 2 code ([filter] gives a list, the output of the process
    is a [str]); it is read as such.  The process and the random source are
    the two things the action does not decide: [Popen] says what running a
    command line gives, [draws] what the random source yields. *)
Module dig.

(** [OSError], with the error number it carries, and [errno.ENOENT]. *)
Record OSError : Type := mkOSError { errno : nat }.

Definition ENOENT : nat := 2.

(** What [run] hands back: the list of lines, or the pair
    [(False, message)]. *)
Inductive Result : Type :=
| Output (lines : list string)
| Failure (message : string).

(** [run] returns, or lets an [OSError] through. *)
Inductive Outcome : Type :=
| Returned (r : Result)
| Raised (e : OSError).

(** [re.search(c, s)] for a one-character pattern: [s] holds [c]. *)
Fixpoint search (c : ascii) (s : string) : bool :=
  match s with
  | EmptyString => false
  | String a rest => Ascii.eqb a c || search c rest
  end.

(** [s.split(sep)] for a one-character separator: the pieces between the
    separators, empty pieces included; a string without separator is its
    own single piece. *)
Fixpoint split (sep : ascii) (s : string) : list string :=
  match s with
  | EmptyString => [EmptyString]
  | String a rest =>
      if Ascii.eqb a sep then EmptyString :: split sep rest
      else
        match split sep rest with
        | [] => [String a EmptyString]
        | piece :: pieces => String a piece :: pieces
        end
  end.

(** The truth value of a [str]: it is not empty. *)
Definition truthy (s : string) : bool := negb (String.eqb s EmptyString).

(** [l[0:n]]: a negative bound counts from the end. *)
Definition slice_to (n : Z) (l : list string) : list string :=
  if n <? 0
  then firstn (Z.to_nat (Z.of_nat (List.length l) + n)) l
  else firstn (Z.to_nat n) l.

(** [x[n] = v]. *)
Fixpoint update (n : nat) (v : string) (x : list string) : list string :=
  match x, n with
  | [], _ => []
  | _ :: rest, O => v :: rest
  | a :: rest, S k => a :: update k v rest
  end.

(** [x[i], x[j] = x[j], x[i]]: both are read, then [x[i]] and [x[j]] are
    written, in this order. *)
Definition swap (i j : nat) (x : list string) : list string :=
  let xj := nth j x EmptyString in
  let xi := nth i x EmptyString in
  update j xi (update i xj x).

(** The loop of [random.shuffle]: for [i] from the last index down to 1,
    [x[i]] changes places with [x[j]] for a [j] drawn from [0..i].  The
    draw is the next number of the random source, taken modulo [i + 1]. *)
Fixpoint shuffle_from (i : nat) (draws : list nat) (x : list string) : list string :=
  match i with
  | O => x
  | S i' =>
      let j := Nat.modulo (hd O draws) (S i) in
      shuffle_from i' (tl draws) (swap i j x)
  end.

(** [random.shuffle(x)]. *)
Definition shuffle (draws : list nat) (x : list string) : list string :=
  shuffle_from (List.length x - 1) draws x.

(** The message of the pair that [run] returns when there is no [dig]. *)
Definition not_installed : string :=
  String.append
    "Can't find dig installed in the path (usually /usr/bin/dig). If "
    (String.append
       "dig isn't installed, you can install it with 'sudo yum install "
       "bind-utils' or 'sudo apt install dnsutils'").

(** The command line that [run] builds (lines 28-43).  [nameserver] is a
    string or [None]. *)
Definition cmd_args (nameserver : option string) (hostname queryopts : string)
  : list string :=
  let opt_list := [] in
  let cmd_args := ["dig"%string] in
  let cmd_args :=
    match nameserver with
    | Some nameserver =>
        if truthy nameserver
        then
          let nameserver := String.append "@" nameserver in
          cmd_args ++ [nameserver]
        else cmd_args
    | None => cmd_args
    end in
  let opt_list :=
    if search "," queryopts
    then split "," queryopts
    else opt_list ++ [queryopts] in
  let cmd_args :=
    fold_left (fun cmd_args v => cmd_args ++ [String.append "+" v]) opt_list cmd_args in
  cmd_args ++ [hostname].

(** [DigAction.run] (lines 27-70).  [Popen] gives, for a command line,
    the [OSError] of a process that could not be started or what the
    process wrote to its standard output. *)
Definition run (Popen : list string -> OSError + string) (draws : list nat)
    (rand : bool) (count : Z) (nameserver : option string)
    (hostname queryopts : string) : Outcome :=
  let cmd_args := cmd_args nameserver hostname queryopts in
  match Popen cmd_args with
  | inl e =>
      if Nat.eqb (errno e) ENOENT
      then Returned (Failure not_installed)
      else Raised e
  | inr stdout =>
      let result_list := filter truthy (split "010" stdout) in
      let count :=
        if (count >? Z.of_nat (List.length result_list)) || (count <=? 0)
        then Z.of_nat (List.length result_list)
        else count in
      let output := slice_to count result_list in
      let output := if rand then shuffle draws output else output in
      Returned (Output output)
  end.

End dig.

(** * The action execution scheduling queue handler

    A shallow embedding of [st2actions/scheduler/handler.py]: the claim loop
    ([run], [_get_next_execution]), the dispatch worker ([_handle_execution],
    [_apply_pre_run], [_is_execution_queue_item_runnable],
    [_update_to_scheduled]) and the garbage collector ([cleanup],
    [_handle_garbage_collection]).

    The handler is stateful, fallible code over two stores, so it is embedded
    in a state-and-exception monad over a [World].  The world also carries
    what the rest of the fleet does at every suspension point of the green
    thread (the [env] oracle) and the chronological [trace] of the effects of
    this process, so that ordering properties can be stated. *)

(** ** Data model *)

(** Modelled from the spec: the status vocabulary of [action_constants]
    ([st2common.constants.action] is not in the source tree).  The closed set
    of section 3, with [other_status] for the statuses the spec elides. *)
Inductive Status : Type :=
| requested | scheduled | delayed | policy_delayed
| canceling | canceled | succeeded | failed | timeout | abandoned | expired
| other_status (name : string).

Definition Status_eq_dec (a b : Status) : {a = b} + {a <> b}.
Proof. decide equality. apply string_dec. Defined.

Definition status_eqb (a b : Status) : bool :=
  if Status_eq_dec a b then true else false.

(** Python's [status in states]. *)
Definition status_in (s : Status) (states : list Status) : bool :=
  existsb (status_eqb s) states.

Module LiveActionDB.
(** [LiveActionDB]: the handler reads [id] and [status]; the rest of the
    document is carried along untouched.  The status is a string, and the
    handler compares it in two ways: by value ([in]) and, against
    [LIVEACTION_STATUS_POLICY_DELAYED], by identity ([is]).
    [status_is_POLICY_DELAYED] says whether the [status] attribute is the
    very string object that this constant names, as it is after an
    assignment from the constant, or a string from elsewhere, equal to it
    or not, such as the one a document loaded from the database carries. *)
Record t : Type := mk {
  id : nat;
  status : Status;
  payload : string;
  status_is_POLICY_DELAYED : bool
}.

(** [l.status = s] for [s] a constant of [action_constants]: the attribute
    is that constant from now on. *)
Definition set_status (s : Status) (l : t) : t :=
  {| id := id l; status := s; payload := payload l;
     status_is_POLICY_DELAYED := status_eqb s policy_delayed |}.

(** The document as the database hands it out: its strings are fresh
    objects, none of them a constant of the program. *)
Definition loaded (l : t) : t :=
  {| id := id l; status := status l; payload := payload l;
     status_is_POLICY_DELAYED := false |}.

(** [l.status is action_constants.LIVEACTION_STATUS_POLICY_DELAYED]. *)
Definition status_is_policy_delayed (l : t) : bool :=
  status_is_POLICY_DELAYED l && status_eqb (status l) policy_delayed.
End LiveActionDB.

Module QueueItemDB.
(** [ActionExecutionSchedulingQueueItemDB].  Timestamps are UTC instants in
    milliseconds; [rev] is the revision token of the optimistic
    concurrency control. *)
Record t : Type := mk {
  id : nat;
  rev : nat;
  liveaction_id : nat;
  action_execution_id : nat;
  original_start_timestamp : Z;
  scheduled_start_timestamp : Z;
  delay : option Z;
  handling : bool
}.

Definition set_handling (h : bool) (i : t) : t :=
  {| id := id i; rev := rev i; liveaction_id := liveaction_id i;
     action_execution_id := action_execution_id i;
     original_start_timestamp := original_start_timestamp i;
     scheduled_start_timestamp := scheduled_start_timestamp i;
     delay := delay i; handling := h |}.

Definition set_scheduled_start_timestamp (ts : Z) (i : t) : t :=
  {| id := id i; rev := rev i; liveaction_id := liveaction_id i;
     action_execution_id := action_execution_id i;
     original_start_timestamp := original_start_timestamp i;
     scheduled_start_timestamp := ts;
     delay := delay i; handling := handling i |}.

Definition set_rev (r : nat) (i : t) : t :=
  {| id := id i; rev := r; liveaction_id := liveaction_id i;
     action_execution_id := action_execution_id i;
     original_start_timestamp := original_start_timestamp i;
     scheduled_start_timestamp := scheduled_start_timestamp i;
     delay := delay i; handling := handling i |}.

Definition set_id (n : nat) (i : t) : t :=
  {| id := n; rev := rev i; liveaction_id := liveaction_id i;
     action_execution_id := action_execution_id i;
     original_start_timestamp := original_start_timestamp i;
     scheduled_start_timestamp := scheduled_start_timestamp i;
     delay := delay i; handling := handling i |}.
End QueueItemDB.

(** ** The scheduling queue collection *)

Module Collection.

(** Modelled from the spec: the collection behind
    [ActionExecutionSchedulingQueue] ([st2common.persistence.execution_queue]
    is not in the source tree; section 4.2 gives its contract).  The documents
    are kept in insertion order and are identified by a server-assigned [id]
    that is never reused. *)
Record t : Type := mk { docs : list QueueItemDB.t; next_id : nat }.

Definition same_id (i r : QueueItemDB.t) : bool :=
  Nat.eqb (QueueItemDB.id r) (QueueItemDB.id i).

(** The filters, ordering and limit the handler passes to [query]:
    [scheduled_start_timestamp__lte], [handling], [limit] and
    [order_by=['+scheduled_start_timestamp']]. *)
Inductive OrderKey : Type := plus_scheduled_start_timestamp.

Record Query : Type := mkQuery {
  scheduled_start_timestamp__lte : Z;
  handling : bool;
  limit : option nat;
  order_by : list OrderKey
}.

Definition matches (q : Query) (r : QueueItemDB.t) : bool :=
  (QueueItemDB.scheduled_start_timestamp r <=? scheduled_start_timestamp__lte q)
  && Bool.eqb (QueueItemDB.handling r) (handling q).

(** Modelled from the spec: the ordered query of section 4.2, ties broken by
    insertion order.  A stable ascending sort on [scheduled_start_timestamp]:
    an item goes before the first later item whose timestamp is not smaller,
    so documents with equal timestamps keep their insertion order. *)
Fixpoint insert_by_start (i : QueueItemDB.t) (l : list QueueItemDB.t) : list QueueItemDB.t :=
  match l with
  | [] => [i]
  | x :: rest =>
      if QueueItemDB.scheduled_start_timestamp i
           <=? QueueItemDB.scheduled_start_timestamp x
      then i :: l
      else x :: insert_by_start i rest
  end.

Definition sort_by_start (l : list QueueItemDB.t) : list QueueItemDB.t :=
  fold_right insert_by_start [] l.

Definition apply_order (keys : list OrderKey) (l : list QueueItemDB.t) : list QueueItemDB.t :=
  match keys with
  | [] => l
  | plus_scheduled_start_timestamp :: _ => sort_by_start l
  end.

Definition apply_limit (n : option nat) (l : list QueueItemDB.t) : list QueueItemDB.t :=
  match n with
  | None => l
  | Some k => firstn k l
  end.

(** Modelled from the spec: [QueryReady] and [QueryStuck] of section 4.2, as
    the one [query] the handler calls with different arguments: filter, then
    order, then limit. *)
Definition select (q : Query) (c : t) : list QueueItemDB.t :=
  apply_limit (limit q) (apply_order (order_by q) (filter (matches q) (docs c))).

(** [QuerySet.first()]. *)
Definition first (l : list QueueItemDB.t) : option QueueItemDB.t := hd_error l.

(** The document stored under the identifier of [i]. *)
Definition current (i : QueueItemDB.t) (c : t) : option QueueItemDB.t :=
  find (same_id i) (docs c).

(** [i] with the next revision token. *)
Definition advance (i : QueueItemDB.t) : QueueItemDB.t :=
  QueueItemDB.set_rev (S (QueueItemDB.rev i)) i.

(** [i] in the place of the document with its identifier. *)
Definition put (i : QueueItemDB.t) (c : t) : t :=
  {| docs := map (fun r => if same_id i r then i else r) (docs c);
     next_id := next_id c |}.

(** Modelled from the spec: [AddOrUpdate] of section 4.2, a compare-and-swap
    on the revision token.  The write goes through when the stored document
    with this [id] still carries the token the writer read; the stored token
    then advances.  A stale token, or a document that is gone, is a write
    conflict and nothing changes. *)
Definition cas (i : QueueItemDB.t) (c : t) : option (QueueItemDB.t * t) :=
  match current i c with
  | Some r =>
      if Nat.eqb (QueueItemDB.rev r) (QueueItemDB.rev i)
      then Some (advance i, put (advance i) c)
      else None
  | None => None
  end.

(** Modelled from the spec: [Delete] of section 4.2. *)
Definition remove (i : QueueItemDB.t) (c : t) : t :=
  {| docs := filter (fun r => negb (same_id i r)) (docs c);
     next_id := next_id c |}.

(** Modelled from the spec: what an enqueuer does (section 3, lifecycle step
    1); the server assigns the next identifier. *)
Definition insert (i : QueueItemDB.t) (c : t) : t :=
  {| docs := docs c ++ [QueueItemDB.set_rev 0 (QueueItemDB.set_id (next_id c) i)];
     next_id := S (next_id c) |}.

(** Every stored identifier has been issued by the server. *)
Definition wf (c : t) : Prop :=
  Forall (fun r => (QueueItemDB.id r < next_id c)%nat) (docs c).

End Collection.

(** ** The world the handler runs in *)

(** What other parties (enqueuers, other scheduler processes, the other
    green threads of this process) may do to the collection while a green
    thread of the handler is suspended. *)
Inductive FleetOp : Type :=
| Enqueue (i : QueueItemDB.t)
| AddOrUpdate (i : QueueItemDB.t)
| Delete (i : QueueItemDB.t).

(** A refused write of another party leaves the collection as it is. *)
Definition apply_op (c : Collection.t) (o : FleetOp) : Collection.t :=
  match o with
  | Enqueue i => Collection.insert i c
  | AddOrUpdate i =>
      match Collection.cas i c with
      | Some (_, c') => c'
      | None => c
      end
  | Delete i => Collection.remove i c
  end.

(** One suspension point as seen from the suspended green thread: how long it
    lasted, what happened to the collection meanwhile, whether [shutdown] was
    called, and whether the awaited store call fails with a transient error. *)
Record EnvStep : Type := mkEnvStep {
  elapsed : N;
  fleet : list FleetOp;
  stop : bool;
  fault : bool
}.

(** The exceptions the handler meets: the two it catches, and any other store
    error (section 7, [Transient]). *)
Inductive exn : Type :=
| StackStormDBObjectWriteConflictError
| StackStormDBObjectNotFoundError
| TransientError.

Definition exn_eqb (a b : exn) : bool :=
  match a, b with
  | StackStormDBObjectWriteConflictError, StackStormDBObjectWriteConflictError => true
  | StackStormDBObjectNotFoundError, StackStormDBObjectNotFoundError => true
  | TransientError, TransientError => true
  | _, _ => false
  end.

Inductive Level : Type := DEBUG | INFO | WARNING | EXCEPTION.

(** The log sites of the handler, in source order. *)
Inductive Message : Type :=
| Entering_scheduler_loop
| Starting_scheduler_garbage_collection
| Removing_lock_for_orphaned_execution_queue_item
| Execution_queue_item_updated_before_rescheduling
| Execution_queue_item_handled_by_another_scheduler
| Scheduling_liveaction
| Failed_to_find_liveaction_in_the_database
| Liveaction_Status_Pre_Run
| Execution_queue_item_update_conflict_during_scheduling
| Ignoring_item_after_policies_are_applied
| Liveaction_Status_Update_to_Scheduled_1
| Liveaction_Status_Update_to_Scheduled_2.

Inductive LogArg : Type := Id (n : nat) | St (s : Status).

(** The effects of this process, in the order in which they happen. *)
Inductive Event : Type :=
| QueueWritten (i : QueueItemDB.t)
| QueueDeleted (i : QueueItemDB.t)
| StatusUpdated (l : LiveActionDB.t) (publish : bool)
| StatusPublished (l : LiveActionDB.t)
| Spawned (i : QueueItemDB.t)
| Logged (lvl : Level) (msg : Message) (args : list LogArg).

(** The two stores, the clock, the shutdown flag of the handler, what the
    environment will do at the suspension points to come, and the trace so
    far.  Other parties act on the queue collection; the live-action store is
    read once per dispatch, at its first suspension point, and the model
    leaves it to this process from then on. *)
Record World : Type := mkWorld {
  queue : Collection.t;
  liveactions : list LiveActionDB.t;
  clock : Z;
  _shutdown : bool;
  env : list EnvStep;
  trace : list Event
}.

Definition with_queue (c : Collection.t) (w : World) : World :=
  {| queue := c; liveactions := liveactions w; clock := clock w;
     _shutdown := _shutdown w; env := env w; trace := trace w |}.

Definition with_liveactions (ls : list LiveActionDB.t) (w : World) : World :=
  {| queue := queue w; liveactions := ls; clock := clock w;
     _shutdown := _shutdown w; env := env w; trace := trace w |}.

Definition with_shutdown (b : bool) (w : World) : World :=
  {| queue := queue w; liveactions := liveactions w; clock := clock w;
     _shutdown := b; env := env w; trace := trace w |}.

Definition tick (ms : N) (w : World) : World :=
  {| queue := queue w; liveactions := liveactions w;
     clock := clock w + Z.of_N ms;
     _shutdown := _shutdown w; env := env w; trace := trace w |}.

Definition record (e : Event) (w : World) : World :=
  {| queue := queue w; liveactions := liveactions w; clock := clock w;
     _shutdown := _shutdown w; env := env w; trace := trace w ++ [e] |}.

(** The world after one suspension point. *)
Definition await (w : World) : World :=
  match env w with
  | [] => w
  | e :: rest =>
      {| queue := fold_left apply_op (fleet e) (queue w);
         liveactions := liveactions w;
         clock := clock w + Z.of_N (elapsed e);
         _shutdown := _shutdown w || stop e;
         env := rest;
         trace := trace w |}
  end.

(** Whether the call awaited at the next suspension point fails. *)
Definition faulty (w : World) : bool :=
  match env w with
  | [] => false
  | e :: _ => fault e
  end.

(** ** State and exceptions *)

Inductive outcome (A : Type) : Type :=
| Return (a : A)
| Raise (e : exn).
Arguments Raise {A} e.

Definition M (A : Type) : Type := World -> outcome A * World.

Definition ret {A} (a : A) : M A := fun w => (Return a, w).

Definition raise {A} (e : exn) : M A := fun w => (Raise e, w).

Definition bind {A B} (m : M A) (k : A -> M B) : M B :=
  fun w =>
    match m w with
    | (Return a, w') => k a w'
    | (Raise e, w') => (Raise e, w')
    end.

(** [try: body  except e: handler]; any other exception propagates. *)
Definition try_except {A} (body : M A) (e : exn) (handler : M A) : M A :=
  fun w =>
    match body w with
    | (Return a, w') => (Return a, w')
    | (Raise e', w') => if exn_eqb e' e then handler w' else (Raise e', w')
    end.

Definition emit (e : Event) : M unit := fun w => (Return tt, record e w).

Declare Scope handler_scope.
Delimit Scope handler_scope with handler.
Notation "x <- m ;; k" := (bind m (fun x => k))
  (at level 61, m at next level, right associativity) : handler_scope.
Notation "m ;; k" := (bind m (fun _ => k))
  (at level 61, right associativity) : handler_scope.
Local Open Scope handler_scope.

(** [for x in xs: body x]; an exception leaves the loop. *)
Fixpoint for_each {A} (xs : list A) (body : A -> M unit) : M unit :=
  match xs with
  | [] => ret tt
  | x :: rest => body x ;; for_each rest body
  end.

(** A blocking store call: the green thread is suspended, and the call may
    come back with a transient store error. *)
Definition io : M unit :=
  fun w => if faulty w then (Raise TransientError, await w) else (Return tt, await w).

(** The result of a computation run in [w], the world it leaves, and the
    events it adds to the trace. *)
Definition result {A} (m : M A) (w : World) : outcome A := fst (m w).

Definition after {A} (m : M A) (w : World) : World := snd (m w).

Definition events_of {A} (m : M A) (w : World) : list Event :=
  skipn (List.length (trace w)) (trace (after m w)).

(** ** The collaborators of the handler *)

Module date.
(** Modelled from the spec: [Now] of section 4.1 ([st2common.util.date] is
    not in the source tree).  The clock is read without suspending; time
    passes at suspension points. *)
Definition get_datetime_utc_now : M Z := fun w => (Return (clock w), w).

(** Modelled from the spec: [Shift] of section 4.1. *)
Definition append_milliseconds_to_time (t ms : Z) : Z := t + ms.
End date.

Module LOG.
Definition debug (msg : Message) (args : list LogArg) : M unit :=
  emit (Logged DEBUG msg args).

Definition info (msg : Message) (args : list LogArg) : M unit :=
  emit (Logged INFO msg args).

Definition warning (msg : Message) (args : list LogArg) : M unit :=
  emit (Logged WARNING msg args).

Definition exception (msg : Message) (args : list LogArg) : M unit :=
  emit (Logged EXCEPTION msg args).
End LOG.

Module eventlet.
(** [eventlet.greenthread.sleep]: the interval passes, other green threads
    and processes run; sleeping does not fail. *)
Definition sleep (ms : N) : M unit := fun w => (Return tt, await (tick ms w)).

(** [GreenPool.spawn]: the worker is handed to the pool; it runs as another
    green thread, so its own effects reach this thread through [env]. *)
Definition spawn (i : QueueItemDB.t) : M unit := emit (Spawned i).
End eventlet.

(** The persistence layer of the queue, as blocking calls on the collection. *)
Module ActionExecutionSchedulingQueue.
(** Modelled from the spec: the queries of section 4.2. *)
Definition query (q : Collection.Query) : M (list QueueItemDB.t) :=
  io ;; (fun w => (Return (Collection.select q (queue w)), w)).

(** Modelled from the spec: [AddOrUpdate] of section 4.2; it publishes
    nothing, whatever [publish] says.  It returns the document as written:
    the object in the caller's hand is the one that was saved, so it carries
    the token of its last successful write. *)
Definition add_or_update (i : QueueItemDB.t) (publish : bool) : M QueueItemDB.t :=
  io ;;
  (fun w =>
     match Collection.cas i (queue w) with
     | Some (i', c') => (Return i', record (QueueWritten i') (with_queue c' w))
     | None => (Raise StackStormDBObjectWriteConflictError, w)
     end).

(** Modelled from the spec: [Delete] of section 4.2. *)
Definition delete (i : QueueItemDB.t) : M unit :=
  io ;;
  (fun w => (Return tt,
             record (QueueDeleted i) (with_queue (Collection.remove i (queue w)) w))).
End ActionExecutionSchedulingQueue.

Module action_utils.
(** Modelled from the spec: [GetByID] of section 4.3.  The document comes
    from the database. *)
Definition get_liveaction_by_id (lid : nat) : M LiveActionDB.t :=
  io ;;
  (fun w =>
     match find (fun l => Nat.eqb (LiveActionDB.id l) lid) (liveactions w) with
     | Some l => (Return (LiveActionDB.loaded l), w)
     | None => (Raise StackStormDBObjectNotFoundError, w)
     end).
End action_utils.

Module action_service.
(** Modelled from the spec: [UpdateStatus] of section 4.3.  It sets the
    status; the change is notified to the subscribers only when [publish] is
    set. *)
Definition update_status (l : LiveActionDB.t) (new_status : Status) (publish : bool)
  : M LiveActionDB.t :=
  io ;;
  (fun w =>
     let l' := LiveActionDB.set_status new_status l in
     let stored :=
       map (fun x => if Nat.eqb (LiveActionDB.id x) (LiveActionDB.id l) then l' else x)
           (liveactions w) in
     let w1 := record (StatusUpdated l' publish) (with_liveactions stored w) in
     (Return l', if publish then record (StatusPublished l') w1 else w1)).
End action_service.

Module LiveAction.
(** Modelled from the spec: [PublishStatus] of section 4.3. *)
Definition publish_status (l : LiveActionDB.t) : M unit :=
  io ;; emit (StatusPublished l).
End LiveAction.

Module policy_service.
(** Modelled from the spec: [apply_pre_run_policies] hands back the live
    action, possibly with another status (section 4.4).  Which policies
    apply, and what they decide from the stored live actions, is left to
    [policies]. *)
Definition apply_pre_run_policies
    (policies : list LiveActionDB.t -> LiveActionDB.t -> LiveActionDB.t)
    (l : LiveActionDB.t) : M LiveActionDB.t :=
  io ;; (fun w => (Return (policies (liveactions w) l), w)).
End policy_service.

(** The status constants the handler names. *)
Module action_constants.
Definition LIVEACTION_STATUS_REQUESTED := requested.
Definition LIVEACTION_STATUS_SCHEDULED := scheduled.
Definition LIVEACTION_STATUS_DELAYED := delayed.
Definition LIVEACTION_STATUS_POLICY_DELAYED := policy_delayed.
End action_constants.

(** ** Scenarios

    Concrete status sets, policies, items and worlds for the examples. *)
Module Scenario.

(** An instance of the two status sets of [action_constants]. *)
Definition LIVEACTION_COMPLETED_STATES : list Status :=
  [succeeded; failed; timeout; canceled; abandoned].

Definition LIVEACTION_CANCEL_STATES : list Status := [canceling; canceled].

(** Policies that let every live action through unchanged, and policies that
    delay every live action. *)
Definition no_policies (_ : list LiveActionDB.t) (l : LiveActionDB.t) : LiveActionDB.t := l.

Definition delaying_policies (_ : list LiveActionDB.t) (l : LiveActionDB.t) : LiveActionDB.t :=
  LiveActionDB.set_status policy_delayed l.

(** Queue item 1 for live action 7, due at time 0, as its enqueuer left it,
    and as the claim loop hands it to a worker. *)
Definition Q1 : QueueItemDB.t :=
  {| QueueItemDB.id := 1; QueueItemDB.rev := 0; QueueItemDB.liveaction_id := 7;
     QueueItemDB.action_execution_id := 70; QueueItemDB.original_start_timestamp := 0;
     QueueItemDB.scheduled_start_timestamp := 0; QueueItemDB.delay := None;
     QueueItemDB.handling := false |}.

Definition Q1_claimed : QueueItemDB.t :=
  Collection.advance (QueueItemDB.set_handling true Q1).

Definition L1 (s : Status) : LiveActionDB.t :=
  {| LiveActionDB.id := 7; LiveActionDB.status := s; LiveActionDB.payload := "core.local";
     LiveActionDB.status_is_POLICY_DELAYED := false |}.

(** A world at time [now] whose queue holds [items], with the given live
    actions, and an environment that stays out of the way. *)
Definition world (now : Z) (items : list QueueItemDB.t) (ls : list LiveActionDB.t) : World :=
  {| queue := {| Collection.docs := items; Collection.next_id := 2 |};
     liveactions := ls; clock := now; _shutdown := false; env := []; trace := [] |}.

End Scenario.

(** ** The handler

    [ActionExecutionSchedulingQueueHandler], method by method and line by
    line; a local variable that Python rebinds is rebound here. *)

Definition EXECUTION_SCHEDUELING_TIMEOUT_THRESHOLD_MS : Z := 60 * 1000.

Definition POLICY_DELAYED_EXECUTION_RESCHEDULE_TIME_MS : Z := 1500.

(** [while not self._shutdown: body], unrolled at most [fuel] times. *)
Fixpoint while_not_shutdown (fuel : nat) (body : M unit) : M unit :=
  match fuel with
  | O => ret tt
  | S n =>
      fun w =>
        if _shutdown w then (Return tt, w)
        else (body ;; while_not_shutdown n body) w
  end.

Section Handler.

(** The policies in force, the two status sets of [action_constants] and
    the intervals of [cfg.CONF.scheduler] (milliseconds). *)
Variable pre_run_policies : list LiveActionDB.t -> LiveActionDB.t -> LiveActionDB.t.
Variables LIVEACTION_COMPLETED_STATES LIVEACTION_CANCEL_STATES : list Status.
Variables sleep_interval gc_interval : N.

(** [_handle_garbage_collection] (lines 79-107). *)
Definition _handle_garbage_collection : M unit :=
  now <- date.get_datetime_utc_now ;;
  let query :=
    {| Collection.scheduled_start_timestamp__lte :=
         date.append_milliseconds_to_time now (- EXECUTION_SCHEDUELING_TIMEOUT_THRESHOLD_MS);
       Collection.handling := true;
       Collection.limit := None;
       Collection.order_by := [] |} in
  execution_queue_item_dbs <- ActionExecutionSchedulingQueue.query query ;;
  for_each execution_queue_item_dbs
    (fun execution_queue_item_db =>
       let execution_queue_item_db := QueueItemDB.set_handling false execution_queue_item_db in
       try_except
         (ActionExecutionSchedulingQueue.add_or_update execution_queue_item_db false ;;
          LOG.info Removing_lock_for_orphaned_execution_queue_item
                   [Id (QueueItemDB.id execution_queue_item_db)])
         StackStormDBObjectWriteConflictError
         (LOG.info Execution_queue_item_updated_before_rescheduling
                   [Id (QueueItemDB.id execution_queue_item_db)])).

(** [_get_next_execution] (lines 111-141).  The item returned is the object
    that was saved. *)
Definition _get_next_execution : M (option QueueItemDB.t) :=
  now <- date.get_datetime_utc_now ;;
  let query :=
    {| Collection.scheduled_start_timestamp__lte := now;
       Collection.handling := false;
       Collection.limit := Some 1%nat;
       Collection.order_by := [Collection.plus_scheduled_start_timestamp] |} in
  found <- ActionExecutionSchedulingQueue.query query ;;
  match Collection.first found with
  | None => ret None
  | Some execution_queue_item_db =>
      let execution_queue_item_db := QueueItemDB.set_handling true execution_queue_item_db in
      try_except
        (execution_queue_item_db <-
           ActionExecutionSchedulingQueue.add_or_update execution_queue_item_db false ;;
         ret (Some execution_queue_item_db))
        StackStormDBObjectWriteConflictError
        (LOG.info Execution_queue_item_handled_by_another_scheduler
                  [Id (QueueItemDB.id execution_queue_item_db)] ;;
         ret None)
  end.

(** [_apply_pre_run] (lines 172-212). *)
Definition _apply_pre_run (liveaction_db : LiveActionDB.t)
    (execution_queue_item_db : QueueItemDB.t) : M (option LiveActionDB.t) :=
  liveaction_db <- policy_service.apply_pre_run_policies pre_run_policies liveaction_db ;;
  LOG.info Liveaction_Status_Pre_Run
           [Id (LiveActionDB.id liveaction_db); St (LiveActionDB.status liveaction_db);
            Id (QueueItemDB.id execution_queue_item_db)] ;;
  (* [liveaction_db.status is LIVEACTION_STATUS_POLICY_DELAYED]: a test on
     the identity of the string object, not on its value. *)
  if LiveActionDB.status_is_policy_delayed liveaction_db
  then
    liveaction_db <- action_service.update_status
                       liveaction_db action_constants.LIVEACTION_STATUS_DELAYED false ;;
    now <- date.get_datetime_utc_now ;;
    let execution_queue_item_db :=
      QueueItemDB.set_scheduled_start_timestamp
        (date.append_milliseconds_to_time now POLICY_DELAYED_EXECUTION_RESCHEDULE_TIME_MS)
        execution_queue_item_db in
    try_except
      (ActionExecutionSchedulingQueue.add_or_update execution_queue_item_db false ;; ret tt)
      StackStormDBObjectWriteConflictError
      (LOG.warning Execution_queue_item_update_conflict_during_scheduling
                   [Id (QueueItemDB.id execution_queue_item_db)]) ;;
    ret None
  else if status_in (LiveActionDB.status liveaction_db) LIVEACTION_COMPLETED_STATES
          || status_in (LiveActionDB.status liveaction_db) LIVEACTION_CANCEL_STATES
  then
    ActionExecutionSchedulingQueue.delete execution_queue_item_db ;;
    ret None
  else ret (Some liveaction_db).

(** The [valid_status] list of [_is_execution_queue_item_runnable]. *)
Definition valid_status : list Status :=
  [action_constants.LIVEACTION_STATUS_REQUESTED;
   action_constants.LIVEACTION_STATUS_SCHEDULED;
   action_constants.LIVEACTION_STATUS_DELAYED].

(** [_is_execution_queue_item_runnable] (lines 214-238). *)
Definition _is_execution_queue_item_runnable (liveaction_db : LiveActionDB.t)
    (execution_queue_item_db : QueueItemDB.t) : M bool :=
  if status_in (LiveActionDB.status liveaction_db) valid_status
  then ret true
  else
    LOG.info Ignoring_item_after_policies_are_applied
             [Id (QueueItemDB.id execution_queue_item_db);
              St (LiveActionDB.status liveaction_db)] ;;
    ActionExecutionSchedulingQueue.delete execution_queue_item_db ;;
    ret false.

(** [_update_to_scheduled] (lines 240-270). *)
Definition _update_to_scheduled (liveaction_db : LiveActionDB.t)
    (execution_queue_item_db : QueueItemDB.t) : M unit :=
  let liveaction_id := LiveActionDB.id liveaction_db in
  let queue_item_id := QueueItemDB.id execution_queue_item_db in
  LOG.info Liveaction_Status_Update_to_Scheduled_1
           [Id liveaction_id; St (LiveActionDB.status liveaction_db); Id queue_item_id] ;;
  liveaction_db <-
    (if status_in (LiveActionDB.status liveaction_db)
                  [action_constants.LIVEACTION_STATUS_REQUESTED;
                   action_constants.LIVEACTION_STATUS_DELAYED]
     then action_service.update_status
            liveaction_db action_constants.LIVEACTION_STATUS_SCHEDULED false
     else ret liveaction_db) ;;
  LiveAction.publish_status liveaction_db ;;
  ActionExecutionSchedulingQueue.delete execution_queue_item_db ;;
  LOG.info Liveaction_Status_Update_to_Scheduled_2
           [Id liveaction_id; St (LiveActionDB.status liveaction_db); Id queue_item_id].

(** [_handle_execution] (lines 143-170): the body under the
    [metrics.CounterWithTimer] decorator; what it raises is what the
    decorator sees. *)
Definition _handle_execution (execution_queue_item_db : QueueItemDB.t) : M unit :=
  let liveaction_id := QueueItemDB.liveaction_id execution_queue_item_db in
  let queue_item_id := QueueItemDB.id execution_queue_item_db in
  LOG.info Scheduling_liveaction [Id liveaction_id; Id queue_item_id] ;;
  liveaction_db <-
    try_except
      (action_utils.get_liveaction_by_id liveaction_id)
      StackStormDBObjectNotFoundError
      (LOG.exception Failed_to_find_liveaction_in_the_database
                     [Id liveaction_id; Id queue_item_id] ;;
       ActionExecutionSchedulingQueue.delete execution_queue_item_db ;;
       raise StackStormDBObjectNotFoundError) ;;
  liveaction_db <- _apply_pre_run liveaction_db execution_queue_item_db ;;
  match liveaction_db with
  | None => ret tt
  | Some liveaction_db =>
      runnable <- _is_execution_queue_item_runnable liveaction_db execution_queue_item_db ;;
      if runnable
      then _update_to_scheduled liveaction_db execution_queue_item_db
      else ret tt
  end.

(** [run] (lines 61-70), its loop unrolled at most [fuel] times. *)
Definition run (fuel : nat) : M unit :=
  LOG.debug Entering_scheduler_loop [] ;;
  while_not_shutdown fuel
    (eventlet.sleep sleep_interval ;;
     execution_queue_item_db <- _get_next_execution ;;
     match execution_queue_item_db with
     | Some execution_queue_item_db => eventlet.spawn execution_queue_item_db
     | None => ret tt
     end).

(** [cleanup] (lines 72-77), its loop unrolled at most [fuel] times. *)
Definition cleanup (fuel : nat) : M unit :=
  LOG.debug Starting_scheduler_garbage_collection [] ;;
  while_not_shutdown fuel
    (eventlet.sleep gc_interval ;;
     _handle_garbage_collection).

(** [shutdown] (lines 278-279). *)
Definition shutdown : M unit := fun w => (Return tt, with_shutdown true w).

(** ** Reading traces *)

Definition is_publish (e : Event) : bool :=
  match e with StatusPublished _ => true | _ => false end.

Definition is_delete (e : Event) : bool :=
  match e with QueueDeleted _ => true | _ => false end.

Definition is_write (e : Event) : bool :=
  match e with QueueWritten _ => true | _ => false end.

Definition is_update (e : Event) : bool :=
  match e with StatusUpdated _ _ => true | _ => false end.

Definition is_spawn (e : Event) : bool :=
  match e with Spawned _ => true | _ => false end.

Definition is_log (e : Event) : bool :=
  match e with Logged _ _ _ => true | _ => false end.

(** The store effects and spawns of a trace, log lines left out. *)
Definition effects (evs : list Event) : list Event :=
  filter (fun e => negb (is_log e)) evs.

(** Every [Q] event of the trace has a [P] event strictly before it. *)
Definition precedes (P Q : Event -> bool) (evs : list Event) : Prop :=
  forall pre e post,
    evs = pre ++ e :: post -> Q e = true -> exists p, In p pre /\ P p = true.

(** The same, as a check that runs over the trace. *)
Fixpoint precedesb (P Q : Event -> bool) (seen : bool) (evs : list Event) : bool :=
  match evs with
  | [] => true
  | e :: rest => (negb (Q e) || seen) && precedesb P Q (seen || P e) rest
  end.

(** The world after [n] suspension points in which this process does
    nothing. *)
Fixpoint idle (n : nat) (w : World) : World :=
  match n with
  | O => w
  | S k => idle k (await w)
  end.

(** Two worlds that differ at most in the trace. *)
Definition same_stores (w1 w2 : World) : Prop :=
  queue w1 = queue w2 /\ liveactions w1 = liveactions w2 /\ clock w1 = clock w2
  /\ _shutdown w1 = _shutdown w2 /\ env w1 = env w2.

(** ** Vocabulary of the statements *)

(** The test of [_update_to_scheduled]: the status is requested or delayed. *)
Definition needs_update (l : LiveActionDB.t) : bool :=
  status_in (LiveActionDB.status l)
            [action_constants.LIVEACTION_STATUS_REQUESTED;
             action_constants.LIVEACTION_STATUS_DELAYED].

(** The live action [_update_to_scheduled] publishes. *)
Definition as_scheduled (l : LiveActionDB.t) : LiveActionDB.t :=
  if needs_update l
  then LiveActionDB.set_status action_constants.LIVEACTION_STATUS_SCHEDULED l
  else l.

(** What a complete run of [_update_to_scheduled] does, in order. *)
Definition schedule_effects (l : LiveActionDB.t) (i : QueueItemDB.t) : list Event :=
  (if needs_update l then [StatusUpdated (as_scheduled l) false] else [])
    ++ [StatusPublished (as_scheduled l); QueueDeleted i].

(** The live action with identifier [lid], as [get_liveaction_by_id] hands
    it out. *)
Definition lookup (lid : nat) (ls : list LiveActionDB.t) : option LiveActionDB.t :=
  option_map LiveActionDB.loaded (find (fun l => Nat.eqb (LiveActionDB.id l) lid) ls).

(** The status is in the completed or in the cancel set. *)
Definition terminal (s : Status) : bool :=
  status_in s LIVEACTION_COMPLETED_STATES || status_in s LIVEACTION_CANCEL_STATES.

(** Nobody handles the item and its start time has come. *)
Definition ready (now : Z) (r : QueueItemDB.t) : Prop :=
  QueueItemDB.handling r = false /\ QueueItemDB.scheduled_start_timestamp r <= now.

(** The query of [_get_next_execution], as a function of the collection. *)
Definition next_ready (now : Z) (c : Collection.t) : option QueueItemDB.t :=
  Collection.first
    (Collection.select
       {| Collection.scheduled_start_timestamp__lte := now;
          Collection.handling := false;
          Collection.limit := Some 1%nat;
          Collection.order_by := [Collection.plus_scheduled_start_timestamp] |}
       c).

(** What the claim loop writes for the item it found. *)
Definition claim_of (i : QueueItemDB.t) : QueueItemDB.t :=
  QueueItemDB.set_handling true i.

(** The log line of a lost claim. *)
Definition conflict_line (i : QueueItemDB.t) : Event :=
  Logged INFO Execution_queue_item_handled_by_another_scheduler [Id (QueueItemDB.id i)].

(** The items handed to workers, and the items written with the claim
    flag set, in trace order. *)
Fixpoint spawned (evs : list Event) : list QueueItemDB.t :=
  match evs with
  | [] => []
  | Spawned i :: rest => i :: spawned rest
  | _ :: rest => spawned rest
  end.

Fixpoint written (evs : list Event) : list QueueItemDB.t :=
  match evs with
  | [] => []
  | QueueWritten i :: rest => i :: written rest
  | _ :: rest => written rest
  end.

(** The body of the [while] loop of [run]. *)
Definition run_body : M unit :=
  eventlet.sleep sleep_interval ;;
  execution_queue_item_db <- _get_next_execution ;;
  match execution_queue_item_db with
  | Some execution_queue_item_db => eventlet.spawn execution_queue_item_db
  | None => ret tt
  end.

(** [n] has been issued and no stored document carries it. *)
Definition absent (n : nat) (c : Collection.t) : Prop :=
  (n < Collection.next_id c)%nat
  /\ forall r, In r (Collection.docs c) -> QueueItemDB.id r <> n.

(** The workers spawned are the items written, and these carry [handling]. *)
Definition claimed_spawns (evs : list Event) : Prop :=
  spawned evs = written evs
  /\ Forall (fun j => QueueItemDB.handling j = true) (written evs).

(** Every stored document with identifier [n] has a revision above [v]. *)
Definition newer (n v : nat) (c : Collection.t) : Prop :=
  (n < Collection.next_id c)%nat
  /\ forall r, In r (Collection.docs c) -> QueueItemDB.id r = n ->
               (v < QueueItemDB.rev r)%nat.

(** One tick's claim followed by the dispatch of what it claimed. *)
Definition claim_and_dispatch : M unit :=
  claimed <- _get_next_execution ;;
  match claimed with
  | Some execution_queue_item_db => _handle_execution execution_queue_item_db
  | None => ret tt
  end.

(** The body of the [for] loop of [_handle_garbage_collection]. *)
Definition gc_body (execution_queue_item_db : QueueItemDB.t) : M unit :=
  let execution_queue_item_db := QueueItemDB.set_handling false execution_queue_item_db in
  try_except
    (ActionExecutionSchedulingQueue.add_or_update execution_queue_item_db false ;;
     LOG.info Removing_lock_for_orphaned_execution_queue_item
              [Id (QueueItemDB.id execution_queue_item_db)])
    StackStormDBObjectWriteConflictError
    (LOG.info Execution_queue_item_updated_before_rescheduling
              [Id (QueueItemDB.id execution_queue_item_db)]).

(** The query of [_handle_garbage_collection] at time [now]. *)
Definition stuck_query (now : Z) : Collection.Query :=
  {| Collection.scheduled_start_timestamp__lte :=
       date.append_milliseconds_to_time now (- EXECUTION_SCHEDUELING_TIMEOUT_THRESHOLD_MS);
     Collection.handling := true;
     Collection.limit := None;
     Collection.order_by := [] |}.

(** The items the loop has dealt with, read off its log lines. *)
Fixpoint gc_handled (evs : list Event) : list (nat * bool) :=
  match evs with
  | [] => []
  | Logged INFO Removing_lock_for_orphaned_execution_queue_item [Id n] :: rest =>
      (n, true) :: gc_handled rest
  | Logged INFO Execution_queue_item_updated_before_rescheduling [Id n] :: rest =>
      (n, false) :: gc_handled rest
  | _ :: rest => gc_handled rest
  end.

(** What the collector stores for a stuck item. *)
Definition released (x : QueueItemDB.t) : QueueItemDB.t :=
  Collection.advance (QueueItemDB.set_handling false x).

(** The document [r] after the collector has released the items [xs]. *)
Definition gc_reset (xs : list QueueItemDB.t) (r : QueueItemDB.t) : QueueItemDB.t :=
  match find (fun x => Nat.eqb (QueueItemDB.id x) (QueueItemDB.id r)) xs with
  | Some x => released x
  | None => r
  end.

(** The events of the collector's loop over the items [xs], started in the
    world [w], when no store call fails: at its suspension point each item
    is written back with [handling] reset and the release is logged, unless
    the store refuses the write, which is logged instead. *)
Fixpoint gc_expected (xs : list QueueItemDB.t) (w : World) : list Event :=
  match xs with
  | [] => []
  | x :: rest =>
      match Collection.cas (QueueItemDB.set_handling false x) (queue (await w)) with
      | Some (x', c') =>
          QueueWritten x'
          :: Logged INFO Removing_lock_for_orphaned_execution_queue_item
                    [Id (QueueItemDB.id x)]
          :: gc_expected rest (with_queue c' (await w))
      | None =>
          Logged INFO Execution_queue_item_updated_before_rescheduling
                 [Id (QueueItemDB.id x)]
          :: gc_expected rest (await w)
      end
  end.

(** One of the next [n] suspension points brings a store fault: the call
    awaited there fails with a transient error. *)
Definition fault_within (n : nat) (w : World) : bool :=
  existsb fault (firstn n (env w)).

(** ** Vocabulary of the loop and frame properties *)

(** Shutdown has been requested, or is requested at one of the next [n]
    suspension points. *)
Definition stop_within (n : nat) (w : World) : bool :=
  _shutdown w || existsb stop (firstn n (env w)).

(** A shutdown request that is pending in [w] is pending in [w'], or has
    been made. *)
Definition stop_kept (w w' : World) : Prop :=
  forall n, stop_within n w = true -> stop_within n w' = true.

(** Every run of [m] leaves a world related by [R] to the world it started
    in, and raises only exceptions in [P]. *)
Definition keeps {A} (R : World -> World -> Prop) (P : exn -> Prop) (m : M A) : Prop :=
  forall w r w', m w = (r, w') -> R w w' /\ forall e, r = Raise e -> P e.

(** A relation between worlds that holds across suspension points and
    writes to the queue collection, and across the events in [ok]. *)
Record Frame (R : World -> World -> Prop) (ok : Event -> Prop) : Prop := mkFrame {
  frame_refl : forall w, R w w;
  frame_trans : forall w1 w2 w3, R w1 w2 -> R w2 w3 -> R w1 w3;
  frame_await : forall w, R w (await w);
  frame_with_queue : forall c w, R w (with_queue c w);
  frame_record : forall e w, ok e -> R w (record e w)
}.

(** The live-action store is as it was, and the trace has grown by events
    in [ok]. *)
Definition grown_by (ok : Event -> Prop) (w w' : World) : Prop :=
  liveactions w' = liveactions w
  /\ exists evs, trace w' = trace w ++ evs /\ Forall ok evs.

(** What the claim loop may do: write an item with the claim flag set, hand
    an item to a worker, log. *)
Definition claim_event (e : Event) : Prop :=
  match e with
  | QueueWritten j => QueueItemDB.handling j = true
  | Spawned _ => True
  | Logged _ _ _ => True
  | _ => False
  end.

(** What the collector may do: write an item with the claim flag cleared,
    log. *)
Definition release_event (e : Event) : Prop :=
  match e with
  | QueueWritten j => QueueItemDB.handling j = false
  | Logged _ _ _ => True
  | _ => False
  end.

(** The body of the [while] loop of [cleanup]. *)
Definition cleanup_body : M unit :=
  eventlet.sleep gc_interval ;;
  _handle_garbage_collection.

(** Nobody else acts and no call fails: the environment has nothing in
    store. *)
Definition quiet (w : World) : Prop := env w = [].

(** Run in a quiet world, [m] leaves a quiet world and meets no store
    fault. *)
Definition undisturbed {A} (m : M A) : Prop :=
  forall w r w', quiet w -> m w = (r, w') -> quiet w' /\ r <> Raise TransientError.

(** If [w] is quiet, so is [w'], at the same time and with the same
    shutdown flag. *)
Definition quiet_same (w w' : World) : Prop :=
  quiet w -> quiet w' /\ clock w' = clock w /\ _shutdown w' = _shutdown w.

(** The unclaimed documents of [c] that are scheduled no later than [x],
    [x] among them when it is stored and unclaimed: the items the ordered
    query may return before it returns [x]. *)
Definition ahead (x : QueueItemDB.t) (c : Collection.t) : list QueueItemDB.t :=
  filter (fun r => negb (QueueItemDB.handling r)
                   && (QueueItemDB.scheduled_start_timestamp r
                       <=? QueueItemDB.scheduled_start_timestamp x))
         (Collection.docs c).

(** ** Lemmas on the world and the monad *)

Lemma trace_await w : trace (await w) = trace w.
Proof. unfold await. destruct (env w); reflexivity. Qed.

Lemma liveactions_await w : liveactions (await w) = liveactions w.
Proof. unfold await. destruct (env w); reflexivity. Qed.

Lemma clock_await w : clock w <= clock (await w).
Proof. unfold await. destruct (env w); simpl; lia. Qed.

Lemma await_record e w : await (record e w) = record e (await w).
Proof. unfold await, record. simpl. destruct (env w) eqn:E; simpl; rewrite ?E; reflexivity. Qed.


Lemma skipn_length_app (A : Type) (l r : list A) : skipn (List.length l) (l ++ r) = r.
Proof. induction l; simpl; auto. Qed.

Lemma skipn_length_nil (A : Type) (l : list A) : skipn (List.length l) l = [].
Proof. induction l; simpl; auto. Qed.

Lemma trace_with_queue c w : trace (with_queue c w) = trace w.
Proof. reflexivity. Qed.

Lemma trace_record e w : trace (record e w) = trace w ++ [e].
Proof. reflexivity. Qed.

Lemma trace_with_liveactions ls w : trace (with_liveactions ls w) = trace w.
Proof. reflexivity. Qed.

Lemma trace_tick ms w : trace (tick ms w) = trace w.
Proof. reflexivity. Qed.

(** *** Inversion of runs *)

Lemma bind_inv (A B : Type) (m : M A) (k : A -> M B) w r w' :
  bind m k w = (r, w') ->
  (exists a w1, m w = (Return a, w1) /\ k a w1 = (r, w'))
  \/ (exists e, m w = (Raise e, w') /\ r = Raise e).
Proof.
  unfold bind. destruct (m w) as [[a | e] w1]; intros H.
  - left. eauto.
  - right. inversion H; subst. eauto.
Qed.

Lemma try_except_inv (A : Type) (body : M A) e (handler : M A) w r w' :
  try_except body e handler w = (r, w') ->
  (exists a, body w = (Return a, w') /\ r = Return a)
  \/ (exists w1, body w = (Raise e, w1) /\ handler w1 = (r, w'))
  \/ (exists e', body w = (Raise e', w') /\ exn_eqb e' e = false /\ r = Raise e').
Proof.
  unfold try_except. destruct (body w) as [[a | e'] w1]; intros H.
  - left. inversion H; subst. eauto.
  - destruct (exn_eqb e' e) eqn:E.
    + right; left. exists w1. split; auto.
      destruct e', e; try discriminate; reflexivity.
    + right; right. inversion H; subst. eauto.
Qed.

Lemma io_inv w r w' :
  io w = (r, w') ->
  w' = await w /\ (r = Return tt \/ r = Raise TransientError).
Proof.
  unfold io. destruct (faulty w); intros H; inversion H; subst; auto.
Qed.

Lemma emit_inv e w r w' : emit e w = (r, w') -> r = Return tt /\ w' = record e w.
Proof. unfold emit. intros H; inversion H; auto. Qed.

Lemma ret_inv (A : Type) (a : A) w r w' : ret a w = (r, w') -> r = Return a /\ w' = w.
Proof. unfold ret. intros H; inversion H; auto. Qed.

Lemma raise_inv (A : Type) e w (r : outcome A) w' :
  raise e w = (r, w') -> r = Raise e /\ w' = w.
Proof. unfold raise. intros H; inversion H; auto. Qed.

Lemma now_inv w r w' :
  date.get_datetime_utc_now w = (r, w') -> r = Return (clock w) /\ w' = w.
Proof. unfold date.get_datetime_utc_now. intros H; inversion H; auto. Qed.

Lemma sleep_inv ms w r w' :
  eventlet.sleep ms w = (r, w') -> r = Return tt /\ w' = await (tick ms w).
Proof. unfold eventlet.sleep. intros H; inversion H; auto. Qed.

Lemma query_inv q w r w' :
  ActionExecutionSchedulingQueue.query q w = (r, w') ->
  w' = await w
  /\ (r = Return (Collection.select q (queue (await w))) \/ r = Raise TransientError).
Proof.
  unfold ActionExecutionSchedulingQueue.query. intros H.
  apply bind_inv in H. destruct H as [(a & w1 & H1 & H2) | (e & H1 & ->)];
    apply io_inv in H1; destruct H1 as [-> H1].
  - inversion H2; subst. auto.
  - destruct H1 as [H1 | H1]; inversion H1; auto.
Qed.

Lemma add_or_update_inv i publish w r w' :
  ActionExecutionSchedulingQueue.add_or_update i publish w = (r, w') ->
  (r = Raise TransientError /\ w' = await w)
  \/ (r = Raise StackStormDBObjectWriteConflictError /\ w' = await w
      /\ Collection.cas i (queue (await w)) = None)
  \/ (exists c', Collection.cas i (queue (await w)) = Some (Collection.advance i, c')
      /\ r = Return (Collection.advance i)
      /\ w' = record (QueueWritten (Collection.advance i)) (with_queue c' (await w))).
Proof.
  unfold ActionExecutionSchedulingQueue.add_or_update. intros H.
  apply bind_inv in H. destruct H as [(a & w1 & H1 & H2) | (e & H1 & ->)];
    apply io_inv in H1; destruct H1 as [-> H1].
  - destruct (Collection.cas i (queue (await w))) as [[i' c'] |] eqn:E.
    + right; right. inversion H2; subst. exists c'.
      assert (i' = Collection.advance i) as ->.
      { unfold Collection.cas in E. destruct (Collection.current _ _); try discriminate.
        destruct (Nat.eqb _ _); inversion E; auto. }
      auto.
    + right; left. inversion H2; subst. auto.
  - left. destruct H1 as [H1 | H1]; inversion H1; auto.
Qed.

Lemma delete_inv i w r w' :
  ActionExecutionSchedulingQueue.delete i w = (r, w') ->
  (r = Raise TransientError /\ w' = await w)
  \/ (r = Return tt
      /\ w' = record (QueueDeleted i)
                (with_queue (Collection.remove i (queue (await w))) (await w))).
Proof.
  unfold ActionExecutionSchedulingQueue.delete. intros H.
  apply bind_inv in H. destruct H as [(a & w1 & H1 & H2) | (e & H1 & ->)];
    apply io_inv in H1; destruct H1 as [-> H1].
  - right. inversion H2; subst. auto.
  - left. destruct H1 as [H1 | H1]; inversion H1; auto.
Qed.

Lemma get_liveaction_by_id_inv lid w r w' :
  action_utils.get_liveaction_by_id lid w = (r, w') ->
  w' = await w
  /\ (r = Raise TransientError
      \/ (r = Raise StackStormDBObjectNotFoundError
          /\ find (fun l => Nat.eqb (LiveActionDB.id l) lid) (liveactions w) = None)
      \/ (exists l, r = Return (LiveActionDB.loaded l)
          /\ find (fun l => Nat.eqb (LiveActionDB.id l) lid) (liveactions w) = Some l)).
Proof.
  unfold action_utils.get_liveaction_by_id. intros H.
  apply bind_inv in H. destruct H as [(a & w1 & H1 & H2) | (e & H1 & ->)];
    apply io_inv in H1; destruct H1 as [-> H1].
  - rewrite liveactions_await in H2.
    destruct (find _ (liveactions w)) as [l |]; inversion H2; subst; eauto 6.
  - destruct H1 as [H1 | H1]; inversion H1; auto.
Qed.

Lemma update_status_inv l s w r w' :
  action_service.update_status l s false w = (r, w') ->
  (r = Raise TransientError /\ w' = await w)
  \/ (r = Return (LiveActionDB.set_status s l)
      /\ exists ls, w' = record (StatusUpdated (LiveActionDB.set_status s l) false)
                           (with_liveactions ls (await w))).
Proof.
  unfold action_service.update_status. intros H.
  apply bind_inv in H. destruct H as [(a & w1 & H1 & H2) | (e & H1 & ->)];
    apply io_inv in H1; destruct H1 as [-> H1].
  - right. inversion H2; subst. eauto.
  - left. destruct H1 as [H1 | H1]; inversion H1; auto.
Qed.

Lemma publish_status_inv l w r w' :
  LiveAction.publish_status l w = (r, w') ->
  (r = Raise TransientError /\ w' = await w)
  \/ (r = Return tt /\ w' = record (StatusPublished l) (await w)).
Proof.
  unfold LiveAction.publish_status. intros H.
  apply bind_inv in H. destruct H as [(a & w1 & H1 & H2) | (e & H1 & ->)];
    apply io_inv in H1; destruct H1 as [-> H1].
  - right. apply emit_inv in H2. destruct H2; subst; auto.
  - left. destruct H1 as [H1 | H1]; inversion H1; auto.
Qed.

Lemma apply_pre_run_policies_inv l w r w' :
  policy_service.apply_pre_run_policies pre_run_policies l w = (r, w') ->
  w' = await w
  /\ (r = Raise TransientError \/ r = Return (pre_run_policies (liveactions w) l)).
Proof.
  unfold policy_service.apply_pre_run_policies. intros H.
  apply bind_inv in H. destruct H as [(a & w1 & H1 & H2) | (e & H1 & ->)];
    apply io_inv in H1; destruct H1 as [-> H1].
  - rewrite liveactions_await in H2. inversion H2; subst; auto.
  - destruct H1 as [H1 | H1]; inversion H1; auto.
Qed.

(** *** Store faults

    A transient error of a store call is a fault of the environment at the
    suspension point of that call. *)

Lemma call_transient (A : Type) (step : M A) w r w' :
  (forall w0 r0 w0', step w0 = (r0, w0') -> r0 <> Raise TransientError) ->
  (io ;; step) w = (r, w') -> r = Raise TransientError -> faulty w = true.
Proof.
  intros Hstep E Hr. unfold bind, io in E. destruct (faulty w); [reflexivity |].
  exfalso. exact (Hstep _ _ _ E Hr).
Qed.

Lemma query_transient q w r w' :
  ActionExecutionSchedulingQueue.query q w = (r, w') ->
  r = Raise TransientError -> faulty w = true.
Proof.
  apply call_transient. intros w0 r0 w0' E. inversion E. discriminate.
Qed.

Lemma add_or_update_transient i publish w r w' :
  ActionExecutionSchedulingQueue.add_or_update i publish w = (r, w') ->
  r = Raise TransientError -> faulty w = true.
Proof.
  apply call_transient. intros w0 r0 w0' E.
  destruct (Collection.cas i (queue w0)) as [[i' c'] |]; inversion E; discriminate.
Qed.

Lemma delete_transient i w r w' :
  ActionExecutionSchedulingQueue.delete i w = (r, w') ->
  r = Raise TransientError -> faulty w = true.
Proof.
  apply call_transient. intros w0 r0 w0' E. inversion E. discriminate.
Qed.

Lemma get_liveaction_by_id_transient lid w r w' :
  action_utils.get_liveaction_by_id lid w = (r, w') ->
  r = Raise TransientError -> faulty w = true.
Proof.
  apply call_transient. intros w0 r0 w0' E.
  destruct (find _ (liveactions w0)); inversion E; discriminate.
Qed.

Lemma update_status_transient l s publish w r w' :
  action_service.update_status l s publish w = (r, w') ->
  r = Raise TransientError -> faulty w = true.
Proof.
  apply call_transient. intros w0 r0 w0' E. inversion E. discriminate.
Qed.

Lemma publish_status_transient l w r w' :
  LiveAction.publish_status l w = (r, w') ->
  r = Raise TransientError -> faulty w = true.
Proof.
  apply call_transient. intros w0 r0 w0' E. inversion E. discriminate.
Qed.

Lemma apply_pre_run_policies_transient l w r w' :
  policy_service.apply_pre_run_policies pre_run_policies l w = (r, w') ->
  r = Raise TransientError -> faulty w = true.
Proof.
  apply call_transient. intros w0 r0 w0' E. inversion E. discriminate.
Qed.

Arguments await : simpl never.
Arguments faulty : simpl never.

(** Takes a run apart along the structure of the method; [note] is applied
    to the equation of every store call before the call is taken apart. *)
Ltac invert_run_gen note :=
  repeat (subst; match goal with
  | H : Return _ = Raise _ |- _ => discriminate H
  | H : Raise _ = Return _ |- _ => discriminate H
  | H : exn_eqb _ _ = false |- _ => discriminate H
  | H : Return _ = Return _ |- _ => inversion H; clear H
  | H : Raise _ = Raise _ |- _ => inversion H; clear H
  | H : (_, _) = (_, _) |- _ => inversion H; clear H
  | H : bind _ _ _ = (_, _) |- _ =>
      apply bind_inv in H; destruct H as [(? & ? & ? & H) | (? & H & ?)]
  | H : try_except _ _ _ _ = (_, _) |- _ =>
      apply try_except_inv in H;
      destruct H as [(? & H & ?) | [(? & ? & H) | (? & H & ? & ?)]]
  | H : ret _ _ = (_, _) |- _ => apply ret_inv in H; destruct H
  | H : raise _ _ = (_, _) |- _ => apply raise_inv in H; destruct H
  | H : emit _ _ = (_, _) |- _ => apply emit_inv in H; destruct H
  | H : LOG.info _ _ _ = (_, _) |- _ => apply emit_inv in H; destruct H
  | H : LOG.debug _ _ _ = (_, _) |- _ => apply emit_inv in H; destruct H
  | H : LOG.warning _ _ _ = (_, _) |- _ => apply emit_inv in H; destruct H
  | H : LOG.exception _ _ _ = (_, _) |- _ => apply emit_inv in H; destruct H
  | H : eventlet.spawn _ _ = (_, _) |- _ => apply emit_inv in H; destruct H
  | H : eventlet.sleep _ _ = (_, _) |- _ => apply sleep_inv in H; destruct H
  | H : date.get_datetime_utc_now _ = (_, _) |- _ => apply now_inv in H; destruct H
  | H : ActionExecutionSchedulingQueue.query _ _ = (_, _) |- _ =>
      note H; apply query_inv in H; destruct H as [? [? | ?]]
  | H : ActionExecutionSchedulingQueue.add_or_update _ _ _ = (_, _) |- _ =>
      note H; apply add_or_update_inv in H;
      destruct H as [[? ?] | [(? & ? & ?) | (? & ? & ? & ?)]]
  | H : ActionExecutionSchedulingQueue.delete _ _ = (_, _) |- _ =>
      note H; apply delete_inv in H; destruct H as [[? ?] | [? ?]]
  | H : action_utils.get_liveaction_by_id _ _ = (_, _) |- _ =>
      note H; apply get_liveaction_by_id_inv in H;
      destruct H as [? [? | [[? ?] | (? & ? & ?)]]]
  | H : action_service.update_status _ _ false _ = (_, _) |- _ =>
      note H; apply update_status_inv in H; destruct H as [[? ?] | (? & ? & ?)]
  | H : LiveAction.publish_status _ _ = (_, _) |- _ =>
      note H; apply publish_status_inv in H; destruct H as [[? ?] | [? ?]]
  | H : policy_service.apply_pre_run_policies _ _ _ = (_, _) |- _ =>
      note H; apply apply_pre_run_policies_inv in H; destruct H as [? [? | ?]]
  | H : (if ?b then _ else _) _ = (_, _) |- _ => destruct b eqn:?
  | H : match ?o with Some _ => _ | None => _ end _ = (_, _) |- _ => destruct o eqn:?
  end); subst.

Ltac invert_run := invert_run_gen ltac:(fun H => idtac).

(** Records, for the store call of equation [H], that a transient error of
    the call is a fault at its suspension point. *)
Ltac note_fault H :=
  lazymatch type of H with
  | ActionExecutionSchedulingQueue.query _ _ = _ =>
      pose proof (@query_transient _ _ _ _ H)
  | ActionExecutionSchedulingQueue.add_or_update _ _ _ = _ =>
      pose proof (@add_or_update_transient _ _ _ _ _ H)
  | ActionExecutionSchedulingQueue.delete _ _ = _ =>
      pose proof (@delete_transient _ _ _ _ H)
  | action_utils.get_liveaction_by_id _ _ = _ =>
      pose proof (@get_liveaction_by_id_transient _ _ _ _ H)
  | action_service.update_status _ _ _ _ = _ =>
      pose proof (@update_status_transient _ _ _ _ _ _ H)
  | LiveAction.publish_status _ _ = _ =>
      pose proof (@publish_status_transient _ _ _ _ H)
  | policy_service.apply_pre_run_policies _ _ _ = _ =>
      pose proof (@apply_pre_run_policies_transient _ _ _ _ H)
  end.

(** Keeps the fault of the call that failed, and drops what was recorded
    for the calls that went through. *)
Ltac settle_faults :=
  repeat match goal with
         | F : Raise TransientError = Raise TransientError -> _ |- _ =>
             specialize (F eq_refl)
         | F : Return _ = Raise TransientError -> _ |- _ => clear F
         | F : Raise StackStormDBObjectWriteConflictError = Raise TransientError -> _
           |- _ => clear F
         | F : Raise StackStormDBObjectNotFoundError = Raise TransientError -> _
           |- _ => clear F
         end.

Ltac invert_faults := invert_run_gen note_fault; settle_faults.

Lemma faulty_within w : faulty w = true -> fault_within 1 w = true.
Proof.
  unfold faulty, fault_within. destruct (env w) as [| e rest]; [discriminate |].
  cbn [firstn existsb]. intros ->. reflexivity.
Qed.

Lemma fault_within_await n w :
  fault_within n (await w) = true -> fault_within (S n) w = true.
Proof.
  unfold fault_within, await. destruct (env w) as [| e rest] eqn:E.
  - rewrite E, !firstn_nil. auto.
  - cbn [env firstn existsb]. intros ->. apply orb_true_r.
Qed.

Lemma fault_within_record n e w : fault_within n (record e w) = fault_within n w.
Proof. reflexivity. Qed.

Lemma fault_within_with_queue n c w : fault_within n (with_queue c w) = fault_within n w.
Proof. reflexivity. Qed.

Lemma fault_within_with_liveactions n ls w :
  fault_within n (with_liveactions ls w) = fault_within n w.
Proof. reflexivity. Qed.

Lemma fault_within_le k n w :
  fault_within k w = true -> (k <= n)%nat -> fault_within n w = true.
Proof.
  unfold fault_within. generalize (env w) as l. revert n.
  induction k as [| k IH]; intros n l H Hle; [discriminate H |].
  destruct n as [| n]; [lia |]. destruct l as [| e l]; [discriminate H |].
  cbn [firstn existsb] in *. apply orb_true_iff in H. apply orb_true_iff.
  destruct H as [H | H]; [left; exact H | right; apply (IH n l H); lia].
Qed.

(** Closes a goal [fault_within n w = true] from the fault of the call that
    failed, counting the suspension points before it. *)
Ltac fault_found :=
  match goal with
  | F : faulty _ = true |- fault_within _ _ = true =>
      apply faulty_within in F;
      repeat first [ rewrite fault_within_record in F
                   | rewrite fault_within_with_queue in F
                   | rewrite fault_within_with_liveactions in F
                   | apply fault_within_await in F ];
      eapply fault_within_le; [exact F | lia]
  end.

(** Brings the trace of an explicit final world into the form
    [trace w ++ events]. *)
Ltac trace_norm :=
  repeat (rewrite trace_await
          || rewrite trace_with_queue
          || rewrite trace_with_liveactions
          || rewrite trace_tick
          || rewrite trace_record
          || rewrite <- app_assoc);
  cbn [app];
  rewrite ?skipn_length_app, ?skipn_length_nil.

Ltac start_run m w :=
  let r := fresh "r" in
  let w' := fresh "w'" in
  let E := fresh "E" in
  unfold result, events_of, after;
  destruct (m w) as [r w'] eqn:E; cbn [fst snd].

(** ** The transition to scheduled *)

Lemma update_to_scheduled_run l i w :
  match result (_update_to_scheduled l i) w with
  | Return _ => effects (events_of (_update_to_scheduled l i) w) = schedule_effects l i
  | Raise e =>
      e = TransientError
      /\ exists k, (k < List.length (schedule_effects l i))%nat
                   /\ effects (events_of (_update_to_scheduled l i) w)
                      = firstn k (schedule_effects l i)
  end.
Proof.
  start_run (_update_to_scheduled l i) w.
  unfold _update_to_scheduled in E.
  unfold schedule_effects, as_scheduled, needs_update.
  invert_run; trace_norm;
    try reflexivity;
    (split; [reflexivity |]);
    first [ exists 2%nat; split; [simpl; lia | reflexivity]
          | exists 1%nat; split; [simpl; lia | reflexivity]
          | exists 0%nat; split; [simpl; lia | reflexivity] ].
Qed.

Lemma precedesb_sound P Q evs :
  forall seen pre0,
    (seen = true -> exists p, In p pre0 /\ P p = true) ->
    precedesb P Q seen evs = true ->
    forall pre e post,
      evs = pre ++ e :: post -> Q e = true ->
      exists p, In p (pre0 ++ pre) /\ P p = true.
Proof.
  induction evs as [| x evs IH]; intros seen pre0 Hseen Hb pre e post Heq HQ.
  - destruct pre; discriminate.
  - simpl in Hb. apply andb_true_iff in Hb. destruct Hb as [Hx Hrest].
    destruct pre as [| y pre]; simpl in Heq; inversion Heq; subst.
    + rewrite HQ in Hx. simpl in Hx. destruct (Hseen Hx) as (p & Hin & Hp).
      exists p. rewrite app_nil_r. auto.
    + assert (Hnext : seen || P y = true -> exists p, In p (pre0 ++ [y]) /\ P p = true).
      { intros H. apply orb_true_iff in H. destruct H as [H | H].
        - destruct (Hseen H) as (p & Hin & Hp). exists p. split; auto.
          apply in_or_app; auto.
        - exists y. split; auto. apply in_or_app; right; simpl; auto. }
      destruct (IH _ _ Hnext Hrest pre e post eq_refl HQ) as (p & Hin & Hp).
      exists p. split; auto. rewrite <- app_assoc in Hin. exact Hin.
Qed.

Lemma precedesb_precedes P Q evs :
  precedesb P Q false evs = true -> precedes P Q evs.
Proof.
  intros Hb pre e post Heq HQ.
  apply (@precedesb_sound P Q evs false [] (fun H => False_ind _ (diff_false_true H)) Hb
           pre e post Heq HQ).
Qed.

Lemma status_eqb_eq a b : status_eqb a b = true <-> a = b.
Proof. unfold status_eqb. destruct (Status_eq_dec a b); split; congruence. Qed.

Lemma status_in_In s l : status_in s l = true <-> In s l.
Proof.
  unfold status_in. rewrite existsb_exists. split.
  - intros (x & Hin & Hx). apply status_eqb_eq in Hx. subst. auto.
  - intros Hin. exists s. split; auto. apply status_eqb_eq. auto.
Qed.

Lemma status_is_policy_delayed_status l :
  LiveActionDB.status_is_policy_delayed l = true -> LiveActionDB.status l = policy_delayed.
Proof.
  unfold LiveActionDB.status_is_policy_delayed. intros H.
  apply andb_true_iff in H. apply status_eqb_eq. apply H.
Qed.

Lemma needs_update_iff l :
  needs_update l = true
  <-> LiveActionDB.status l = requested \/ LiveActionDB.status l = delayed.
Proof.
  unfold needs_update. rewrite status_in_In. simpl.
  unfold action_constants.LIVEACTION_STATUS_REQUESTED,
    action_constants.LIVEACTION_STATUS_DELAYED. intuition congruence.
Qed.

(** C8: [update_status(scheduled, publish=False)] happens exactly when the
    status is requested or delayed, never when it is already scheduled, and
    the status is published exactly once: unless one of the store calls
    that [_update_to_scheduled] makes fails (three when it updates, two
    when it does not), it returns, with that update or none, and with one
    publish. *)
Theorem C8_update_iff_requested_or_delayed (l : LiveActionDB.t) (i : QueueItemDB.t) (w : World) :
  let evs := events_of (_update_to_scheduled l i) w in
  (forall l' publish,
      In (StatusUpdated l' publish) evs ->
      (LiveActionDB.status l = requested \/ LiveActionDB.status l = delayed)
      /\ l' = LiveActionDB.set_status scheduled l /\ publish = false)
  /\ match result (_update_to_scheduled l i) w with
     | Return _ =>
         filter is_update evs
         = (if needs_update l
            then [StatusUpdated (LiveActionDB.set_status scheduled l) false]
            else [])
         /\ (needs_update l = true
             <-> LiveActionDB.status l = requested \/ LiveActionDB.status l = delayed)
         /\ filter is_publish evs = [StatusPublished (as_scheduled l)]
     | Raise e =>
         e = TransientError
         /\ fault_within (if needs_update l then 3 else 2) w = true
         /\ (List.length (filter is_publish evs) <= 1)%nat
     end.
Proof.
  intros evs. subst evs. split.
  - intros l' publish Hin. rewrite <- needs_update_iff.
    revert Hin. start_run (_update_to_scheduled l i) w.
    unfold _update_to_scheduled in E. unfold needs_update.
    invert_run; trace_norm; simpl; intros Hin;
      repeat match goal with
             | H : _ \/ _ |- _ => destruct H
             | H : False |- _ => destruct H
             | H : _ = StatusUpdated _ _ |- _ => inversion H; clear H; subst
             end;
      auto.
  - generalize (needs_update_iff l).
    start_run (_update_to_scheduled l i) w.
    unfold _update_to_scheduled in E. unfold as_scheduled, needs_update.
    intros Hiff.
    invert_faults; trace_norm;
      repeat match goal with
             | H : status_in _ _ = _ |- _ => rewrite H in *
             end;
      cbn [filter is_update is_publish List.length];
      first [ solve [auto]
            | split; [reflexivity | split; [fault_found | lia]] ].
Qed.

(** ** The dispatch worker *)

Lemma liveactions_record e w : liveactions (record e w) = liveactions w.
Proof. reflexivity. Qed.

Lemma current_remove i c : Collection.current i (Collection.remove i c) = None.
Proof.
  unfold Collection.current, Collection.remove. simpl.
  induction (Collection.docs c) as [| r rest IH]; simpl; auto.
  destruct (Collection.same_id i r) eqn:E; simpl; auto.
  rewrite E. auto.
Qed.

Ltac stores_norm :=
  repeat (rewrite liveactions_await in *
          || rewrite liveactions_record in * ).

Ltac use_lookup :=
  unfold lookup in *;
  repeat match goal with
         | H1 : find ?f ?l = Some _, H2 : option_map _ (find ?f ?l) = Some _ |- _ =>
             rewrite H1 in H2; cbn [option_map] in H2; inversion H2; clear H2; subst
         | H1 : find ?f ?l = Some _, H2 : option_map _ (find ?f ?l) = None |- _ =>
             rewrite H1 in H2; discriminate H2
         | H1 : find ?f ?l = None, H2 : option_map _ (find ?f ?l) = Some _ |- _ =>
             rewrite H1 in H2; discriminate H2
         end.

Ltac unfold_constants :=
  unfold action_constants.LIVEACTION_STATUS_REQUESTED,
    action_constants.LIVEACTION_STATUS_SCHEDULED,
    action_constants.LIVEACTION_STATUS_DELAYED,
    action_constants.LIVEACTION_STATUS_POLICY_DELAYED in *.

Ltac contradict_status :=
  match goal with
  | H1 : ?x = true, H2 : ?x = false |- _ => rewrite H1 in H2; discriminate H2
  | H1 : LiveActionDB.status_is_policy_delayed ?l = true,
    H2 : LiveActionDB.status ?l <> policy_delayed |- _ =>
      apply status_is_policy_delayed_status in H1; contradiction
  end.

Ltac unfold_worker H :=
  unfold _handle_execution, _apply_pre_run, _is_execution_queue_item_runnable,
    _update_to_scheduled in H.

(** C7: an item whose live action, after the policies, is completed or
    cancelled, or is otherwise not runnable and not policy-delayed, is
    deleted from the queue, and the worker returns without a status update
    and without a publish.  The two status sets of [action_constants] are
    parameters; as there, policy-delayed is in neither.  The only other
    outcome is a store fault met in one of the three store calls made, and
    then nothing was done. *)
Theorem C7_not_runnable_is_dropped (i : QueueItemDB.t) (w : World) (l : LiveActionDB.t) :
  terminal policy_delayed = false ->
  lookup (QueueItemDB.liveaction_id i) (liveactions w) = Some l ->
  terminal (LiveActionDB.status (pre_run_policies (liveactions w) l)) = true
  \/ (status_in (LiveActionDB.status (pre_run_policies (liveactions w) l))
                [requested; scheduled; delayed] = false
      /\ LiveActionDB.status (pre_run_policies (liveactions w) l) <> policy_delayed) ->
  match result (_handle_execution i) w with
  | Return _ =>
      effects (events_of (_handle_execution i) w) = [QueueDeleted i]
      /\ Collection.current i (queue (after (_handle_execution i) w)) = None
  | Raise e =>
      e = TransientError
      /\ effects (events_of (_handle_execution i) w) = []
      /\ fault_within 3 w = true
  end.
Proof.
  intros Hsets Hfound Hdrop.
  assert (Hnot : LiveActionDB.status_is_policy_delayed
                   (pre_run_policies (liveactions w) l) = false).
  { destruct (LiveActionDB.status_is_policy_delayed _) eqn:Hd; [| reflexivity].
    apply status_is_policy_delayed_status in Hd.
    destruct Hdrop as [Ht | [_ Hn]]; [rewrite Hd in Ht; congruence | contradiction]. }
  assert (Hdrop' : terminal (LiveActionDB.status (pre_run_policies (liveactions w) l)) = true
                   \/ status_in (LiveActionDB.status (pre_run_policies (liveactions w) l))
                                [requested; scheduled; delayed] = false) by tauto.
  clear Hdrop Hsets.
  start_run (_handle_execution i) w.
  unfold_worker E. unfold terminal, valid_status in *.
  invert_faults; stores_norm; use_lookup; unfold_constants; try contradict_status;
    try solve [destruct Hdrop'; contradict_status];
    trace_norm;
    first [ solve [simpl; auto using current_remove]
          | split; [reflexivity | split; [reflexivity | fault_found]] ].
Qed.

Lemma as_scheduled_status l :
  status_in (LiveActionDB.status l) [requested; scheduled; delayed] = true ->
  LiveActionDB.status (as_scheduled l) = scheduled.
Proof.
  intros H. unfold as_scheduled.
  destruct (needs_update l) eqn:E; [reflexivity |].
  apply status_in_In in H. simpl in H.
  destruct H as [H | [H | [H | []]]]; auto;
    assert (needs_update l = true) by (apply needs_update_iff; auto); congruence.
Qed.

Ltac effects_norm :=
  cbn [effects filter is_log is_delete is_publish is_update is_write is_spawn negb].

Ltac not_policy_delayed :=
  match goal with
  | H1 : LiveActionDB.status_is_policy_delayed ?l = true,
    H2 : status_in (LiveActionDB.status ?l) _ = true |- _ =>
      apply status_is_policy_delayed_status in H1; rewrite H1 in H2;
      vm_compute in H2; discriminate H2
  end.

(** C2: on the schedule path of the dispatch worker (the live action is
    found and is runnable after the policies) the status is published
    before the queue item is deleted: every delete in the trace has the
    publish before it, a run that returns does update (if needed), publish
    scheduled and delete in this order, and a run that fails deletes
    nothing. *)
Theorem C2_publish_before_delete (i : QueueItemDB.t) (w : World) (l : LiveActionDB.t) :
  lookup (QueueItemDB.liveaction_id i) (liveactions w) = Some l ->
  status_in (LiveActionDB.status (pre_run_policies (liveactions w) l))
            [requested; scheduled; delayed] = true ->
  terminal (LiveActionDB.status (pre_run_policies (liveactions w) l)) = false ->
  precedes is_publish is_delete (events_of (_handle_execution i) w)
  /\ match result (_handle_execution i) w with
     | Return _ =>
         effects (events_of (_handle_execution i) w)
         = schedule_effects (pre_run_policies (liveactions w) l) i
         /\ LiveActionDB.status (as_scheduled (pre_run_policies (liveactions w) l))
            = scheduled
     | Raise e =>
         e = TransientError /\ filter is_delete (events_of (_handle_execution i) w) = []
     end.
Proof.
  intros Hfound Hvalid Hterm.
  pose proof (as_scheduled_status _ Hvalid) as Hsched.
  split.
  - apply precedesb_precedes.
    start_run (_handle_execution i) w.
    unfold_worker E. unfold terminal, valid_status in *.
    invert_run; stores_norm; use_lookup; unfold_constants;
      try contradict_status; try not_policy_delayed;
      trace_norm; reflexivity.
  - revert Hsched. unfold schedule_effects, as_scheduled, needs_update.
    start_run (_handle_execution i) w.
    unfold_worker E. unfold terminal, valid_status in *.
    invert_run; stores_norm; use_lookup; unfold_constants;
      try contradict_status; try not_policy_delayed;
      repeat match goal with
             | H : status_in _ [requested; delayed] = _ |- _ => rewrite H
             end;
      trace_norm; intros Hsched; effects_norm; auto.
Qed.

(** X20: when [_apply_pre_run] hands back a live action, it is the one the
    policies returned, its status is not the policy-delayed constant
    itself, it is neither completed nor cancelled, and the call has
    written and deleted nothing: the stores are as one suspension point
    left them.  It returns [None] only on the policy-delay branch or for a
    completed or cancelled live action, and fails only on a store fault met
    in one of its at most three store calls. *)
Lemma apply_pre_run_frame (l : LiveActionDB.t) (i : QueueItemDB.t) (w : World) :
  match result (_apply_pre_run l i) w with
  | Return (Some l') =>
      l' = pre_run_policies (liveactions w) l
      /\ LiveActionDB.status_is_policy_delayed l' = false
      /\ status_in (LiveActionDB.status l') LIVEACTION_COMPLETED_STATES = false
      /\ status_in (LiveActionDB.status l') LIVEACTION_CANCEL_STATES = false
      /\ effects (events_of (_apply_pre_run l i) w) = []
      /\ same_stores (after (_apply_pre_run l i) w) (idle 1 w)
  | Return None =>
      LiveActionDB.status_is_policy_delayed (pre_run_policies (liveactions w) l) = true
      \/ terminal (LiveActionDB.status (pre_run_policies (liveactions w) l)) = true
  | Raise e => e = TransientError /\ fault_within 3 w = true
  end.
Proof.
  start_run (_apply_pre_run l i) w.
  unfold _apply_pre_run in E. unfold terminal.
  invert_faults; stores_norm; unfold_constants; trace_norm;
    try solve [split; [reflexivity | fault_found]];
    try solve [left; reflexivity];
    try solve [right; reflexivity].
  match goal with
  | H : (_ || _)%bool = false |- _ => apply orb_false_iff in H; destruct H as [Hc Hk]
  end.
  repeat split; auto.
Qed.

(** ** The ready query *)

Lemma In_insert_by_start x i l :
  In x (Collection.insert_by_start i l) <-> x = i \/ In x l.
Proof.
  induction l as [| y l IH]; simpl.
  - intuition.
  - destruct (_ <=? _); simpl; rewrite ?IH; intuition.
Qed.

Lemma In_sort_by_start x l : In x (Collection.sort_by_start l) <-> In x l.
Proof.
  induction l as [| y l IH]; simpl.
  - tauto.
  - rewrite In_insert_by_start, IH. intuition.
Qed.

Lemma sort_by_start_nil l : Collection.sort_by_start l = [] -> l = [].
Proof.
  destruct l as [| y l]; auto. intros H.
  assert (Hin : In y (Collection.sort_by_start (y :: l)))
    by (apply In_sort_by_start; simpl; auto).
  rewrite H in Hin. destruct Hin.
Qed.

Lemma sort_by_start_head l i rest :
  Collection.sort_by_start l = i :: rest ->
  Forall (fun r => QueueItemDB.scheduled_start_timestamp i
                   <= QueueItemDB.scheduled_start_timestamp r) l.
Proof.
  revert i rest. induction l as [| x l IH]; intros i rest H.
  - constructor.
  - simpl in H. destruct (Collection.sort_by_start l) as [| y rest'] eqn:E.
    + apply sort_by_start_nil in E. subst l. simpl in H. inversion H; subst.
      constructor; [lia | constructor].
    + specialize (IH y rest' eq_refl). simpl in H.
      destruct (_ <=? _) eqn:Hle; inversion H; subst.
      * apply Z.leb_le in Hle. constructor; [lia |].
        eapply Forall_impl; [| exact IH]. simpl. intros; lia.
      * apply Z.leb_gt in Hle. constructor; [lia | exact IH].
Qed.

Lemma first_limit_one l :
  Collection.first (Collection.apply_limit (Some 1%nat) l) = Collection.first l.
Proof. destruct l; reflexivity. Qed.

Lemma matches_ready now limit order r :
  Collection.matches
    {| Collection.scheduled_start_timestamp__lte := now;
       Collection.handling := false;
       Collection.limit := limit;
       Collection.order_by := order |} r = true
  <-> ready now r.
Proof.
  unfold Collection.matches, ready. simpl.
  rewrite andb_true_iff, Z.leb_le. destruct (QueueItemDB.handling r); simpl; intuition congruence.
Qed.

Lemma next_ready_some now c i :
  next_ready now c = Some i ->
  In i (Collection.docs c) /\ ready now i
  /\ forall r, In r (Collection.docs c) -> ready now r ->
               QueueItemDB.scheduled_start_timestamp i
               <= QueueItemDB.scheduled_start_timestamp r.
Proof.
  unfold next_ready, Collection.select. cbn [Collection.limit Collection.order_by].
  rewrite first_limit_one. unfold Collection.apply_order, Collection.first.
  destruct (Collection.sort_by_start _) as [| j rest] eqn:E; simpl; intros H;
    inversion H; subst.
  assert (Hin : In i (Collection.sort_by_start
                        (filter (Collection.matches
                           {| Collection.scheduled_start_timestamp__lte := now;
                              Collection.handling := false;
                              Collection.limit := Some 1%nat;
                              Collection.order_by :=
                                [Collection.plus_scheduled_start_timestamp] |})
                           (Collection.docs c))))
    by (rewrite E; simpl; auto).
  apply In_sort_by_start, filter_In in Hin. destruct Hin as [Hin Hm].
  apply matches_ready in Hm. split; [exact Hin | split; [exact Hm |]].
  intros r Hr Hready.
  apply sort_by_start_head in E. rewrite Forall_forall in E. apply E.
  apply filter_In. split; auto. apply matches_ready. exact Hready.
Qed.

Lemma next_ready_none now c :
  next_ready now c = None ->
  forall r, In r (Collection.docs c) -> ~ ready now r.
Proof.
  unfold next_ready, Collection.select. cbn [Collection.limit Collection.order_by].
  rewrite first_limit_one. unfold Collection.apply_order, Collection.first.
  destruct (Collection.sort_by_start _) as [| j rest] eqn:E; simpl; intros H;
    inversion H.
  apply sort_by_start_nil in E. intros r Hr Hready.
  assert (Hin : In r (filter (Collection.matches
                           {| Collection.scheduled_start_timestamp__lte := now;
                              Collection.handling := false;
                              Collection.limit := Some 1%nat;
                              Collection.order_by :=
                                [Collection.plus_scheduled_start_timestamp] |})
                           (Collection.docs c)))
    by (apply filter_In; split; auto; apply matches_ready; exact Hready).
  rewrite E in Hin. destruct Hin.
Qed.

(** ** The claim *)

(** Every run of [_get_next_execution]: the query is evaluated against the
    collection after the first suspension point with the time read at the
    start, the compare-and-swap against the collection after the second. *)
Lemma get_next_execution_run w :
  match result _get_next_execution w with
  | Return (Some j) =>
      exists i c',
        next_ready (clock w) (queue (idle 1 w)) = Some i
        /\ j = Collection.advance (claim_of i)
        /\ Collection.cas (claim_of i) (queue (idle 2 w)) = Some (j, c')
        /\ events_of _get_next_execution w = [QueueWritten j]
        /\ after _get_next_execution w
           = record (QueueWritten j) (with_queue c' (idle 2 w))
  | Return None =>
      (next_ready (clock w) (queue (idle 1 w)) = None
       /\ events_of _get_next_execution w = []
       /\ after _get_next_execution w = idle 1 w)
      \/ (exists i,
            next_ready (clock w) (queue (idle 1 w)) = Some i
            /\ Collection.cas (claim_of i) (queue (idle 2 w)) = None
            /\ events_of _get_next_execution w = [conflict_line i]
            /\ after _get_next_execution w = record (conflict_line i) (idle 2 w))
  | Raise e =>
      e = TransientError
      /\ events_of _get_next_execution w = []
      /\ (after _get_next_execution w = idle 1 w
          \/ after _get_next_execution w = idle 2 w)
  end.
Proof.
  start_run _get_next_execution w.
  unfold _get_next_execution in E. unfold conflict_line, claim_of.
  cbn [idle].
  invert_run;
    repeat match goal with
           | H : Collection.first _ = _ |- _ => fold (next_ready (clock w) (queue (await w))) in H
           end;
    trace_norm.
  - exists t, x. auto.
  - right. exists t. auto.
  - auto.
  - left. auto.
  - auto.
Qed.

Lemma find_replaced (j : QueueItemDB.t) ds :
  find (Collection.same_id j) ds <> None ->
  find (Collection.same_id j)
       (map (fun r => if Collection.same_id j r then j else r) ds) = Some j.
Proof.
  assert (Hself : Collection.same_id j j = true)
    by (unfold Collection.same_id; apply Nat.eqb_refl).
  induction ds as [| d ds IH]; cbn [find map]; intros H.
  - congruence.
  - destruct (Collection.same_id j d) eqn:Hd.
    + rewrite Hself. reflexivity.
    + rewrite Hd. auto.
Qed.

Lemma cas_current i c j c' :
  Collection.cas i c = Some (j, c') -> Collection.current j c' = Some j.
Proof.
  unfold Collection.cas. destruct (Collection.current i c) as [r |] eqn:E; [| discriminate].
  destruct (Nat.eqb _ _); [| discriminate]. intros H. inversion H; subst. clear H.
  unfold Collection.current, Collection.put in *. cbn [Collection.docs].
  apply find_replaced.
  change (Collection.same_id (Collection.advance i)) with (Collection.same_id i).
  congruence.
Qed.

Lemma spawned_app a b : spawned (a ++ b) = spawned a ++ spawned b.
Proof.
  induction a as [| e a IH]; simpl; auto. destruct e; simpl; rewrite ?IH; auto.
Qed.

Lemma written_app a b : written (a ++ b) = written a ++ written b.
Proof.
  induction a as [| e a IH]; simpl; auto. destruct e; simpl; rewrite ?IH; auto.
Qed.

Lemma run_unfold fuel :
  run fuel = (LOG.debug Entering_scheduler_loop [] ;; while_not_shutdown fuel run_body).
Proof. reflexivity. Qed.

Lemma run_body_cases w r w' :
  run_body w = (r, w') ->
  let w1 := await (tick sleep_interval w) in
  (w' = idle 1 w1 /\ (r = Raise TransientError
                      \/ (r = Return tt /\ next_ready (clock w1) (queue (idle 1 w1)) = None)))
  \/ (w' = idle 2 w1 /\ r = Raise TransientError)
  \/ (exists i,
        next_ready (clock w1) (queue (idle 1 w1)) = Some i
        /\ Collection.cas (claim_of i) (queue (idle 2 w1)) = None
        /\ w' = record (conflict_line i) (idle 2 w1) /\ r = Return tt)
  \/ (exists i c',
        next_ready (clock w1) (queue (idle 1 w1)) = Some i
        /\ Collection.cas (claim_of i) (queue (idle 2 w1))
           = Some (Collection.advance (claim_of i), c')
        /\ w' = record (Spawned (Collection.advance (claim_of i)))
                  (record (QueueWritten (Collection.advance (claim_of i)))
                     (with_queue c' (idle 2 w1)))
        /\ r = Return tt).
Proof.
  intros E. unfold run_body, _get_next_execution in E.
  unfold conflict_line, claim_of. cbn [idle].
  invert_run;
    repeat match goal with
           | H : Collection.first _ = _ |- _ =>
               fold (next_ready (clock (await (tick sleep_interval w)))
                                (queue (await (await (tick sleep_interval w))))) in H
           end.
  - right; right; right. eauto 10.
  - right; right; left. eauto 10.
  - auto.
  - auto.
  - auto.
Qed.

(** *** Loops *)

Lemma while_not_shutdown_inv (I : World -> Prop) (P : list Event -> Prop) body :
  P [] ->
  (forall a b, P a -> P b -> P (a ++ b)) ->
  (forall w r w', I w -> body w = (r, w') ->
                  I w' /\ exists evs, trace w' = trace w ++ evs /\ P evs) ->
  forall fuel w r w',
    I w -> while_not_shutdown fuel body w = (r, w') ->
    I w' /\ exists evs, trace w' = trace w ++ evs /\ P evs.
Proof.
  intros Hnil Happ Hbody. induction fuel as [| n IH]; intros w r w' HI E.
  - inversion E; subst. split; auto. exists []. rewrite app_nil_r. auto.
  - cbn [while_not_shutdown] in E. destruct (_shutdown w).
    + inversion E; subst. split; auto. exists []. rewrite app_nil_r. auto.
    + apply bind_inv in E. destruct E as [(a & w1 & E1 & E2) | (e & E1 & ->)].
      * destruct (Hbody _ _ _ HI E1) as (HI1 & evs1 & Ht1 & HP1).
        destruct (IH _ _ _ HI1 E2) as (HI2 & evs2 & Ht2 & HP2).
        split; auto. exists (evs1 ++ evs2). rewrite Ht2, Ht1, app_assoc. auto.
      * apply (Hbody _ _ _ HI E1).
Qed.

(** *** Identifiers that are gone *)

Lemma absent_cas n i c j c' :
  Collection.cas i c = Some (j, c') -> absent n c -> absent n c'.
Proof.
  unfold Collection.cas. destruct (Collection.current i c) as [d |] eqn:E; [| discriminate].
  destruct (Nat.eqb _ _); [| discriminate]. intros H [Hlt Hall]. inversion H; subst.
  split; [exact Hlt |]. cbn [Collection.put Collection.docs].
  intros r Hr. apply in_map_iff in Hr. destruct Hr as (x & Hx & Hin).
  destruct (Collection.same_id (Collection.advance i) x) eqn:Hs.
  - subst r. unfold Collection.same_id in Hs. apply Nat.eqb_eq in Hs.
    rewrite <- Hs. auto.
  - subst r. auto.
Qed.

Lemma absent_apply_op n c o : absent n c -> absent n (apply_op c o).
Proof.
  intros Ha. destruct o as [i | i | i]; cbn [apply_op].
  - destruct Ha as [Hlt Hall]. split; cbn [Collection.insert Collection.next_id Collection.docs].
    + lia.
    + intros r Hr. apply in_app_or in Hr. destruct Hr as [Hr | [Hr | []]]; auto.
      subst r. cbn. lia.
  - destruct (Collection.cas i c) as [[j c'] |] eqn:E; auto.
    eapply absent_cas; eauto.
  - destruct Ha as [Hlt Hall]. split; auto.
    cbn [Collection.remove Collection.docs]. intros r Hr.
    apply filter_In in Hr. destruct Hr. auto.
Qed.

Lemma absent_fleet n ops c : absent n c -> absent n (fold_left apply_op ops c).
Proof.
  revert c. induction ops as [| o ops IH]; intros c Ha; cbn [fold_left]; auto.
  apply IH, absent_apply_op, Ha.
Qed.

Lemma absent_await n w : absent n (queue w) -> absent n (queue (await w)).
Proof.
  unfold await. destruct (env w) as [| e rest]; auto.
  cbn [queue]. apply absent_fleet.
Qed.

Lemma absent_next_ready n now c i :
  absent n c -> next_ready now c = Some i -> QueueItemDB.id i <> n.
Proof.
  intros [_ Hall] H. apply next_ready_some in H. destruct H as [Hin _]. auto.
Qed.

Lemma run_body_absent n w r w' :
  absent n (queue w) -> run_body w = (r, w') ->
  absent n (queue w')
  /\ exists evs, trace w' = trace w ++ evs
                 /\ Forall (fun j => QueueItemDB.id j <> n) (spawned evs).
Proof.
  intros Ha E. apply run_body_cases in E. cbn [idle] in E.
  assert (Ha1 : absent n (queue (await (tick sleep_interval w))))
    by (apply absent_await; exact Ha).
  assert (Ha2 := absent_await _ Ha1). assert (Ha3 := absent_await _ Ha2).
  destruct E as [[-> _] | [[-> _] | [(i & Hi & Hc & -> & _) | (i & c' & Hi & Hc & -> & _)]]].
  - split; auto. exists []. trace_norm. rewrite app_nil_r. auto.
  - split; auto. exists []. trace_norm. rewrite app_nil_r. auto.
  - split; auto. eexists. trace_norm. split; [reflexivity |]. constructor.
  - split.
    + cbn [queue record with_queue]. eapply absent_cas; eauto.
    + eexists. trace_norm. split; [reflexivity |]. cbn [spawned].
      constructor; [| constructor].
      change (QueueItemDB.id i <> n).
      eapply absent_next_ready; [exact Ha2 | exact Hi].
Qed.

Lemma run_absent n fuel w r w' :
  absent n (queue w) -> run fuel w = (r, w') ->
  exists evs, trace w' = trace w ++ evs
              /\ Forall (fun j => QueueItemDB.id j <> n) (spawned evs).
Proof.
  intros Ha E. rewrite run_unfold in E.
  apply bind_inv in E. destruct E as [(a & w1 & E1 & E2) | (e & E1 & ->)];
    apply emit_inv in E1; destruct E1 as [E1 ->]; [| discriminate].
  pose (I := fun w0 : World => absent n (queue w0)).
  pose (P := fun evs => Forall (fun j => QueueItemDB.id j <> n) (spawned evs)).
  assert (Hnil : P []) by constructor.
  assert (Happ : forall a0 b, P a0 -> P b -> P (a0 ++ b)).
  { unfold P. intros a0 b Ha0 Hb. rewrite spawned_app. apply Forall_app. auto. }
  assert (Hbody : forall w0 r0 w0', I w0 -> run_body w0 = (r0, w0') ->
                    I w0' /\ exists evs, trace w0' = trace w0 ++ evs /\ P evs).
  { intros w0 r0 w0' H0 E0. eapply run_body_absent; eauto. }
  destruct (@while_not_shutdown_inv I P run_body Hnil Happ Hbody fuel
              (record (Logged DEBUG Entering_scheduler_loop []) w) _ _ Ha E2)
    as (_ & evs & Ht & HP).
  eexists. rewrite Ht. trace_norm. split; [reflexivity |]. exact HP.
Qed.

Lemma events_of_intro (A : Type) (m : M A) w r w' evs :
  m w = (r, w') -> trace w' = trace w ++ evs -> events_of m w = evs.
Proof.
  intros E Ht. unfold events_of, after. rewrite E. cbn [snd].
  rewrite Ht. apply skipn_length_app.
Qed.

Lemma next_id_cas i c j c' :
  Collection.cas i c = Some (j, c') -> Collection.next_id c' = Collection.next_id c.
Proof.
  unfold Collection.cas. destruct (Collection.current i c); [| discriminate].
  destruct (Nat.eqb _ _); [| discriminate]. intros H. inversion H. reflexivity.
Qed.

Lemma next_id_apply_op c o :
  (Collection.next_id c <= Collection.next_id (apply_op c o))%nat.
Proof.
  destruct o as [i | i | i]; cbn [apply_op].
  - cbn. lia.
  - destruct (Collection.cas i c) as [[j c'] |] eqn:E; [| lia].
    apply next_id_cas in E. lia.
  - cbn. lia.
Qed.

Lemma next_id_fleet ops c :
  (Collection.next_id c <= Collection.next_id (fold_left apply_op ops c))%nat.
Proof.
  revert c. induction ops as [| o ops IH]; intros c; cbn [fold_left]; [lia |].
  specialize (IH (apply_op c o)). pose proof (next_id_apply_op c o). lia.
Qed.

Lemma next_id_await w :
  (Collection.next_id (queue w) <= Collection.next_id (queue (await w)))%nat.
Proof.
  unfold await. destruct (env w) as [| e rest]; [lia |]. cbn [queue].
  apply next_id_fleet.
Qed.

Lemma absent_remove i c :
  (QueueItemDB.id i < Collection.next_id c)%nat ->
  absent (QueueItemDB.id i) (Collection.remove i c).
Proof.
  intros Hlt. split; [exact Hlt |].
  cbn [Collection.remove Collection.docs]. intros r Hr.
  apply filter_In in Hr. destruct Hr as [_ Hr].
  unfold Collection.same_id in Hr. apply negb_true_iff, Nat.eqb_neq in Hr. exact Hr.
Qed.

Lemma never_spawned_again n fuel w :
  absent n (queue w) ->
  forall j, In j (spawned (events_of (run fuel) w)) -> QueueItemDB.id j <> n.
Proof.
  intros Ha j Hj. destruct (run fuel w) as [r w'] eqn:E.
  destruct (@run_absent n fuel w r w' Ha E) as (evs & Ht & Hall).
  rewrite (@events_of_intro _ (run fuel) w r w' evs E Ht) in Hj.
  rewrite Forall_forall in Hall. auto.
Qed.

Lemma not_found_leaves_absent i w :
  (QueueItemDB.id i < Collection.next_id (queue w))%nat ->
  result (_handle_execution i) w = Raise StackStormDBObjectNotFoundError ->
  absent (QueueItemDB.id i) (queue (after (_handle_execution i) w)).
Proof.
  intros Hissued.
  start_run (_handle_execution i) w.
  unfold_worker E.
  invert_run; intros Hr; try discriminate Hr.
  cbn [queue record with_queue]. apply absent_remove.
  eapply Nat.lt_le_trans; [exact Hissued |].
  etransitivity; [| apply next_id_await].
  etransitivity; [| apply next_id_await].
  cbn. lia.
Qed.

(** C4: when the live action of a dispatched item is not found, the worker
    deletes the queue item, publishes nothing and raises the not-found
    error to its caller; whatever the fleet does afterwards, the claim loop
    never hands the deleted item to a worker again.  The only other outcome
    is a store fault met in the lookup or in the delete, which leaves the
    queue alone. *)
Theorem C4_missing_liveaction (i : QueueItemDB.t) (w : World) :
  lookup (QueueItemDB.liveaction_id i) (liveactions w) = None ->
  (QueueItemDB.id i < Collection.next_id (queue w))%nat ->
  match result (_handle_execution i) w with
  | Raise StackStormDBObjectNotFoundError =>
      effects (events_of (_handle_execution i) w) = [QueueDeleted i]
      /\ Collection.current i (queue (after (_handle_execution i) w)) = None
      /\ forall fuel j,
           In j (spawned (events_of (run fuel) (after (_handle_execution i) w))) ->
           QueueItemDB.id j <> QueueItemDB.id i
  | Raise TransientError =>
      effects (events_of (_handle_execution i) w) = []
      /\ fault_within 2 w = true
  | _ => False
  end.
Proof.
  intros Hmissing Hissued.
  pose proof (@not_found_leaves_absent i w Hissued) as Habsent.
  assert (Hnever : result (_handle_execution i) w = Raise StackStormDBObjectNotFoundError ->
                   forall fuel j,
                     In j (spawned (events_of (run fuel) (after (_handle_execution i) w))) ->
                     QueueItemDB.id j <> QueueItemDB.id i).
  { intros Hr fuel j. apply never_spawned_again. auto. }
  clear Habsent.
  assert (Hnone : find (fun l => Nat.eqb (LiveActionDB.id l) (QueueItemDB.liveaction_id i))
                       (liveactions w) = None).
  { unfold lookup in Hmissing. destruct (find _ _); [discriminate Hmissing | reflexivity]. }
  clear Hmissing.
  destruct (result (_handle_execution i) w) as [[] | []] eqn:Hres.
  - revert Hres. start_run (_handle_execution i) w. unfold_worker E.
    invert_run; stores_norm; congruence.
  - revert Hres. start_run (_handle_execution i) w. unfold_worker E.
    invert_run; stores_norm; congruence.
  - split; [| split; [| exact (Hnever eq_refl)]].
    + revert Hres. clear Hnever. start_run (_handle_execution i) w. unfold_worker E.
      invert_run; stores_norm; try congruence;
        trace_norm; reflexivity.
    + revert Hres. clear Hnever. start_run (_handle_execution i) w. unfold_worker E.
      invert_run; stores_norm; try congruence;
        intros _; apply current_remove.
  - revert Hres. clear Hnever. start_run (_handle_execution i) w. unfold_worker E.
    invert_faults; stores_norm; try congruence;
      intros _; (split; [trace_norm; reflexivity | fault_found]).
Qed.

(** *** Claims and spawns *)

Lemma claimed_spawns_app a b :
  claimed_spawns a -> claimed_spawns b -> claimed_spawns (a ++ b).
Proof.
  unfold claimed_spawns. intros [Ha1 Ha2] [Hb1 Hb2].
  rewrite spawned_app, written_app, Ha1, Hb1. split; auto.
  apply Forall_app. auto.
Qed.

Lemma run_body_claims w r w' :
  run_body w = (r, w') ->
  exists evs, trace w' = trace w ++ evs /\ claimed_spawns evs.
Proof.
  intros E. apply run_body_cases in E. cbn [idle] in E.
  destruct E as [[-> _] | [[-> _] | [(i & Hi & Hc & -> & _) | (i & c' & Hi & Hc & -> & _)]]].
  - exists []. trace_norm. rewrite app_nil_r. repeat constructor.
  - exists []. trace_norm. rewrite app_nil_r. repeat constructor.
  - eexists. trace_norm. split; [reflexivity |]. repeat constructor.
  - eexists. trace_norm. split; [reflexivity |]. repeat constructor.
Qed.

Lemma run_claims fuel w r w' :
  run fuel w = (r, w') ->
  exists evs, trace w' = trace w ++ evs /\ claimed_spawns evs.
Proof.
  intros E. rewrite run_unfold in E.
  apply bind_inv in E. destruct E as [(a & w1 & E1 & E2) | (e & E1 & ->)];
    apply emit_inv in E1; destruct E1 as [E1 ->]; [| discriminate].
  assert (Hnil : claimed_spawns []) by repeat constructor.
  assert (Hbody : forall w0 r0 w0', True -> run_body w0 = (r0, w0') ->
                    True /\ exists evs, trace w0' = trace w0 ++ evs /\ claimed_spawns evs).
  { intros w0 r0 w0' _ E0. split; auto. eapply run_body_claims; eauto. }
  destruct (@while_not_shutdown_inv (fun _ => True) claimed_spawns run_body
              Hnil claimed_spawns_app Hbody fuel
              (record (Logged DEBUG Entering_scheduler_loop []) w) _ _ Logic.I E2)
    as (_ & evs & Ht & HP).
  eexists. rewrite Ht. trace_norm. split; [reflexivity |].
  apply (@claimed_spawns_app [_] evs); auto.
Qed.

(** C9: an item returned by [_get_next_execution] has been claimed: the
    compare-and-swap took effect and the document stored under its
    identifier is the returned item, with [handling] set.  Hence, in the
    claim loop, the workers spawned are exactly the items whose claim was
    written, in the same order, and all of these carry [handling]. *)
Theorem C9_dispatched_items_are_claimed (fuel : nat) (w : World) :
  match result _get_next_execution w with
  | Return (Some j) =>
      QueueItemDB.handling j = true
      /\ events_of _get_next_execution w = [QueueWritten j]
      /\ Collection.current j (queue (after _get_next_execution w)) = Some j
  | _ => True
  end
  /\ spawned (events_of (run fuel) w) = written (events_of (run fuel) w)
  /\ Forall (fun j => QueueItemDB.handling j = true) (written (events_of (run fuel) w)).
Proof.
  split.
  - pose proof (get_next_execution_run w) as H.
    destruct (result _get_next_execution w) as [[j |] | e]; auto.
    destruct H as (i & c' & _ & -> & Hcas & -> & ->).
    split; [reflexivity | split; [reflexivity |]].
    cbn [queue record with_queue]. eapply cas_current. exact Hcas.
  - destruct (run fuel w) as [r w'] eqn:E.
    destruct (run_claims _ _ E) as (evs & Ht & HP).
    rewrite (@events_of_intro _ (run fuel) w r w' evs E Ht). exact HP.
Qed.

(** *** One winner per revision *)

Lemma current_In i c r :
  Collection.current i c = Some r ->
  In r (Collection.docs c) /\ QueueItemDB.id r = QueueItemDB.id i.
Proof.
  unfold Collection.current. intros H. apply find_some in H.
  destruct H as [Hin Hs]. unfold Collection.same_id in Hs.
  apply Nat.eqb_eq in Hs. auto.
Qed.

Lemma wf_apply_op c o : Collection.wf c -> Collection.wf (apply_op c o).
Proof.
  unfold Collection.wf. intros Hwf. destruct o as [i | i | i]; cbn [apply_op].
  - cbn [Collection.insert Collection.docs Collection.next_id].
    apply Forall_app. split.
    + eapply Forall_impl; [| exact Hwf]. cbn. intros; lia.
    + constructor; [cbn; lia | constructor].
  - destruct (Collection.cas i c) as [[j c'] |] eqn:E; auto.
    pose proof (next_id_cas _ _ E) as Hn.
    unfold Collection.cas in E.
    destruct (Collection.current i c) as [d |] eqn:Ed; [| discriminate].
    destruct (Nat.eqb _ _); [| discriminate]. inversion E; subst.
    cbn [Collection.put Collection.docs Collection.next_id].
    apply current_In in Ed. destruct Ed as [Hd Hid].
    rewrite Forall_forall in *. intros r Hr.
    apply in_map_iff in Hr. destruct Hr as (x & Hx & Hin).
    destruct (Collection.same_id (Collection.advance i) x); subst r; auto.
    cbn. rewrite <- Hid. auto.
  - cbn [Collection.remove Collection.docs Collection.next_id].
    rewrite Forall_forall in *. intros r Hr. apply filter_In in Hr. destruct Hr; auto.
Qed.

Lemma wf_fleet ops c : Collection.wf c -> Collection.wf (fold_left apply_op ops c).
Proof.
  revert c. induction ops as [| o ops IH]; intros c H; cbn [fold_left]; auto.
  apply IH, wf_apply_op, H.
Qed.

Lemma wf_await w : Collection.wf (queue w) -> Collection.wf (queue (await w)).
Proof.
  unfold await. destruct (env w) as [| e rest]; auto. cbn [queue]. apply wf_fleet.
Qed.

Lemma newer_after_cas i c j c' :
  Collection.wf c -> Collection.cas i c = Some (j, c') ->
  newer (QueueItemDB.id i) (QueueItemDB.rev i) c'.
Proof.
  intros Hwf E. unfold Collection.cas in E.
  destruct (Collection.current i c) as [d |] eqn:Ed; [| discriminate].
  destruct (Nat.eqb _ _); [| discriminate]. inversion E; subst. clear E.
  apply current_In in Ed. destruct Ed as [Hd Hid].
  unfold Collection.wf in Hwf. rewrite Forall_forall in Hwf.
  split; cbn [Collection.put Collection.docs Collection.next_id].
  - rewrite <- Hid. auto.
  - intros r Hr Hrid. apply in_map_iff in Hr. destruct Hr as (x & Hx & Hin).
    destruct (Collection.same_id (Collection.advance i) x) eqn:Hs.
    + subst r. cbn. lia.
    + subst r. unfold Collection.same_id in Hs. apply Nat.eqb_neq in Hs.
      cbn in Hs. congruence.
Qed.

Lemma newer_apply_op n v c o : newer n v c -> newer n v (apply_op c o).
Proof.
  intros [Hlt Hall]. destruct o as [i | i | i]; cbn [apply_op].
  - split; cbn [Collection.insert Collection.docs Collection.next_id]; [lia |].
    intros r Hr Hid. apply in_app_or in Hr. destruct Hr as [Hr | [Hr | []]]; auto.
    subst r. cbn in Hid. lia.
  - destruct (Collection.cas i c) as [[j c'] |] eqn:E; [| split; auto].
    unfold Collection.cas in E.
    destruct (Collection.current i c) as [d |] eqn:Ed; [| discriminate].
    destruct (Nat.eqb (QueueItemDB.rev d) (QueueItemDB.rev i)) eqn:Hrev; [| discriminate].
    inversion E; subst. clear E.
    apply current_In in Ed. destruct Ed as [Hd Hid]. apply Nat.eqb_eq in Hrev.
    split; cbn [Collection.put Collection.docs Collection.next_id]; auto.
    intros r Hr Hrid. apply in_map_iff in Hr. destruct Hr as (x & Hx & Hin).
    destruct (Collection.same_id (Collection.advance i) x) eqn:Hs; subst r; auto.
    cbn in Hrid. cbn. specialize (Hall d Hd). rewrite Hid, Hrid in Hall.
    specialize (Hall eq_refl). lia.
  - split; cbn [Collection.remove Collection.docs Collection.next_id]; auto.
    intros r Hr. apply filter_In in Hr. destruct Hr; auto.
Qed.

Lemma newer_fleet n v ops c : newer n v c -> newer n v (fold_left apply_op ops c).
Proof.
  revert c. induction ops as [| o ops IH]; intros c H; cbn [fold_left]; auto.
  apply IH, newer_apply_op, H.
Qed.

Lemma newer_cas_conflict n v c k :
  newer n v c -> QueueItemDB.id k = n -> QueueItemDB.rev k = v ->
  Collection.cas k c = None.
Proof.
  intros [_ Hall] Hid Hrev. unfold Collection.cas.
  destruct (Collection.current k c) as [d |] eqn:Ed; auto.
  apply current_In in Ed. destruct Ed as [Hd Hdid].
  assert (v < QueueItemDB.rev d)%nat by (apply Hall; congruence).
  destruct (Nat.eqb (QueueItemDB.rev d) (QueueItemDB.rev k)) eqn:E; auto.
  apply Nat.eqb_eq in E. lia.
Qed.

Lemma same_stores_refl w : same_stores w w.
Proof. unfold same_stores. auto 6. Qed.

Lemma run_body_spawns w :
  spawned (events_of run_body w) = written (events_of run_body w).
Proof.
  destruct (run_body w) as [r w'] eqn:E.
  destruct (run_body_claims _ E) as (evs & Ht & HP & _).
  rewrite (@events_of_intro _ run_body w r w' evs E Ht). exact HP.
Qed.

(** C3: a claim attempt flips [handling] by compare-and-swap.  Either the
    write goes through and the item is returned (the loop then spawns the
    worker), and from then on every write that still carries the revision
    the claimant read is refused, whatever the fleet does; or nothing is
    returned and nothing is spawned, and the stores are those the
    environment left: on a write conflict the only effect is the log
    line. *)
Theorem C3_claim_or_conflict (w : World) :
  Collection.wf (queue w) ->
  match result _get_next_execution w with
  | Return (Some j) =>
      exists i c',
        next_ready (clock w) (queue (idle 1 w)) = Some i
        /\ j = Collection.advance (claim_of i)
        /\ Collection.cas (claim_of i) (queue (idle 2 w)) = Some (j, c')
        /\ queue (after _get_next_execution w) = c'
        /\ forall ops k,
             QueueItemDB.id k = QueueItemDB.id i ->
             QueueItemDB.rev k = QueueItemDB.rev i ->
             Collection.cas k (fold_left apply_op ops c') = None
  | Return None =>
      written (events_of _get_next_execution w) = []
      /\ ((next_ready (clock w) (queue (idle 1 w)) = None
           /\ same_stores (after _get_next_execution w) (idle 1 w))
          \/ exists i,
               next_ready (clock w) (queue (idle 1 w)) = Some i
               /\ Collection.cas (claim_of i) (queue (idle 2 w)) = None
               /\ events_of _get_next_execution w = [conflict_line i]
               /\ same_stores (after _get_next_execution w) (idle 2 w))
  | Raise e =>
      e = TransientError
      /\ events_of _get_next_execution w = []
      /\ (same_stores (after _get_next_execution w) (idle 1 w)
          \/ same_stores (after _get_next_execution w) (idle 2 w))
  end
  /\ spawned (events_of run_body w) = written (events_of run_body w).
Proof.
  intros Hwf. split; [| apply run_body_spawns].
  pose proof (get_next_execution_run w) as H.
  destruct (result _get_next_execution w) as [[j |] | e].
  - destruct H as (i & c' & Hq & -> & Hcas & Hev & ->).
    exists i, c'. repeat split; auto.
    intros ops k Hid Hrev.
    apply (@newer_cas_conflict (QueueItemDB.id i) (QueueItemDB.rev i)); auto.
    apply newer_fleet.
    change (newer (QueueItemDB.id (claim_of i)) (QueueItemDB.rev (claim_of i)) c').
    eapply newer_after_cas; [| exact Hcas].
    cbn [idle]. apply wf_await, wf_await, Hwf.
  - destruct H as [(Hq & -> & ->) | (i & Hq & Hcas & -> & ->)].
    + split; [reflexivity |]. left. split; auto. apply same_stores_refl.
    + split; [reflexivity |]. right. exists i. repeat split; auto.
  - destruct H as (-> & -> & [-> | ->]); repeat split; auto using same_stores_refl.
Qed.

Lemma get_next_execution_raises w e :
  result _get_next_execution w = Raise e ->
  e = TransientError /\ fault_within 2 w = true.
Proof.
  start_run _get_next_execution w.
  unfold _get_next_execution in E.
  invert_faults; intros Hr; inversion Hr; subst;
    (split; [reflexivity | fault_found]).
Qed.

(** C5: the query of the claim loop returns a document of the collection
    that is not being handled and whose start time has come, with the
    smallest start time among all such documents; it returns nothing only
    if there is no such document.  So does [_get_next_execution], which
    reads the time and runs this query on the collection as its first
    suspension point left it: the item it returns is the claim of the
    earliest ready document; it returns [None] only when no document is
    ready, or when the store refused the claim of the earliest ready one,
    which is logged; it fails only on a store fault met in the query or in
    the write. *)
Theorem C5_next_item_is_earliest_ready (now : Z) (c : Collection.t) :
  match
    Collection.first
      (Collection.select
         {| Collection.scheduled_start_timestamp__lte := now;
            Collection.handling := false;
            Collection.limit := Some 1%nat;
            Collection.order_by := [Collection.plus_scheduled_start_timestamp] |}
         c)
  with
  | Some i =>
      In i (Collection.docs c)
      /\ QueueItemDB.handling i = false
      /\ QueueItemDB.scheduled_start_timestamp i <= now
      /\ forall r,
           In r (Collection.docs c) ->
           QueueItemDB.handling r = false ->
           QueueItemDB.scheduled_start_timestamp r <= now ->
           QueueItemDB.scheduled_start_timestamp i
           <= QueueItemDB.scheduled_start_timestamp r
  | None =>
      forall r,
        In r (Collection.docs c) ->
        ~ (QueueItemDB.handling r = false
           /\ QueueItemDB.scheduled_start_timestamp r <= now)
  end
  /\ forall w,
       match result _get_next_execution w with
       | Return (Some j) =>
           exists i,
             Collection.first
               (Collection.select
                  {| Collection.scheduled_start_timestamp__lte := clock w;
                     Collection.handling := false;
                     Collection.limit := Some 1%nat;
                     Collection.order_by := [Collection.plus_scheduled_start_timestamp] |}
                  (queue (await w))) = Some i
             /\ j = Collection.advance (QueueItemDB.set_handling true i)
             /\ In i (Collection.docs (queue (idle 1 w)))
             /\ QueueItemDB.handling i = false
             /\ QueueItemDB.scheduled_start_timestamp i <= clock w
             /\ forall r,
                  In r (Collection.docs (queue (idle 1 w))) ->
                  QueueItemDB.handling r = false ->
                  QueueItemDB.scheduled_start_timestamp r <= clock w ->
                  QueueItemDB.scheduled_start_timestamp i
                  <= QueueItemDB.scheduled_start_timestamp r
       | Return None =>
           (events_of _get_next_execution w = []
            /\ forall r,
                 In r (Collection.docs (queue (idle 1 w))) ->
                 ~ (QueueItemDB.handling r = false
                    /\ QueueItemDB.scheduled_start_timestamp r <= clock w))
           \/ exists i,
                In i (Collection.docs (queue (idle 1 w)))
                /\ QueueItemDB.handling i = false
                /\ QueueItemDB.scheduled_start_timestamp i <= clock w
                /\ (forall r,
                      In r (Collection.docs (queue (idle 1 w))) ->
                      QueueItemDB.handling r = false ->
                      QueueItemDB.scheduled_start_timestamp r <= clock w ->
                      QueueItemDB.scheduled_start_timestamp i
                      <= QueueItemDB.scheduled_start_timestamp r)
                /\ Collection.cas (QueueItemDB.set_handling true i) (queue (idle 2 w)) = None
                /\ events_of _get_next_execution w = [conflict_line i]
       | Raise e => e = TransientError /\ fault_within 2 w = true
       end.
Proof.
  split.
  - fold (next_ready now c). destruct (next_ready now c) as [i |] eqn:E.
    + apply next_ready_some in E. destruct E as (Hin & [Hh Hs] & Hmin).
      repeat split; auto. intros r Hr Hrh Hrs. apply Hmin; auto. split; auto.
    + apply next_ready_none. exact E.
  - intros w. pose proof (get_next_execution_run w) as H.
    pose proof (@get_next_execution_raises w) as Hf.
    destruct (result _get_next_execution w) as [[j |] | e].
    + destruct H as (i & c' & Hq & -> & _). exists i.
      split; [exact Hq | split; [reflexivity |]].
      apply next_ready_some in Hq. destruct Hq as (Hin & [Hh Hs] & Hmin).
      repeat split; auto. intros r Hr Hrh Hrs. apply Hmin; auto. split; auto.
    + destruct H as [(Hq & Hev & _) | (i & Hq & Hcas & Hev & _)].
      * left. split; [exact Hev |]. apply next_ready_none. exact Hq.
      * right. exists i.
        apply next_ready_some in Hq. destruct Hq as (Hin & [Hh Hs] & Hmin).
        repeat split; auto. intros r Hr Hrh Hrs. apply Hmin; auto. split; auto.
    + apply Hf. reflexivity.
Qed.

(** ** The policy-delay branch *)

Lemma clock_record e w : clock (record e w) = clock w.
Proof. reflexivity. Qed.




(** ** Garbage collection *)

Lemma handle_garbage_collection_unfold :
  _handle_garbage_collection
  = (now <- date.get_datetime_utc_now ;;
     execution_queue_item_dbs <- ActionExecutionSchedulingQueue.query (stuck_query now) ;;
     for_each execution_queue_item_dbs gc_body).
Proof. reflexivity. Qed.

Lemma gc_handled_app a b : gc_handled (a ++ b) = gc_handled a ++ gc_handled b.
Proof.
  induction a as [| e a IH]; [reflexivity |].
  cbn [app gc_handled].
  destruct e as [? | ? | ? ? | ? | ? | lvl msg args]; auto.
  destruct lvl; auto; destruct msg; auto;
    destruct args as [| [n | s] [| ? ?]]; auto; cbn [app]; rewrite IH; auto.
Qed.

Lemma gc_body_run x w r w' :
  gc_body x w = (r, w') ->
  exists evs,
    trace w' = trace w ++ evs
    /\ ((r = Raise TransientError /\ evs = [])
        \/ (r = Return tt
            /\ Collection.cas (QueueItemDB.set_handling false x) (queue (await w)) = None
            /\ gc_handled evs = [(QueueItemDB.id x, false)]
            /\ written evs = [])
        \/ (r = Return tt
            /\ gc_handled evs = [(QueueItemDB.id x, true)]
            /\ written evs = [Collection.advance (QueueItemDB.set_handling false x)])).
Proof.
  intros E. unfold gc_body in E.
  invert_run;
    first [ solve [exists []; trace_norm; rewrite app_nil_r;
                   split; [reflexivity | auto 10]]
          | solve [eexists; trace_norm; split; [reflexivity | auto 10]] ].
Qed.

(** A write conflict on one item does not end the loop: short of a store
    fault, every item gets its turn, in order, and is either written back
    or logged as updated meanwhile. *)
Lemma gc_loop_run xs :
  forall w r w',
    for_each xs gc_body w = (r, w') ->
    exists evs,
      trace w' = trace w ++ evs
      /\ match r with
         | Return _ => map fst (gc_handled evs) = map QueueItemDB.id xs
         | Raise e =>
             e = TransientError
             /\ exists k, map fst (gc_handled evs) = firstn k (map QueueItemDB.id xs)
         end.
Proof.
  induction xs as [| x xs IH]; intros w r w' E.
  - inversion E; subst. exists []. rewrite app_nil_r. auto.
  - cbn [for_each] in E. apply bind_inv in E.
    destruct E as [(a & w1 & E1 & E2) | (e & E1 & ->)].
    + apply gc_body_run in E1. destruct E1 as (evs1 & Ht1 & H1).
      destruct (IH _ _ _ E2) as (evs2 & Ht2 & H2).
      exists (evs1 ++ evs2). rewrite Ht2, Ht1, app_assoc. split; [reflexivity |].
      rewrite gc_handled_app, map_app.
      assert (Hx : map fst (gc_handled evs1) = [QueueItemDB.id x]).
      { destruct H1 as [[H1 _] | [(_ & _ & -> & _) | (_ & -> & _)]];
          [discriminate | reflexivity | reflexivity]. }
      rewrite Hx. destruct r as [u | e].
      * cbn [map app]. rewrite H2. reflexivity.
      * destruct H2 as (-> & k & Hk). split; [reflexivity |].
        exists (S k). cbn [map app firstn]. rewrite Hk. reflexivity.
    + apply gc_body_run in E1. destruct E1 as (evs1 & Ht1 & H1).
      exists evs1. split; [exact Ht1 |].
      destruct H1 as [[H1 ->] | [(H1 & _) | (H1 & _)]]; try discriminate.
      inversion H1; subst. split; [reflexivity |]. exists 0%nat. reflexivity.
Qed.

(** *** A tick that nobody interferes with *)

Lemma await_quiet w : env w = [] -> await w = w.
Proof. unfold await. intros ->. reflexivity. Qed.

Lemma faulty_quiet w : env w = [] -> faulty w = false.
Proof. unfold faulty. intros ->. reflexivity. Qed.

Lemma io_quiet w : env w = [] -> io w = (Return tt, w).
Proof. intros H. unfold io. rewrite (@faulty_quiet w H), (@await_quiet w H). reflexivity. Qed.

Lemma gc_body_quiet x w :
  env w = [] ->
  Collection.current x (queue w) = Some x ->
  gc_body x w
  = (Return tt,
     record (Logged INFO Removing_lock_for_orphaned_execution_queue_item [Id (QueueItemDB.id x)])
       (record (QueueWritten (released x))
          (with_queue (Collection.put (released x) (queue w)) w))).
Proof.
  intros Hq Hc.
  unfold gc_body, try_except, ActionExecutionSchedulingQueue.add_or_update, bind.
  rewrite (@io_quiet w Hq).
  unfold Collection.cas.
  change (Collection.current (QueueItemDB.set_handling false x) (queue w))
    with (Collection.current x (queue w)).
  rewrite Hc.
  change (QueueItemDB.rev (QueueItemDB.set_handling false x)) with (QueueItemDB.rev x).
  rewrite Nat.eqb_refl. reflexivity.
Qed.

Lemma find_same_id_map (y x' : QueueItemDB.t) ds :
  QueueItemDB.id y <> QueueItemDB.id x' ->
  find (Collection.same_id y)
       (map (fun r => if Collection.same_id x' r then x' else r) ds)
  = find (Collection.same_id y) ds.
Proof.
  intros Hne. induction ds as [| d ds IH]; cbn [map find]; auto.
  destruct (Collection.same_id x' d) eqn:Hd.
  - unfold Collection.same_id in *. apply Nat.eqb_eq in Hd.
    assert (H1 : Nat.eqb (QueueItemDB.id x') (QueueItemDB.id y) = false)
      by (apply Nat.eqb_neq; congruence).
    assert (H2 : Nat.eqb (QueueItemDB.id d) (QueueItemDB.id y) = false)
      by (apply Nat.eqb_neq; congruence).
    rewrite H1, H2. exact IH.
  - rewrite IH. reflexivity.
Qed.

Lemma gc_loop_quiet xs :
  forall w,
    env w = [] ->
    NoDup (map QueueItemDB.id xs) ->
    (forall x, In x xs -> Collection.current x (queue w) = Some x) ->
    exists w',
      for_each xs gc_body w = (Return tt, w')
      /\ env w' = []
      /\ Collection.docs (queue w') = map (gc_reset xs) (Collection.docs (queue w)).
Proof.
  induction xs as [| x xs IH]; intros w Hq Hnd Hcur.
  - exists w. repeat split; auto. cbn. unfold gc_reset. cbn.
    rewrite map_id. reflexivity.
  - cbn [map] in Hnd. apply NoDup_cons_iff in Hnd. destruct Hnd as [Hx Hnd].
    pose proof (@gc_body_quiet x w Hq (Hcur x (or_introl eq_refl))) as Hbody.
    set (w1 := record (Logged INFO Removing_lock_for_orphaned_execution_queue_item
                              [Id (QueueItemDB.id x)])
                 (record (QueueWritten (released x))
                    (with_queue (Collection.put (released x) (queue w)) w))) in *.
    assert (Hq1 : env w1 = []) by exact Hq.
    assert (Hcur1 : forall y, In y xs -> Collection.current y (queue w1) = Some y).
    { intros y Hy. unfold w1. cbn [queue record with_queue].
      unfold Collection.current, Collection.put. cbn [Collection.docs].
      rewrite find_same_id_map.
      - apply Hcur. right. exact Hy.
      - intros Heq. apply Hx. change (QueueItemDB.id (released x)) with (QueueItemDB.id x) in Heq.
        rewrite <- Heq. apply in_map. exact Hy. }
    destruct (IH w1 Hq1 Hnd Hcur1) as (w' & Hrun & Hq' & Hdocs).
    exists w'. split; [| split; [exact Hq' |]].
    + cbn [for_each]. unfold bind. rewrite Hbody. exact Hrun.
    + rewrite Hdocs. unfold w1. cbn [queue record with_queue Collection.put Collection.docs].
      rewrite map_map. apply map_ext. intros r.
      unfold gc_reset. cbn [find].
      unfold Collection.same_id.
      change (QueueItemDB.id (released x)) with (QueueItemDB.id x).
      destruct (Nat.eqb (QueueItemDB.id r) (QueueItemDB.id x)) eqn:Hr.
      * apply Nat.eqb_eq in Hr. rewrite Hr, Nat.eqb_refl.
        change (QueueItemDB.id (released x)) with (QueueItemDB.id x).
        destruct (find (fun x0 => Nat.eqb (QueueItemDB.id x0) (QueueItemDB.id x)) xs)
          as [y |] eqn:Hf; auto.
        apply find_some in Hf. destruct Hf as [Hy Hid]. apply Nat.eqb_eq in Hid.
        exfalso. apply Hx. rewrite <- Hid. apply in_map. exact Hy.
      * rewrite Nat.eqb_sym, Hr. reflexivity.
Qed.

Lemma unique_by_id ds :
  NoDup (map QueueItemDB.id ds) ->
  forall x y, In x ds -> In y ds -> QueueItemDB.id x = QueueItemDB.id y -> x = y.
Proof.
  induction ds as [| d ds IH]; intros Hnd x y Hx Hy Hid; [destruct Hx |].
  cbn [map] in Hnd. apply NoDup_cons_iff in Hnd. destruct Hnd as [Hd Hnd].
  destruct Hx as [-> | Hx], Hy as [-> | Hy]; auto.
  - exfalso. apply Hd. rewrite Hid. apply in_map. exact Hy.
  - exfalso. apply Hd. rewrite <- Hid. apply in_map. exact Hx.
Qed.

Lemma current_unique ds next x :
  NoDup (map QueueItemDB.id ds) -> In x ds ->
  Collection.current x {| Collection.docs := ds; Collection.next_id := next |} = Some x.
Proof.
  intros Hnd Hx. unfold Collection.current. cbn [Collection.docs].
  destruct (find (Collection.same_id x) ds) as [y |] eqn:Hf.
  - apply find_some in Hf. destruct Hf as [Hy Hid].
    unfold Collection.same_id in Hid. apply Nat.eqb_eq in Hid.
    f_equal. eapply unique_by_id; eauto.
  - exfalso. pose proof (find_none _ _ Hf x Hx) as Hn. cbn beta in Hn.
    unfold Collection.same_id in Hn. rewrite Nat.eqb_refl in Hn. discriminate Hn.
Qed.

Lemma NoDup_map_filter (A B : Type) (f : A -> B) (p : A -> bool) l :
  NoDup (map f l) -> NoDup (map f (filter p l)).
Proof.
  induction l as [| a l IH]; cbn [map filter]; auto.
  intros H. apply NoDup_cons_iff in H. destruct H as [Ha Hl].
  destruct (p a); cbn [map]; auto.
  apply NoDup_cons; auto. intros Hin. apply Ha.
  apply in_map_iff in Hin. destruct Hin as (x & Hx & Hin).
  apply filter_In in Hin. destruct Hin as [Hin _].
  rewrite <- Hx. apply in_map. exact Hin.
Qed.

(** X2: what a tick of the collector does when nobody interferes and the
    identifiers of the collection are distinct: it releases exactly the
    documents that are being handled and whose scheduled start time lies
    at least the threshold in the past; it compares no other time. *)
Lemma gc_quiet_run (w : World) :
  env w = [] ->
  NoDup (map QueueItemDB.id (Collection.docs (queue w))) ->
  result _handle_garbage_collection w = Return tt
  /\ Collection.docs (queue (after _handle_garbage_collection w))
     = map (fun r =>
              if QueueItemDB.handling r
                 && (QueueItemDB.scheduled_start_timestamp r
                     <=? clock w - EXECUTION_SCHEDUELING_TIMEOUT_THRESHOLD_MS)
              then Collection.advance (QueueItemDB.set_handling false r)
              else r)
           (Collection.docs (queue w)).
Proof.
  intros Hq Hnd.
  set (xs := Collection.select (stuck_query (clock w)) (queue w)).
  assert (Hxs : xs = filter (Collection.matches (stuck_query (clock w)))
                       (Collection.docs (queue w))) by reflexivity.
  assert (Hndx : NoDup (map QueueItemDB.id xs))
    by (rewrite Hxs; apply NoDup_map_filter; exact Hnd).
  assert (Hcur : forall x, In x xs -> Collection.current x (queue w) = Some x).
  { intros x Hx. rewrite Hxs in Hx. apply filter_In in Hx. destruct Hx as [Hx _].
    destruct (queue w) as [ds next]. apply current_unique; auto. }
  destruct (@gc_loop_quiet xs w Hq Hndx Hcur) as (w' & Hrun & _ & Hdocs).
  assert (E : _handle_garbage_collection w = (Return tt, w')).
  { rewrite handle_garbage_collection_unfold.
    unfold bind, date.get_datetime_utc_now, ActionExecutionSchedulingQueue.query, bind.
    rewrite (@io_quiet w Hq). exact Hrun. }
  unfold result, after. rewrite E. cbn [fst snd]. split; [reflexivity |].
  rewrite Hdocs. apply map_ext_in. intros r Hr.
  unfold gc_reset.
  assert (Hm : Collection.matches (stuck_query (clock w)) r
               = QueueItemDB.handling r
                 && (QueueItemDB.scheduled_start_timestamp r
                     <=? clock w - EXECUTION_SCHEDUELING_TIMEOUT_THRESHOLD_MS)).
  { unfold Collection.matches, stuck_query, date.append_milliseconds_to_time.
    cbn [Collection.scheduled_start_timestamp__lte Collection.handling].
    change (clock w - EXECUTION_SCHEDUELING_TIMEOUT_THRESHOLD_MS)
      with (clock w + - EXECUTION_SCHEDUELING_TIMEOUT_THRESHOLD_MS).
    destruct (QueueItemDB.handling r); cbn [Bool.eqb andb];
      rewrite ?andb_true_r, ?andb_false_r; reflexivity. }
  rewrite <- Hm.
  destruct (find (fun x => Nat.eqb (QueueItemDB.id x) (QueueItemDB.id r)) xs)
    as [y |] eqn:Hf.
  - apply find_some in Hf. destruct Hf as [Hy Hid]. apply Nat.eqb_eq in Hid.
    assert (Hyds : In y (Collection.docs (queue w)))
      by (rewrite Hxs in Hy; apply filter_In in Hy; tauto).
    assert (y = r) by (apply (@unique_by_id (Collection.docs (queue w)) Hnd y r Hyds Hr Hid)).
    subst y.
    rewrite Hxs in Hy. apply filter_In in Hy. destruct Hy as [_ Hy].
    rewrite Hy. reflexivity.
  - destruct (Collection.matches (stuck_query (clock w)) r) eqn:Hmr; auto.
    exfalso.
    assert (Hin : In r xs) by (rewrite Hxs; apply filter_In; auto).
    pose proof (find_none _ _ Hf r Hin) as Hn. cbn beta in Hn.
    rewrite Nat.eqb_refl in Hn. discriminate Hn.
Qed.

Lemma gc_expected_record xs : forall e w, gc_expected xs (record e w) = gc_expected xs w.
Proof.
  induction xs as [| x xs IH]; intros e w; [reflexivity |].
  cbn [gc_expected]. rewrite await_record. cbn [queue record].
  destruct (Collection.cas _ _) as [[x' c'] |]; [| rewrite IH; reflexivity].
  change (with_queue c' (record e (await w))) with (record e (with_queue c' (await w))).
  rewrite IH. reflexivity.
Qed.

Lemma gc_body_step x w r w' :
  gc_body x w = (r, w') ->
  (r = Raise TransientError /\ faulty w = true)
  \/ (r = Return tt
      /\ env w' = env (await w)
      /\ forall xs, trace w' ++ gc_expected xs w'
                    = trace w ++ gc_expected (x :: xs) w).
Proof.
  intros E. unfold gc_body in E.
  invert_faults;
    first [ solve [left; auto]
          | right; split; [reflexivity | split; [reflexivity |]];
            intros xs; cbn [gc_expected];
            match goal with
            | H : Collection.cas _ _ = _ |- _ => rewrite H
            end;
            rewrite ?gc_expected_record; trace_norm; reflexivity ].
Qed.

Lemma fault_within_env n w1 w2 : env w1 = env w2 -> fault_within n w1 = fault_within n w2.
Proof. unfold fault_within. intros ->. reflexivity. Qed.

(** The loop of the collector: short of a store fault at one of its
    suspension points, its events are those of [gc_expected]. *)
Lemma gc_loop_events xs :
  forall w r w',
    for_each xs gc_body w = (r, w') ->
    match r with
    | Return _ => trace w' = trace w ++ gc_expected xs w
    | Raise e => e = TransientError /\ fault_within (List.length xs) w = true
    end.
Proof.
  induction xs as [| x xs IH]; intros w r w' E.
  - inversion E; subst. cbn [gc_expected]. rewrite app_nil_r. reflexivity.
  - cbn [for_each] in E. apply bind_inv in E.
    destruct E as [(a & w1 & E1 & E2) | (e & E1 & ->)].
    + apply gc_body_step in E1.
      destruct E1 as [[E1 _] | (_ & Henv & Ht)]; [discriminate E1 |].
      specialize (IH _ _ _ E2). destruct r as [u | e].
      * rewrite IH. apply Ht.
      * destruct IH as [-> IH]. split; [reflexivity |].
        cbn [List.length]. apply fault_within_await.
        rewrite <- (@fault_within_env (List.length xs) w1 (await w) Henv). exact IH.
    + apply gc_body_step in E1.
      destruct E1 as [[E1 Hf] | (E1 & _)]; [| discriminate E1].
      inversion E1; subst e. split; [reflexivity |].
      apply faulty_within in Hf. eapply fault_within_le; [exact Hf |].
      cbn [List.length]. lia.
Qed.

(** X3: a tick of the collector, whatever the fleet does meanwhile: short of
    a store fault, every item the query returned is dealt with, in the
    order of the query.  At its own suspension point each is written back
    with [handling] reset, and the release is logged; when the store
    refuses the write, that is logged instead and the loop goes on with the
    next item.  The tick fails only on a store fault met in the query or in
    one of the writes. *)
Lemma gc_tick_handles_every_stuck_item (w : World) :
  match result _handle_garbage_collection w with
  | Return _ =>
      events_of _handle_garbage_collection w
      = gc_expected (Collection.select (stuck_query (clock w)) (queue (idle 1 w)))
                    (idle 1 w)
      /\ map fst (gc_handled (events_of _handle_garbage_collection w))
         = map QueueItemDB.id (Collection.select (stuck_query (clock w)) (queue (idle 1 w)))
  | Raise e =>
      e = TransientError
      /\ fault_within
           (S (List.length
                 (Collection.select (stuck_query (clock w)) (queue (idle 1 w)))))
           w = true
  end.
Proof.
  destruct (_handle_garbage_collection w) as [r w'] eqn:E.
  pose proof E as E0. rewrite handle_garbage_collection_unfold in E0.
  apply bind_inv in E0. destruct E0 as [(now & w0 & E1 & E2) | (e & E1 & ->)];
    apply now_inv in E1; destruct E1 as [E1 ->]; [| discriminate].
  inversion E1; subst now. clear E1.
  apply bind_inv in E2. destruct E2 as [(xs & w1 & E1 & E2) | (e & E1 & ->)].
  - apply query_inv in E1; destruct E1 as [-> E1].
    destruct E1 as [E1 | E1]; [| discriminate]. inversion E1; subst xs. clear E1.
    pose proof (gc_loop_events _ _ E2) as Hev.
    apply gc_loop_run in E2. destruct E2 as (evs & Ht & H).
    rewrite trace_await in Ht.
    unfold result. rewrite E. cbn [fst idle].
    rewrite (@events_of_intro _ _handle_garbage_collection w r w' evs E Ht).
    destruct r as [u | e].
    + split; [| exact H].
      rewrite Ht, trace_await in Hev. apply app_inv_head in Hev. exact Hev.
    + destruct Hev as [-> Hev]. split; [reflexivity |].
      apply fault_within_await. exact Hev.
  - pose proof (@query_transient _ _ _ _ E1) as Hf.
    apply query_inv in E1; destruct E1 as [-> E1].
    unfold result. rewrite E. cbn [fst].
    destruct E1 as [E1 | E1]; inversion E1; subst e.
    split; [reflexivity |].
    specialize (Hf eq_refl). apply faulty_within in Hf.
    eapply fault_within_le; [exact Hf | lia].
Qed.

(** ** Frames

    Properties of the form: whatever a handler method does, the world it
    leaves is related to the world it started in, and only certain
    exceptions escape.  They are proved rule by rule, along the structure
    of the method. *)

Lemma exn_eqb_eq a b : exn_eqb a b = true <-> a = b.
Proof. destruct a, b; cbn; split; congruence. Qed.

Section Rules.

Variable R : World -> World -> Prop.
Variable ok : Event -> Prop.
Hypothesis F : Frame R ok.

Lemma keeps_ret (A : Type) (P : exn -> Prop) (a : A) : keeps R P (ret a).
Proof.
  intros w r w' E. apply ret_inv in E. destruct E as [-> ->].
  split; [apply (frame_refl F) | discriminate].
Qed.

Lemma keeps_bind (A B : Type) (P : exn -> Prop) (m : M A) (k : A -> M B) :
  keeps R P m -> (forall a, keeps R P (k a)) -> keeps R P (bind m k).
Proof.
  intros Hm Hk w r w' E. apply bind_inv in E.
  destruct E as [(a & w1 & E1 & E2) | (e & E1 & ->)].
  - destruct (Hm _ _ _ E1) as [R1 _]. destruct (Hk a _ _ _ E2) as [R2 P2].
    split; [eapply (frame_trans F); eassumption | exact P2].
  - destruct (Hm _ _ _ E1) as [R1 P1]. split; [exact R1 |].
    intros e' H. inversion H; subst e'. apply P1. reflexivity.
Qed.

Lemma keeps_try_except (A : Type) (P : exn -> Prop) (body : M A) c (handler : M A) :
  keeps R (fun e => P e \/ e = c) body -> keeps R P handler ->
  keeps R P (try_except body c handler).
Proof.
  intros Hb Hh w r w' E. apply try_except_inv in E.
  destruct E as [(a & E & ->) | [(w1 & E1 & E2) | (e' & E & Hne & ->)]].
  - destruct (Hb _ _ _ E) as [R1 _]. split; [exact R1 | discriminate].
  - destruct (Hb _ _ _ E1) as [R1 _]. destruct (Hh _ _ _ E2) as [R2 P2].
    split; [eapply (frame_trans F); eassumption | exact P2].
  - destruct (Hb _ _ _ E) as [R1 P1]. split; [exact R1 |].
    intros e H. inversion H; subst e'.
    destruct (P1 e eq_refl) as [Hp | ->]; [exact Hp |].
    assert (Hc : exn_eqb c c = true) by (apply exn_eqb_eq; reflexivity).
    congruence.
Qed.

Lemma keeps_io (P : exn -> Prop) : P TransientError -> keeps R P io.
Proof.
  intros Ht w r w' E. apply io_inv in E. destruct E as [-> [-> | ->]].
  - split; [apply (frame_await F) | discriminate].
  - split; [apply (frame_await F) |]. intros e H. inversion H; subst. exact Ht.
Qed.

Lemma keeps_emit (P : exn -> Prop) e : ok e -> keeps R P (emit e).
Proof.
  intros He w r w' E. apply emit_inv in E. destruct E as [-> ->].
  split; [apply (frame_record F), He | discriminate].
Qed.

Lemma keeps_sleep (P : exn -> Prop) ms :
  (forall w, R w (tick ms w)) -> keeps R P (eventlet.sleep ms).
Proof.
  intros Htick w r w' E. apply sleep_inv in E. destruct E as [-> ->].
  split; [| discriminate].
  eapply (frame_trans F); [apply Htick | apply (frame_await F)].
Qed.

Lemma keeps_now (P : exn -> Prop) : keeps R P date.get_datetime_utc_now.
Proof.
  intros w r w' E. apply now_inv in E. destruct E as [-> ->].
  split; [apply (frame_refl F) | discriminate].
Qed.

Lemma keeps_query (P : exn -> Prop) q :
  P TransientError -> keeps R P (ActionExecutionSchedulingQueue.query q).
Proof.
  intros Ht w r w' E. apply query_inv in E. destruct E as [-> [-> | ->]].
  - split; [apply (frame_await F) | discriminate].
  - split; [apply (frame_await F) |]. intros e H. inversion H; subst. exact Ht.
Qed.

Lemma keeps_add_or_update (P : exn -> Prop) i publish :
  P TransientError -> P StackStormDBObjectWriteConflictError ->
  ok (QueueWritten (Collection.advance i)) ->
  keeps R P (ActionExecutionSchedulingQueue.add_or_update i publish).
Proof.
  intros Ht Hc Hok w r w' E. apply add_or_update_inv in E.
  destruct E as [[-> ->] | [(-> & -> & _) | (c' & _ & -> & ->)]].
  - split; [apply (frame_await F) |]. intros e H. inversion H; subst. exact Ht.
  - split; [apply (frame_await F) |]. intros e H. inversion H; subst. exact Hc.
  - split; [| discriminate].
    eapply (frame_trans F); [apply (frame_await F) |].
    eapply (frame_trans F); [apply (frame_with_queue F) |].
    apply (frame_record F), Hok.
Qed.

Lemma keeps_for_each (A : Type) (P : exn -> Prop) (xs : list A) (body : A -> M unit) :
  (forall x, In x xs -> keeps R P (body x)) -> keeps R P (for_each xs body).
Proof.
  induction xs as [| x xs IH]; intros Hb; cbn [for_each].
  - apply keeps_ret.
  - apply keeps_bind.
    + apply Hb. left. reflexivity.
    + intros _. apply IH. intros y Hy. apply Hb. right. exact Hy.
Qed.

Lemma keeps_while (P : exn -> Prop) body fuel :
  keeps R P body -> keeps R P (while_not_shutdown fuel body).
Proof.
  intros Hb. induction fuel as [| n IH]; cbn [while_not_shutdown].
  - apply keeps_ret.
  - intros w r w' E. destruct (_shutdown w).
    + inversion E; subst. split; [apply (frame_refl F) | discriminate].
    + revert E. apply keeps_bind; [exact Hb | intros _; exact IH].
Qed.

(** The two loop bodies and the collector, for any frame that admits their
    events. *)
Lemma keeps_get_next_execution :
  (forall j, QueueItemDB.handling j = true -> ok (QueueWritten j)) ->
  (forall lvl msg args, ok (Logged lvl msg args)) ->
  keeps R (fun e => e = TransientError) _get_next_execution.
Proof.
  intros Hw Hl. unfold _get_next_execution.
  apply keeps_bind; [apply keeps_now | intros now].
  apply keeps_bind; [apply keeps_query; reflexivity | intros found].
  destruct (Collection.first found) as [i |]; [| apply keeps_ret].
  apply keeps_try_except.
  - apply keeps_bind; [| intros j; apply keeps_ret].
    apply keeps_add_or_update;
      [left; reflexivity | right; reflexivity | apply Hw; reflexivity].
  - apply keeps_bind; [apply keeps_emit, Hl | intros _; apply keeps_ret].
Qed.

Lemma keeps_run_body :
  (forall w, R w (tick sleep_interval w)) ->
  (forall j, QueueItemDB.handling j = true -> ok (QueueWritten j)) ->
  (forall j, ok (Spawned j)) ->
  (forall lvl msg args, ok (Logged lvl msg args)) ->
  keeps R (fun e => e = TransientError) run_body.
Proof.
  intros Ht Hw Hs Hl. unfold run_body.
  apply keeps_bind; [apply keeps_sleep, Ht | intros _].
  apply keeps_bind; [apply keeps_get_next_execution; assumption | intros [j |]].
  - apply keeps_emit, Hs.
  - apply keeps_ret.
Qed.

Lemma keeps_handle_garbage_collection :
  (forall j, QueueItemDB.handling j = false -> ok (QueueWritten j)) ->
  (forall lvl msg args, ok (Logged lvl msg args)) ->
  keeps R (fun e => e = TransientError) _handle_garbage_collection.
Proof.
  intros Hw Hl. unfold _handle_garbage_collection.
  apply keeps_bind; [apply keeps_now | intros now].
  apply keeps_bind; [apply keeps_query; reflexivity | intros found].
  apply keeps_for_each. intros x _.
  apply keeps_try_except.
  - apply keeps_bind; [| intros j; apply keeps_emit, Hl].
    apply keeps_add_or_update;
      [left; reflexivity | right; reflexivity | apply Hw; reflexivity].
  - apply keeps_emit, Hl.
Qed.

Lemma keeps_cleanup_body :
  (forall w, R w (tick gc_interval w)) ->
  (forall j, QueueItemDB.handling j = false -> ok (QueueWritten j)) ->
  (forall lvl msg args, ok (Logged lvl msg args)) ->
  keeps R (fun e => e = TransientError) cleanup_body.
Proof.
  intros Ht Hw Hl. unfold cleanup_body.
  apply keeps_bind; [apply keeps_sleep, Ht | intros _].
  apply keeps_handle_garbage_collection; assumption.
Qed.

End Rules.

(** ** Shutdown *)

Lemma cleanup_unfold fuel :
  cleanup fuel
  = (LOG.debug Starting_scheduler_garbage_collection [] ;;
     while_not_shutdown fuel cleanup_body).
Proof. reflexivity. Qed.

Lemma existsb_firstn_S (A : Type) (p : A -> bool) n (l : list A) :
  existsb p (firstn n l) = true -> existsb p (firstn (S n) l) = true.
Proof.
  revert l. induction n as [| n IH]; intros l H; [discriminate H |].
  destruct l as [| a l]; [discriminate H |].
  cbn [firstn existsb] in *. apply orb_true_iff in H. apply orb_true_iff.
  destruct H as [H | H]; [left; exact H | right; apply IH; exact H].
Qed.

Lemma stop_within_S n w : stop_within n w = true -> stop_within (S n) w = true.
Proof.
  unfold stop_within. intros H. apply orb_true_iff in H. apply orb_true_iff.
  destruct H as [H | H]; [left; exact H | right; apply existsb_firstn_S; exact H].
Qed.

Lemma stop_within_await n w :
  stop_within (S n) w = true -> stop_within n (await w) = true.
Proof.
  unfold stop_within, await. destruct (env w) as [| e rest] eqn:E.
  - rewrite E, !firstn_nil. auto.
  - cbn [_shutdown env firstn existsb]. rewrite orb_assoc. auto.
Qed.

Lemma stop_kept_frame : Frame stop_kept (fun _ => True).
Proof.
  constructor; unfold stop_kept.
  - auto.
  - auto.
  - intros w n H. apply stop_within_await, stop_within_S, H.
  - intros c w n H. exact H.
  - intros e w _ n H. exact H.
Qed.

(** A loop that sleeps first: the sleep uses up one suspension point, and
    nothing the rest of the body does withdraws a shutdown request. *)
Lemma sleep_then_stops (P : exn -> Prop) ms (rest : M unit) :
  keeps stop_kept P rest ->
  forall n w r w',
    stop_within (S n) w = true ->
    (eventlet.sleep ms ;; rest) w = (r, w') ->
    stop_within n w' = true.
Proof.
  intros Hrest n w r w' Hs E. apply bind_inv in E.
  destruct E as [(a & w1 & E1 & E2) | (e & E1 & ->)];
    apply sleep_inv in E1; destruct E1 as [E1 ->]; [| discriminate E1].
  destruct (Hrest _ _ _ E2) as [Hk _]. apply Hk.
  apply stop_within_await. exact Hs.
Qed.

Lemma while_stops body :
  (forall n w r w',
      stop_within (S n) w = true -> body w = (r, w') -> stop_within n w' = true) ->
  forall n w,
    stop_within n w = true ->
    (forall fuel, (n <= fuel)%nat ->
                  while_not_shutdown fuel body w = while_not_shutdown n body w)
    /\ (forall w', while_not_shutdown n body w = (Return tt, w') -> _shutdown w' = true).
Proof.
  intros Hbody. induction n as [| n IH]; intros w Hs.
  - assert (Hsd : _shutdown w = true).
    { unfold stop_within in Hs. cbn [firstn existsb] in Hs.
      rewrite orb_false_r in Hs. exact Hs. }
    split.
    + intros [| fuel] _; cbn [while_not_shutdown]; [reflexivity |].
      rewrite Hsd. reflexivity.
    + intros w' E. inversion E; subst. exact Hsd.
  - split.
    + intros [| fuel] Hle; [lia |]. cbn [while_not_shutdown].
      destruct (_shutdown w); [reflexivity |].
      unfold bind. destruct (body w) as [[u | e] w1] eqn:Eb; [| reflexivity].
      apply (IH w1 (Hbody _ _ _ _ Hs Eb)). lia.
    + intros w' E. cbn [while_not_shutdown] in E.
      destruct (_shutdown w) eqn:Hsd.
      * inversion E; subst. exact Hsd.
      * apply bind_inv in E. destruct E as [(u & w1 & Eb & E) | (e & _ & He)];
          [| discriminate He].
        apply (IH w1 (Hbody _ _ _ _ Hs Eb)). exact E.
Qed.

Lemma run_body_stops n w r w' :
  stop_within (S n) w = true -> run_body w = (r, w') -> stop_within n w' = true.
Proof.
  apply sleep_then_stops with (P := fun e => e = TransientError).
  apply (keeps_bind stop_kept_frame).
  - apply (keeps_get_next_execution stop_kept_frame); auto.
  - intros [j |]; [apply (keeps_emit stop_kept_frame); exact I
                  | apply (keeps_ret stop_kept_frame)].
Qed.

Lemma cleanup_body_stops n w r w' :
  stop_within (S n) w = true -> cleanup_body w = (r, w') -> stop_within n w' = true.
Proof.
  apply sleep_then_stops with (P := fun e => e = TransientError).
  apply (keeps_handle_garbage_collection stop_kept_frame); auto.
Qed.

Lemma run_stops n w :
  stop_within n w = true ->
  (forall fuel, (n <= fuel)%nat -> run fuel w = run n w)
  /\ (result (run n) w = Return tt -> _shutdown (after (run n) w) = true).
Proof.
  intros Hs.
  destruct (@while_stops run_body run_body_stops n
              (record (Logged DEBUG Entering_scheduler_loop []) w) Hs) as [H1 H2].
  split.
  - intros fuel Hle. rewrite !run_unfold. unfold bind, LOG.debug, emit.
    apply H1, Hle.
  - unfold result, after. rewrite run_unfold. unfold bind at 1 2, LOG.debug, emit.
    intros H. apply H2.
    destruct (while_not_shutdown n run_body _) as [[[] | e] w']; cbn [fst snd] in *;
      [reflexivity | discriminate H].
Qed.

Lemma cleanup_stops n w :
  stop_within n w = true ->
  (forall fuel, (n <= fuel)%nat -> cleanup fuel w = cleanup n w)
  /\ (result (cleanup n) w = Return tt -> _shutdown (after (cleanup n) w) = true).
Proof.
  intros Hs.
  destruct (@while_stops cleanup_body cleanup_body_stops n
              (record (Logged DEBUG Starting_scheduler_garbage_collection []) w) Hs)
    as [H1 H2].
  split.
  - intros fuel Hle. rewrite !cleanup_unfold. unfold bind, LOG.debug, emit.
    apply H1, Hle.
  - unfold result, after. rewrite cleanup_unfold. unfold bind at 1 2, LOG.debug, emit.
    intros H. apply H2.
    destruct (while_not_shutdown n cleanup_body _) as [[[] | e] w']; cbn [fst snd] in *;
      [reflexivity | discriminate H].
Qed.

(** X4: both loops come to an end once shutdown is requested: when the
    request is there, or arrives within the next [n] suspension points, [n]
    turns of the loop are all there is, however long the loop is let run;
    and a loop that then returns has seen the flag set.  The flag is looked
    at only between turns: a turn that has begun goes on to its end. *)
Lemma loops_stop_on_shutdown (n : nat) (w : World) :
  stop_within n w = true ->
  forall fuel, (n <= fuel)%nat ->
    run fuel w = run n w
    /\ cleanup fuel w = cleanup n w
    /\ (result (run fuel) w = Return tt -> _shutdown (after (run fuel) w) = true)
    /\ (result (cleanup fuel) w = Return tt
        -> _shutdown (after (cleanup fuel) w) = true).
Proof.
  intros Hs fuel Hle.
  destruct (@run_stops n w Hs) as [Hr1 Hr2].
  destruct (@cleanup_stops n w Hs) as [Hc1 Hc2].
  split; [exact (Hr1 fuel Hle) | split; [exact (Hc1 fuel Hle) |]].
  unfold result, after in *. rewrite (Hr1 fuel Hle), (Hc1 fuel Hle).
  split; assumption.
Qed.

Lemma io_fault w : faulty w = true -> io w = (Raise TransientError, await w).
Proof. unfold io. intros ->. reflexivity. Qed.

Lemma faulty_second w e1 e2 rest ms :
  env w = e1 :: e2 :: rest ->
  faulty (await (tick ms w)) = fault e2 /\ env (await (await (tick ms w))) = rest.
Proof.
  intros He. unfold faulty, await. cbn [env tick]. rewrite He. cbn [env]. auto.
Qed.

Lemma query_fault q w :
  faulty w = true ->
  ActionExecutionSchedulingQueue.query q w = (Raise TransientError, await w).
Proof.
  intros H. unfold ActionExecutionSchedulingQueue.query, bind.
  rewrite (@io_fault w H). reflexivity.
Qed.

Lemma get_next_execution_fault w :
  faulty w = true -> _get_next_execution w = (Raise TransientError, await w).
Proof.
  intros H. unfold _get_next_execution, bind, date.get_datetime_utc_now.
  rewrite (@query_fault _ w H). reflexivity.
Qed.

Lemma handle_garbage_collection_fault w :
  faulty w = true -> _handle_garbage_collection w = (Raise TransientError, await w).
Proof.
  intros H. unfold _handle_garbage_collection, bind, date.get_datetime_utc_now.
  rewrite (@query_fault _ w H). reflexivity.
Qed.

Lemma run_body_fault w :
  faulty (await (tick sleep_interval w)) = true ->
  run_body w = (Raise TransientError, await (await (tick sleep_interval w))).
Proof.
  intros H. unfold run_body, bind, eventlet.sleep.
  rewrite (@get_next_execution_fault _ H). reflexivity.
Qed.

Lemma cleanup_body_fault w :
  faulty (await (tick gc_interval w)) = true ->
  cleanup_body w = (Raise TransientError, await (await (tick gc_interval w))).
Proof.
  intros H. unfold cleanup_body, bind, eventlet.sleep.
  rewrite (@handle_garbage_collection_fault _ H). reflexivity.
Qed.

(** X5: neither loop catches a store fault.  When the store call that
    follows the sleep of a turn fails with a transient error, the error
    leaves the loop: [run] and [cleanup] end with it there and then, with
    nothing claimed or released in that turn, and no further turn is taken
    however long the loop is let run. *)
Lemma loops_end_on_store_fault (fuel : nat) (w : World) (e1 e2 : EnvStep)
    (rest : list EnvStep) :
  _shutdown w = false ->
  env w = e1 :: e2 :: rest ->
  fault e2 = true ->
  (result (run (S fuel)) w = Raise TransientError
   /\ events_of (run (S fuel)) w = [Logged DEBUG Entering_scheduler_loop []]
   /\ env (after (run (S fuel)) w) = rest)
  /\ (result (cleanup (S fuel)) w = Raise TransientError
      /\ events_of (cleanup (S fuel)) w
         = [Logged DEBUG Starting_scheduler_garbage_collection []]
      /\ env (after (cleanup (S fuel)) w) = rest).
Proof.
  intros Hs He Hf. split.
  - set (w0 := record (Logged DEBUG Entering_scheduler_loop []) w).
    destruct (@faulty_second w0 e1 e2 rest sleep_interval He) as [H1 H2].
    rewrite Hf in H1.
    assert (E : run (S fuel) w
                = (Raise TransientError, await (await (tick sleep_interval w0)))).
    { rewrite run_unfold. unfold bind at 1, LOG.debug, emit. fold w0.
      cbn [while_not_shutdown].
      change (_shutdown w0) with (_shutdown w). rewrite Hs.
      unfold bind at 1. rewrite (@run_body_fault w0 H1). reflexivity. }
    unfold result, events_of, after. rewrite E. cbn [fst snd].
    split; [reflexivity | split; [| exact H2]].
    unfold w0. trace_norm. reflexivity.
  - set (w0 := record (Logged DEBUG Starting_scheduler_garbage_collection []) w).
    destruct (@faulty_second w0 e1 e2 rest gc_interval He) as [H1 H2].
    rewrite Hf in H1.
    assert (E : cleanup (S fuel) w
                = (Raise TransientError, await (await (tick gc_interval w0)))).
    { rewrite cleanup_unfold. unfold bind at 1, LOG.debug, emit. fold w0.
      cbn [while_not_shutdown].
      change (_shutdown w0) with (_shutdown w). rewrite Hs.
      unfold bind at 1. rewrite (@cleanup_body_fault w0 H1). reflexivity. }
    unfold result, events_of, after. rewrite E. cbn [fst snd].
    split; [reflexivity | split; [| exact H2]].
    unfold w0. trace_norm. reflexivity.
Qed.

(** ** What the two loops leave alone *)

Lemma grown_by_frame ok : Frame (grown_by ok) ok.
Proof.
  constructor; unfold grown_by.
  - intros w. split; [reflexivity |]. exists []. rewrite app_nil_r. auto.
  - intros w1 w2 w3 [L1 (e1 & T1 & O1)] [L2 (e2 & T2 & O2)].
    split; [congruence |]. exists (e1 ++ e2).
    rewrite T2, T1, app_assoc. split; [reflexivity |]. apply Forall_app. auto.
  - intros w. split; [apply liveactions_await |].
    exists []. rewrite trace_await, app_nil_r. auto.
  - intros c w. split; [reflexivity |].
    exists []. rewrite trace_with_queue, app_nil_r. auto.
  - intros e w He. split; [reflexivity |]. exists [e]. rewrite trace_record. auto.
Qed.

Lemma grown_by_tick ok ms w : grown_by ok w (tick ms w).
Proof. split; [reflexivity |]. exists []. rewrite trace_tick, app_nil_r. auto. Qed.

Lemma grown_by_run (A : Type) ok (m : M A) w :
  keeps (grown_by ok) (fun e => e = TransientError) m ->
  liveactions (after m w) = liveactions w
  /\ Forall ok (events_of m w)
  /\ forall e, result m w = Raise e -> e = TransientError.
Proof.
  intros Hm. destruct (m w) as [r w'] eqn:E.
  destruct (Hm _ _ _ E) as [[Hl (evs & Ht & Hok)] Hp].
  rewrite (@events_of_intro _ m w r w' evs E Ht).
  unfold after, result. rewrite E. cbn [fst snd]. auto.
Qed.

(** X6: the claim loop, however long it runs and whatever the fleet does: it
    writes items with the claim flag set, hands items to workers and logs,
    and that is all.  It deletes no item, it neither changes nor publishes a
    live-action status, the live-action store is as it was, and the only
    exception that ends it is a store fault: a write conflict never leaves
    [_get_next_execution]. *)
Lemma claim_loop_frame (fuel : nat) (w : World) :
  liveactions (after (run fuel) w) = liveactions w
  /\ Forall claim_event (events_of (run fuel) w)
  /\ forall e, result (run fuel) w = Raise e -> e = TransientError.
Proof.
  apply grown_by_run. rewrite run_unfold.
  apply (keeps_bind (grown_by_frame claim_event)).
  - apply (keeps_emit (grown_by_frame claim_event)). exact I.
  - intros _. apply (keeps_while (grown_by_frame claim_event)).
    apply (keeps_run_body (grown_by_frame claim_event)); cbn; auto.
    apply grown_by_tick.
Qed.

(** X7: the collector loop, however long it runs and whatever the fleet
    does: it writes items with the claim flag cleared and logs, and that is
    all.  It deletes nothing, spawns nothing, leaves the live actions alone,
    and the only exception that ends it is a store fault. *)
Lemma collector_loop_frame (fuel : nat) (w : World) :
  liveactions (after (cleanup fuel) w) = liveactions w
  /\ Forall release_event (events_of (cleanup fuel) w)
  /\ forall e, result (cleanup fuel) w = Raise e -> e = TransientError.
Proof.
  apply grown_by_run. rewrite cleanup_unfold.
  apply (keeps_bind (grown_by_frame release_event)).
  - apply (keeps_emit (grown_by_frame release_event)). exact I.
  - intros _. apply (keeps_while (grown_by_frame release_event)).
    apply (keeps_cleanup_body (grown_by_frame release_event)); cbn; auto.
    apply grown_by_tick.
Qed.

(** ** The pace of the claim loop *)

Lemma clock_await_tick ms w : clock w + Z.of_N ms <= clock (await (tick ms w)).
Proof. pose proof (clock_await (tick ms w)) as H. cbn [clock tick] in H. exact H. Qed.

Lemma clock_with_queue c w : clock (with_queue c w) = clock w.
Proof. reflexivity. Qed.

(** One turn of the claim loop: at least the sleep interval passes, at most
    one item is spawned, and that item was due when the turn read the
    clock. *)
Lemma run_body_paced w r w' :
  run_body w = (r, w') ->
  exists evs,
    trace w' = trace w ++ evs
    /\ clock w + Z.of_N sleep_interval <= clock w'
    /\ (spawned evs = []
        \/ exists j, spawned evs = [j]
                     /\ QueueItemDB.scheduled_start_timestamp j <= clock w').
Proof.
  intros E. apply run_body_cases in E. cbn [idle] in E.
  pose proof (clock_await_tick sleep_interval w) as H0.
  pose proof (clock_await (await (tick sleep_interval w))) as H1.
  pose proof (clock_await (await (await (tick sleep_interval w)))) as H2.
  destruct E as [[-> _] | [[-> _] | [(i & Hi & Hc & -> & _) | (i & c' & Hi & Hc & -> & _)]]].
  - exists []. trace_norm. rewrite app_nil_r. repeat split; auto; lia.
  - exists []. trace_norm. rewrite app_nil_r. repeat split; auto; lia.
  - eexists. trace_norm. split; [reflexivity |].
    rewrite clock_record. split; [lia | left; reflexivity].
  - eexists. trace_norm. split; [reflexivity |].
    rewrite !clock_record, clock_with_queue. split; [lia |].
    right. eexists. split; [reflexivity |].
    apply next_ready_some in Hi. destruct Hi as (_ & [_ Hi] & _).
    change (QueueItemDB.scheduled_start_timestamp i
            <= clock (await (await (await (tick sleep_interval w))))).
    lia.
Qed.

Lemma run_loop_paced fuel :
  forall w r w',
    while_not_shutdown fuel run_body w = (r, w') ->
    exists evs,
      trace w' = trace w ++ evs
      /\ (List.length (spawned evs) <= fuel)%nat
      /\ clock w + Z.of_N sleep_interval * Z.of_nat (List.length (spawned evs)) <= clock w'
      /\ Forall (fun j => QueueItemDB.scheduled_start_timestamp j <= clock w')
                (spawned evs).
Proof.
  induction fuel as [| n IH]; intros w r w' E.
  - inversion E; subst. exists []. rewrite app_nil_r. cbn. repeat split; auto; lia.
  - cbn [while_not_shutdown] in E. destruct (_shutdown w).
    + inversion E; subst. exists []. rewrite app_nil_r. cbn. repeat split; auto; lia.
    + apply bind_inv in E. destruct E as [(a & w1 & E1 & E2) | (e & E1 & ->)].
      * apply run_body_paced in E1. destruct E1 as (evs1 & Ht1 & Hc1 & Hs1).
        destruct (IH _ _ _ E2) as (evs2 & Ht2 & Hn2 & Hc2 & Hf2).
        exists (evs1 ++ evs2). rewrite Ht2, Ht1, app_assoc. split; [reflexivity |].
        rewrite spawned_app, length_app.
        assert (Hge : clock w1 <= clock w') by nia.
        destruct Hs1 as [-> | (j & -> & Hj)]; cbn [List.length app].
        -- repeat split; auto; lia.
        -- repeat split; [lia | nia |]. constructor; [lia | exact Hf2].
      * apply run_body_paced in E1. destruct E1 as (evs1 & Ht1 & Hc1 & Hs1).
        exists evs1. split; [exact Ht1 |].
        destruct Hs1 as [-> | (j & -> & Hj)]; cbn [List.length].
        -- repeat split; auto; lia.
        -- repeat split; [lia | lia |]. constructor; [exact Hj | constructor].
Qed.

Lemma run_paced fuel w :
  let evs := events_of (run fuel) w in
  (List.length (spawned evs) <= fuel)%nat
  /\ clock w + Z.of_N sleep_interval * Z.of_nat (List.length (spawned evs))
     <= clock (after (run fuel) w)
  /\ Forall (fun j => QueueItemDB.scheduled_start_timestamp j
                      <= clock (after (run fuel) w))
            (spawned evs).
Proof.
  destruct (run fuel w) as [r w'] eqn:E. pose proof E as E0.
  rewrite run_unfold in E0. apply bind_inv in E0.
  destruct E0 as [(a & w1 & E1 & E2) | (e & E1 & ->)];
    apply emit_inv in E1; destruct E1 as [E1 ->]; [| discriminate E1].
  apply run_loop_paced in E2. destruct E2 as (evs & Ht & Hn & Hc & Hf).
  rewrite trace_record, <- app_assoc in Ht.
  cbv zeta. rewrite (@events_of_intro _ (run fuel) w r w' _ E Ht).
  unfold after. rewrite E. cbn [snd app spawned].
  rewrite clock_record in Hc. auto.
Qed.

(** X8: once shutdown has been requested, the claim loop hands at most one
    more item to a worker.  It hands over none when the flag is set as the
    loop comes to its head, as it is after a call of [shutdown]; and at
    most one, the item of the turn in progress, when the request arrives
    while the loop sleeps. *)
Lemma at_most_one_spawn_after_shutdown (fuel : nat) (w : World) :
  stop_within 1 w = true ->
  (List.length (spawned (events_of (run fuel) w)) <= 1)%nat
  /\ (_shutdown w = true -> spawned (events_of (run fuel) w) = [])
  /\ spawned (events_of (run fuel) (after shutdown w)) = [].
Proof.
  intros Hs.
  assert (Hset : forall w0, _shutdown w0 = true -> spawned (events_of (run fuel) w0) = []).
  { intros w0 H0.
    assert (H1 : stop_within 0 w0 = true) by (unfold stop_within; rewrite H0; reflexivity).
    destruct (@run_stops 0 w0 H1) as [Heq _].
    unfold events_of, after. rewrite (Heq fuel (Nat.le_0_l fuel)).
    rewrite run_unfold. unfold bind, LOG.debug, emit.
    cbn [while_not_shutdown ret snd]. trace_norm. reflexivity. }
  split; [| split; [apply Hset | apply Hset; reflexivity]].
  destruct fuel as [| fuel].
  - pose proof (run_paced 0 w) as H. cbv zeta in H. lia.
  - destruct (@run_stops 1 w Hs) as [Heq _].
    unfold events_of, after. rewrite (Heq (S fuel) (le_n_S _ _ (Nat.le_0_l fuel))).
    pose proof (run_paced 1 w) as H. cbv zeta in H. unfold events_of, after in H.
    tauto.
Qed.

(** X9: the claim loop claims at most one item per turn, and every turn
    begins with the sleep: [fuel] turns spawn at most [fuel] workers, and
    for every worker spawned at least one sleep interval has passed. *)
Lemma claim_loop_pace (fuel : nat) (w : World) :
  (List.length (spawned (events_of (run fuel) w)) <= fuel)%nat
  /\ clock w
     + Z.of_N sleep_interval * Z.of_nat (List.length (spawned (events_of (run fuel) w)))
     <= clock (after (run fuel) w).
Proof. pose proof (run_paced fuel w) as H. cbv zeta in H. tauto. Qed.

(** X10: the claim loop spawns no item ahead of its time: after any number
    of turns, every item handed to a worker so far has a scheduled start
    time that the clock has reached. *)
Lemma claim_loop_never_early (fuel : nat) (w : World) :
  Forall (fun j => QueueItemDB.scheduled_start_timestamp j <= clock (after (run fuel) w))
         (spawned (events_of (run fuel) w)).
Proof. pose proof (run_paced fuel w) as H. cbv zeta in H. tauto. Qed.

(** ** What a dispatch never does *)

(** Splits a membership in an explicit list of events into its cases and
    drops those with another constructor. *)
Ltac in_events H :=
  cbn [In] in H;
  repeat (destruct H as [H | H]; [try discriminate H |]);
  try contradiction.

(** X11: a dispatch publishes a status only for a live action that was found
    and that, after the policies, is runnable and neither completed nor
    cancelled; what it publishes is that live action with status scheduled,
    and it publishes at most once.  The only item it deletes is its own, at
    most once.  A write conflict never leaves the worker. *)
Lemma dispatch_publishes_only_runnable (i : QueueItemDB.t) (w : World) :
  let evs := events_of (_handle_execution i) w in
  result (_handle_execution i) w <> Raise StackStormDBObjectWriteConflictError
  /\ (forall l',
        In (StatusPublished l') evs ->
        exists l,
          lookup (QueueItemDB.liveaction_id i) (liveactions w) = Some l
          /\ status_in (LiveActionDB.status (pre_run_policies (liveactions w) l))
                       valid_status = true
          /\ terminal (LiveActionDB.status (pre_run_policies (liveactions w) l)) = false
          /\ l' = as_scheduled (pre_run_policies (liveactions w) l)
          /\ LiveActionDB.status l' = scheduled)
  /\ (forall j, In (QueueDeleted j) evs -> j = i)
  /\ (List.length (filter is_delete evs) <= 1)%nat
  /\ (List.length (filter is_publish evs) <= 1)%nat.
Proof.
  cbv zeta.
  start_run (_handle_execution i) w.
  unfold_worker E. unfold terminal, valid_status in *.
  invert_run; stores_norm; use_lookup; unfold_constants; trace_norm;
    (split; [discriminate |]);
    (split; [intros l' Hin; in_events Hin |]);
    try (split; [intros j Hin; in_events Hin; inversion Hin; reflexivity |];
         cbn [filter is_delete is_publish List.length]; lia).
  all: inversion Hin; subst l'; clear Hin.
  all: eexists; split;
         [match goal with
          | H : find _ _ = Some _ |- _ => rewrite H; reflexivity
          end |].
  all: split; [assumption |]; split; [assumption |].
  all: match goal with
       | |- ?l' = as_scheduled ?l /\ _ =>
           assert (Hl : l' = as_scheduled l);
           [ unfold as_scheduled, needs_update; unfold_constants;
             match goal with
             | H : status_in _ [requested; delayed] = _ |- _ => rewrite H
             end; reflexivity
           | split; [exact Hl | rewrite Hl; apply as_scheduled_status; assumption] ]
       end.
Qed.

(** ** Quiet worlds

    When nobody else acts and no call fails, the handler is on its own:
    every store call goes through and sees the collection as the last
    write of this process left it. *)

Lemma quiet_await w : quiet w -> await w = w.
Proof. exact (@await_quiet w). Qed.

Lemma quiet_io w : quiet w -> io w = (Return tt, w).
Proof. exact (@io_quiet w). Qed.

Lemma undisturbed_ret (A : Type) (a : A) : undisturbed (ret a).
Proof. intros w r w' Hq E. inversion E; subst. split; [exact Hq | discriminate]. Qed.

Lemma undisturbed_raise (A : Type) e : e <> TransientError -> undisturbed (@raise A e).
Proof.
  intros He w r w' Hq E. inversion E; subst. split; [exact Hq |].
  intros H. inversion H. contradiction.
Qed.

Lemma undisturbed_bind (A B : Type) (m : M A) (k : A -> M B) :
  undisturbed m -> (forall a, undisturbed (k a)) -> undisturbed (bind m k).
Proof.
  intros Hm Hk w r w' Hq E. apply bind_inv in E.
  destruct E as [(a & w1 & E1 & E2) | (e & E1 & ->)].
  - destruct (Hm _ _ _ Hq E1) as [Hq1 _]. exact (Hk a _ _ _ Hq1 E2).
  - destruct (Hm _ _ _ Hq E1) as [Hq1 Hn]. split; [exact Hq1 |].
    intros H. apply Hn. inversion H. reflexivity.
Qed.

Lemma undisturbed_try_except (A : Type) (body : M A) c (handler : M A) :
  undisturbed body -> undisturbed handler -> undisturbed (try_except body c handler).
Proof.
  intros Hb Hh w r w' Hq E. apply try_except_inv in E.
  destruct E as [(a & E & ->) | [(w1 & E1 & E2) | (e' & E & _ & ->)]].
  - destruct (Hb _ _ _ Hq E) as [Hq1 _]. split; [exact Hq1 | discriminate].
  - destruct (Hb _ _ _ Hq E1) as [Hq1 _]. exact (Hh _ _ _ Hq1 E2).
  - exact (Hb _ _ _ Hq E).
Qed.

Lemma undisturbed_io : undisturbed io.
Proof.
  intros w r w' Hq E. rewrite (quiet_io Hq) in E. inversion E; subst.
  split; [exact Hq | discriminate].
Qed.

Lemma undisturbed_emit e : undisturbed (emit e).
Proof. intros w r w' Hq E. inversion E; subst. split; [exact Hq | discriminate]. Qed.

Lemma undisturbed_now : undisturbed date.get_datetime_utc_now.
Proof. intros w r w' Hq E. inversion E; subst. split; [exact Hq | discriminate]. Qed.

(** A store call: the suspension point, then a step that keeps the world
    quiet and raises no store fault. *)
Lemma undisturbed_call (A : Type) (step : M A) :
  (forall w r w', quiet w -> step w = (r, w') -> quiet w' /\ r <> Raise TransientError) ->
  undisturbed (io ;; step).
Proof.
  intros Hs. apply undisturbed_bind; [exact undisturbed_io | intros _; exact Hs].
Qed.

Lemma undisturbed_query q : undisturbed (ActionExecutionSchedulingQueue.query q).
Proof.
  apply undisturbed_call. intros w r w' Hq E. inversion E; subst.
  split; [exact Hq | discriminate].
Qed.

Lemma undisturbed_add_or_update i publish :
  undisturbed (ActionExecutionSchedulingQueue.add_or_update i publish).
Proof.
  apply undisturbed_call. intros w r w' Hq E.
  destruct (Collection.cas i (queue w)) as [[i' c'] |]; inversion E; subst;
    (split; [exact Hq | discriminate]).
Qed.

Lemma undisturbed_delete i : undisturbed (ActionExecutionSchedulingQueue.delete i).
Proof.
  apply undisturbed_call. intros w r w' Hq E. inversion E; subst.
  split; [exact Hq | discriminate].
Qed.

Lemma undisturbed_get_liveaction_by_id lid :
  undisturbed (action_utils.get_liveaction_by_id lid).
Proof.
  apply undisturbed_call. intros w r w' Hq E.
  destruct (find _ (liveactions w)); inversion E; subst;
    (split; [exact Hq | discriminate]).
Qed.

Lemma undisturbed_update_status l s publish :
  undisturbed (action_service.update_status l s publish).
Proof.
  apply undisturbed_call. intros w r w' Hq E. inversion E; subst.
  split; [destruct publish; exact Hq | discriminate].
Qed.

Lemma undisturbed_publish_status l : undisturbed (LiveAction.publish_status l).
Proof. apply undisturbed_call. apply undisturbed_emit. Qed.

Lemma undisturbed_apply_pre_run_policies l :
  undisturbed (policy_service.apply_pre_run_policies pre_run_policies l).
Proof.
  apply undisturbed_call. intros w r w' Hq E. inversion E; subst.
  split; [exact Hq | discriminate].
Qed.

Lemma undisturbed_for_each (A : Type) (xs : list A) (body : A -> M unit) :
  (forall x, undisturbed (body x)) -> undisturbed (for_each xs body).
Proof.
  intros Hb. induction xs as [| x xs IH]; cbn [for_each].
  - apply undisturbed_ret.
  - apply undisturbed_bind; [apply Hb | intros _; exact IH].
Qed.

(** Goes through a method along its structure. *)
Ltac undisturbed_steps :=
  unfold LOG.info, LOG.debug, LOG.warning, LOG.exception, eventlet.spawn;
  repeat first
    [ apply undisturbed_ret
    | apply undisturbed_emit
    | apply undisturbed_now
    | apply undisturbed_query
    | apply undisturbed_add_or_update
    | apply undisturbed_delete
    | apply undisturbed_get_liveaction_by_id
    | apply undisturbed_update_status
    | apply undisturbed_publish_status
    | apply undisturbed_apply_pre_run_policies
    | apply undisturbed_raise; discriminate
    | apply undisturbed_try_except
    | apply undisturbed_for_each; intros ?
    | apply undisturbed_bind; [| intros ?]
    | match goal with
      | |- undisturbed (if ?b then _ else _) => destruct b
      | |- undisturbed (match ?o with Some _ => _ | None => _ end) => destruct o
      end ].

Lemma undisturbed_get_next_execution : undisturbed _get_next_execution.
Proof. unfold _get_next_execution. undisturbed_steps. Qed.

Lemma undisturbed_handle_garbage_collection : undisturbed _handle_garbage_collection.
Proof. unfold _handle_garbage_collection. undisturbed_steps. Qed.

Lemma undisturbed_handle_execution i : undisturbed (_handle_execution i).
Proof.
  unfold _handle_execution, _apply_pre_run, _is_execution_queue_item_runnable,
    _update_to_scheduled.
  undisturbed_steps.
Qed.

Lemma current_stored c x :
  NoDup (map QueueItemDB.id (Collection.docs c)) -> In x (Collection.docs c) ->
  Collection.current x c = Some x.
Proof. destruct c as [ds nx]. apply current_unique. Qed.

Lemma cas_stored c x y :
  NoDup (map QueueItemDB.id (Collection.docs c)) -> In x (Collection.docs c) ->
  QueueItemDB.id y = QueueItemDB.id x -> QueueItemDB.rev y = QueueItemDB.rev x ->
  Collection.cas y c = Some (Collection.advance y, Collection.put (Collection.advance y) c).
Proof.
  intros Hnd Hin Hid Hrev. unfold Collection.cas.
  assert (Hc : Collection.current y c = Some x).
  { rewrite <- (@current_stored c x Hnd Hin). unfold Collection.current, Collection.same_id.
    rewrite Hid. reflexivity. }
  rewrite Hc, Hrev, Nat.eqb_refl. reflexivity.
Qed.

Lemma get_next_execution_quiet w i :
  quiet w ->
  NoDup (map QueueItemDB.id (Collection.docs (queue w))) ->
  next_ready (clock w) (queue w) = Some i ->
  _get_next_execution w
  = (Return (Some (Collection.advance (claim_of i))),
     record (QueueWritten (Collection.advance (claim_of i)))
       (with_queue (Collection.put (Collection.advance (claim_of i)) (queue w)) w)).
Proof.
  intros Hq Hnd Hi.
  pose proof (next_ready_some _ _ Hi) as (Hin & _ & _).
  unfold _get_next_execution, bind, date.get_datetime_utc_now,
    ActionExecutionSchedulingQueue.query, bind.
  rewrite (quiet_io Hq).
  change (Collection.first (Collection.select _ (queue w)))
    with (next_ready (clock w) (queue w)).
  rewrite Hi.
  unfold try_except, ActionExecutionSchedulingQueue.add_or_update, bind.
  rewrite (quiet_io Hq).
  fold (claim_of i).
  rewrite (@cas_stored (queue w) i (claim_of i) Hnd Hin eq_refl eq_refl).
  reflexivity.
Qed.

Lemma remove_put j c :
  Collection.remove j (Collection.put j c) = Collection.remove j c.
Proof.
  unfold Collection.remove, Collection.put. cbn [Collection.docs Collection.next_id].
  f_equal. induction (Collection.docs c) as [| r ds IH]; [reflexivity |].
  cbn [map filter]. destruct (Collection.same_id j r) eqn:Hr.
  - assert (Hj : Collection.same_id j j = true)
      by (unfold Collection.same_id; apply Nat.eqb_refl).
    rewrite Hj. cbn [negb]. exact IH.
  - rewrite Hr. cbn [negb]. rewrite IH. reflexivity.
Qed.

(** Rewrites the suspension points of a quiet world away, innermost
    first. *)
Ltac quiet_norm Hq :=
  repeat match goal with
         | |- context [await ?X] => rewrite (@quiet_await X Hq)
         end.

(** The worker on its own, for a live action that is found and is runnable
    after the policies: it runs to the end. *)
Lemma handle_execution_quiet i w l :
  quiet w ->
  lookup (QueueItemDB.liveaction_id i) (liveactions w) = Some l ->
  status_in (LiveActionDB.status (pre_run_policies (liveactions w) l)) valid_status = true ->
  terminal (LiveActionDB.status (pre_run_policies (liveactions w) l)) = false ->
  exists w' evs,
    _handle_execution i w = (Return tt, w')
    /\ trace w' = trace w ++ evs
    /\ effects evs = schedule_effects (pre_run_policies (liveactions w) l) i
    /\ queue w' = Collection.remove i (queue w).
Proof.
  intros Hq Hfound Hvalid Hterm.
  unfold schedule_effects, as_scheduled, needs_update.
  destruct (_handle_execution i w) as [r w'] eqn:E.
  destruct (@undisturbed_handle_execution i w r w' Hq E) as [_ Hnt].
  unfold_worker E. unfold terminal, valid_status in *.
  invert_run; stores_norm; use_lookup; unfold_constants;
    try contradict_status; try not_policy_delayed;
    try (exfalso; apply Hnt; reflexivity);
    repeat match goal with
           | H : status_in _ [requested; delayed] = _ |- _ => rewrite H
           end;
    (eexists; eexists; split; [reflexivity |]);
    trace_norm;
    (split; [reflexivity | split; [reflexivity |]]);
    cbn [queue record with_queue with_liveactions]; quiet_norm Hq; reflexivity.
Qed.

(** X12: a claim and the dispatch of what was claimed, with nobody else
    acting: when the earliest ready item belongs to a live action that is
    found and is runnable after the policies, the item is claimed, the
    status is brought to scheduled and published, and the item is deleted,
    in this order; the run returns, and the collection is left without the
    item and otherwise as it was. *)
Lemma quiet_claim_and_dispatch (w : World) (i : QueueItemDB.t) (l : LiveActionDB.t) :
  quiet w ->
  NoDup (map QueueItemDB.id (Collection.docs (queue w))) ->
  next_ready (clock w) (queue w) = Some i ->
  lookup (QueueItemDB.liveaction_id i) (liveactions w) = Some l ->
  status_in (LiveActionDB.status (pre_run_policies (liveactions w) l)) valid_status = true ->
  terminal (LiveActionDB.status (pre_run_policies (liveactions w) l)) = false ->
  let j := Collection.advance (claim_of i) in
  result claim_and_dispatch w = Return tt
  /\ effects (events_of claim_and_dispatch w)
     = QueueWritten j :: schedule_effects (pre_run_policies (liveactions w) l) j
  /\ queue (after claim_and_dispatch w) = Collection.remove i (queue w).
Proof.
  intros Hq Hnd Hi Hfound Hvalid Hterm j.
  set (w1 := record (QueueWritten j) (with_queue (Collection.put j (queue w)) w)).
  destruct (@handle_execution_quiet j w1 l Hq Hfound Hvalid Hterm)
    as (w' & evs & E & Ht & He & Hqu).
  assert (Ec : claim_and_dispatch w = (Return tt, w')).
  { unfold claim_and_dispatch, bind.
    rewrite (@get_next_execution_quiet w i Hq Hnd Hi). exact E. }
  assert (Htr : trace w' = trace w ++ QueueWritten j :: evs).
  { rewrite Ht. unfold w1. rewrite trace_record, trace_with_queue, <- app_assoc.
    reflexivity. }
  rewrite (@events_of_intro _ claim_and_dispatch w _ w' _ Ec Htr).
  unfold result, after. rewrite Ec. cbn [fst snd].
  split; [reflexivity | split].
  - cbn [effects filter is_log negb]. f_equal. exact He.
  - rewrite Hqu. unfold w1. cbn [queue record with_queue].
    rewrite remove_put. reflexivity.
Qed.

(** ** The collector and the claim loop together *)

Lemma quiet_same_frame : Frame quiet_same (fun _ => True).
Proof.
  constructor; unfold quiet_same.
  - auto.
  - intros w1 w2 w3 H12 H23 Hq. destruct (H12 Hq) as (Hq2 & Hc2 & Hs2).
    destruct (H23 Hq2) as (Hq3 & Hc3 & Hs3). repeat split; congruence.
  - intros w Hq. rewrite (quiet_await Hq). auto.
  - intros c w Hq. auto.
  - intros e w _ Hq. auto.
Qed.

Lemma matches_stuck now r :
  Collection.matches (stuck_query now) r
  = QueueItemDB.handling r
    && (QueueItemDB.scheduled_start_timestamp r
        <=? now - EXECUTION_SCHEDUELING_TIMEOUT_THRESHOLD_MS).
Proof.
  unfold Collection.matches, stuck_query, date.append_milliseconds_to_time.
  cbn [Collection.scheduled_start_timestamp__lte Collection.handling].
  change (now - EXECUTION_SCHEDUELING_TIMEOUT_THRESHOLD_MS)
    with (now + - EXECUTION_SCHEDUELING_TIMEOUT_THRESHOLD_MS).
  destruct (QueueItemDB.handling r); cbn [Bool.eqb andb];
    rewrite ?andb_true_r, ?andb_false_r; reflexivity.
Qed.

(** A tick of the collector on its own: the world it leaves. *)
Lemma gc_quiet_world w :
  quiet w ->
  NoDup (map QueueItemDB.id (Collection.docs (queue w))) ->
  exists w',
    _handle_garbage_collection w = (Return tt, w')
    /\ quiet w' /\ clock w' = clock w
    /\ Collection.docs (queue w')
       = map (fun r => if Collection.matches (stuck_query (clock w)) r
                       then released r else r)
             (Collection.docs (queue w)).
Proof.
  intros Hq Hnd.
  set (xs := Collection.select (stuck_query (clock w)) (queue w)).
  assert (Hxs : xs = filter (Collection.matches (stuck_query (clock w)))
                       (Collection.docs (queue w))) by reflexivity.
  assert (Hndx : NoDup (map QueueItemDB.id xs))
    by (rewrite Hxs; apply NoDup_map_filter; exact Hnd).
  assert (Hcur : forall x, In x xs -> Collection.current x (queue w) = Some x).
  { intros x Hx. rewrite Hxs in Hx. apply filter_In in Hx. destruct Hx as [Hx _].
    apply current_stored; assumption. }
  destruct (@gc_loop_quiet xs w Hq Hndx Hcur) as (w' & Hrun & Hq' & Hdocs).
  assert (E : _handle_garbage_collection w = (Return tt, w')).
  { rewrite handle_garbage_collection_unfold.
    unfold bind, date.get_datetime_utc_now, ActionExecutionSchedulingQueue.query, bind.
    rewrite (quiet_io Hq). exact Hrun. }
  exists w'. split; [exact E | split; [exact Hq' | split]].
  - destruct (@keeps_handle_garbage_collection quiet_same (fun _ => True) quiet_same_frame
                (fun _ _ => I) (fun _ _ _ => I) w _ _ E) as [Hs _].
    apply Hs, Hq.
  - rewrite Hdocs. apply map_ext_in. intros r Hr. unfold gc_reset.
    destruct (find (fun x => Nat.eqb (QueueItemDB.id x) (QueueItemDB.id r)) xs)
      as [y |] eqn:Hf.
    + apply find_some in Hf. destruct Hf as [Hy Hid]. apply Nat.eqb_eq in Hid.
      assert (Hyds : In y (Collection.docs (queue w)))
        by (rewrite Hxs in Hy; apply filter_In in Hy; tauto).
      assert (y = r)
        by (apply (@unique_by_id (Collection.docs (queue w)) Hnd y r Hyds Hr Hid)).
      subst y. rewrite Hxs in Hy. apply filter_In in Hy. destruct Hy as [_ Hy].
      rewrite Hy. reflexivity.
    + destruct (Collection.matches (stuck_query (clock w)) r) eqn:Hmr; auto.
      exfalso.
      assert (Hin : In r xs) by (rewrite Hxs; apply filter_In; auto).
      pose proof (find_none _ _ Hf r Hin) as Hn. cbn beta in Hn.
      rewrite Nat.eqb_refl in Hn. discriminate Hn.
Qed.

Lemma released_not_stuck now ds :
  filter (Collection.matches (stuck_query now))
         (map (fun r => if Collection.matches (stuck_query now) r then released r else r) ds)
  = [].
Proof.
  induction ds as [| r ds IH]; [reflexivity |]. cbn [map filter].
  destruct (Collection.matches (stuck_query now) r) eqn:Hr.
  - rewrite matches_stuck. cbn [released Collection.advance QueueItemDB.handling
      QueueItemDB.set_rev QueueItemDB.set_handling andb]. exact IH.
  - rewrite Hr. exact IH.
Qed.

(** X13: the collector is done after one tick on its own: a second tick at
    the same time finds no stuck item, writes nothing, logs nothing, and
    leaves the world as the first tick left it. *)
Lemma collector_second_tick_finds_nothing (w : World) :
  quiet w ->
  NoDup (map QueueItemDB.id (Collection.docs (queue w))) ->
  let w1 := after _handle_garbage_collection w in
  result _handle_garbage_collection w1 = Return tt
  /\ events_of _handle_garbage_collection w1 = []
  /\ after _handle_garbage_collection w1 = w1.
Proof.
  intros Hq Hnd w1. destruct (gc_quiet_world Hq Hnd) as (w' & E & Hq' & Hc & Hdocs).
  assert (Hw1 : w1 = w') by (unfold w1, after; rewrite E; reflexivity).
  clearbody w1. subst w1.
  assert (E' : _handle_garbage_collection w' = (Return tt, w')).
  { rewrite handle_garbage_collection_unfold.
    unfold bind, date.get_datetime_utc_now, ActionExecutionSchedulingQueue.query, bind.
    rewrite (quiet_io Hq').
    change (Collection.select (stuck_query (clock w')) (queue w'))
      with (filter (Collection.matches (stuck_query (clock w')))
                   (Collection.docs (queue w'))).
    rewrite Hdocs, Hc, released_not_stuck. reflexivity. }
  unfold result, events_of, after. rewrite E'. cbn [fst snd].
  rewrite skipn_length_nil. auto.
Qed.

(** X14: orphan recovery: once the collector has had a tick on its own, an
    item that was stuck (claimed, with a scheduled start time at least the
    threshold in the past) is ready again, so the next claim attempt does
    claim an item, and one that is scheduled no later than the orphan. *)
Lemma orphan_is_claimable_after_collection (w : World) (x : QueueItemDB.t) :
  quiet w ->
  NoDup (map QueueItemDB.id (Collection.docs (queue w))) ->
  In x (Collection.docs (queue w)) ->
  QueueItemDB.handling x = true ->
  QueueItemDB.scheduled_start_timestamp x
  <= clock w - EXECUTION_SCHEDUELING_TIMEOUT_THRESHOLD_MS ->
  let w1 := after _handle_garbage_collection w in
  Collection.current x (queue w1) = Some (released x)
  /\ exists j,
       result _get_next_execution w1 = Return (Some j)
       /\ QueueItemDB.handling j = true
       /\ QueueItemDB.scheduled_start_timestamp j
          <= QueueItemDB.scheduled_start_timestamp x.
Proof.
  intros Hq Hnd Hx Hh Hs w1.
  destruct (gc_quiet_world Hq Hnd) as (w' & E & Hq' & Hc & Hdocs).
  assert (Hw1 : w1 = w') by (unfold w1, after; rewrite E; reflexivity).
  clearbody w1. subst w1.
  assert (Hm : Collection.matches (stuck_query (clock w)) x = true).
  { rewrite matches_stuck, Hh. cbn [andb]. apply Z.leb_le. exact Hs. }
  assert (Hrel : In (released x) (Collection.docs (queue w'))).
  { rewrite Hdocs. apply in_map_iff. exists x. rewrite Hm. auto. }
  assert (Hids : map QueueItemDB.id (Collection.docs (queue w'))
                 = map QueueItemDB.id (Collection.docs (queue w))).
  { rewrite Hdocs, map_map. apply map_ext. intros r.
    destruct (Collection.matches _ r); reflexivity. }
  assert (Hnd' : NoDup (map QueueItemDB.id (Collection.docs (queue w'))))
    by (rewrite Hids; exact Hnd).
  split.
  - change (Collection.current x (queue w'))
      with (Collection.current (released x) (queue w')).
    apply current_stored; assumption.
  - assert (Hready : ready (clock w') (released x)).
    { split; [reflexivity |].
      change (QueueItemDB.scheduled_start_timestamp (released x))
        with (QueueItemDB.scheduled_start_timestamp x).
      rewrite Hc. unfold EXECUTION_SCHEDUELING_TIMEOUT_THRESHOLD_MS in Hs. lia. }
    destruct (next_ready (clock w') (queue w')) as [i |] eqn:Hi.
    + exists (Collection.advance (claim_of i)).
      unfold result. rewrite (@get_next_execution_quiet w' i Hq' Hnd' Hi). cbn [fst].
      split; [reflexivity | split; [reflexivity |]].
      apply next_ready_some in Hi. destruct Hi as (_ & _ & Hmin).
      apply (Hmin (released x) Hrel Hready).
    + exfalso. exact (@next_ready_none (clock w') (queue w') Hi (released x) Hrel Hready).
Qed.

(** ** No starvation *)

Lemma put_ids j c :
  map QueueItemDB.id (Collection.docs (Collection.put j c))
  = map QueueItemDB.id (Collection.docs c).
Proof.
  unfold Collection.put. cbn [Collection.docs]. rewrite map_map.
  apply map_ext. intros r. unfold Collection.same_id.
  destruct (Nat.eqb_spec (QueueItemDB.id r) (QueueItemDB.id j)); congruence.
Qed.

Lemma put_absent (j : QueueItemDB.t) ds :
  ~ In (QueueItemDB.id j) (map QueueItemDB.id ds) ->
  map (fun r => if Collection.same_id j r then j else r) ds = ds.
Proof.
  induction ds as [| d ds IH]; intros H; [reflexivity |]. cbn [map] in *.
  unfold Collection.same_id at 1.
  destruct (Nat.eqb_spec (QueueItemDB.id d) (QueueItemDB.id j)) as [E | E].
  - exfalso. apply H. left. exact E.
  - rewrite IH; [reflexivity |]. intros Hin. apply H. right. exact Hin.
Qed.

Lemma put_keeps_others j x c :
  QueueItemDB.id x <> QueueItemDB.id j ->
  In x (Collection.docs c) -> In x (Collection.docs (Collection.put j c)).
Proof.
  intros Hne Hin. unfold Collection.put. cbn [Collection.docs].
  apply in_map_iff. exists x. split; [| exact Hin].
  unfold Collection.same_id.
  destruct (Nat.eqb_spec (QueueItemDB.id x) (QueueItemDB.id j)); [contradiction | reflexivity].
Qed.

(** A claim takes the claimed item, and nothing else, out of the items that
    are ahead of [x]. *)
Lemma ahead_after_claim x i c :
  NoDup (map QueueItemDB.id (Collection.docs c)) ->
  In i (ahead x c) ->
  S (List.length (ahead x (Collection.put (Collection.advance (claim_of i)) c)))
  = List.length (ahead x c).
Proof.
  unfold ahead, Collection.put. cbn [Collection.docs].
  set (p := fun r => negb (QueueItemDB.handling r)
                     && (QueueItemDB.scheduled_start_timestamp r
                         <=? QueueItemDB.scheduled_start_timestamp x)).
  set (j := Collection.advance (claim_of i)).
  assert (Hpj : p j = false) by reflexivity.
  induction (Collection.docs c) as [| d ds IH]; intros Hnd Hin; [destruct Hin |].
  cbn [map] in Hnd. apply NoDup_cons_iff in Hnd. destruct Hnd as [Hd Hnd].
  cbn [map filter]. unfold Collection.same_id at 1.
  change (QueueItemDB.id j) with (QueueItemDB.id i).
  apply filter_In in Hin. destruct Hin as [Hin Hpi].
  destruct (Nat.eqb_spec (QueueItemDB.id d) (QueueItemDB.id i)) as [E | E].
  - assert (d = i).
    { destruct Hin as [Hin | Hin]; [exact Hin |].
      exfalso. apply Hd. rewrite E. apply in_map. exact Hin. }
    subst d. rewrite Hpj, Hpi. cbn [List.length]. f_equal.
    rewrite put_absent; [reflexivity | exact Hd].
  - assert (Hin' : In i ds).
    { destruct Hin as [Hin | Hin]; [congruence | exact Hin]. }
    assert (IH' := IH Hnd (proj2 (filter_In p i ds) (conj Hin' Hpi))).
    destruct (p d); cbn [List.length]; rewrite ?IH'; reflexivity.
Qed.

Lemma run_body_quiet_claim w i :
  quiet w ->
  NoDup (map QueueItemDB.id (Collection.docs (queue w))) ->
  next_ready (clock w + Z.of_N sleep_interval) (queue w) = Some i ->
  run_body w
  = (Return tt,
     record (Spawned (Collection.advance (claim_of i)))
       (record (QueueWritten (Collection.advance (claim_of i)))
          (with_queue (Collection.put (Collection.advance (claim_of i)) (queue w))
             (tick sleep_interval w)))).
Proof.
  intros Hq Hnd Hi. unfold run_body, bind, eventlet.sleep.
  rewrite (@quiet_await (tick sleep_interval w) Hq).
  rewrite (@get_next_execution_quiet (tick sleep_interval w) i Hq Hnd Hi).
  reflexivity.
Qed.

Lemma while_trace fuel w r w' :
  while_not_shutdown fuel run_body w = (r, w') ->
  exists evs, trace w' = trace w ++ evs.
Proof.
  intros E.
  destruct (@keeps_while (grown_by claim_event) claim_event (grown_by_frame claim_event)
              (fun e => e = TransientError) run_body fuel
              (@keeps_run_body (grown_by claim_event) claim_event
                 (grown_by_frame claim_event)
                 (grown_by_tick claim_event sleep_interval)
                 (fun j H => H) (fun _ => I) (fun _ _ _ => I))
              w r w' E) as [[_ (evs & Ht & _)] _].
  exists evs. exact Ht.
Qed.

Lemma quiet_loop_reaches x :
  forall fuel w r w',
    quiet w ->
    NoDup (map QueueItemDB.id (Collection.docs (queue w))) ->
    _shutdown w = false ->
    In x (Collection.docs (queue w)) ->
    QueueItemDB.handling x = false ->
    QueueItemDB.scheduled_start_timestamp x <= clock w + Z.of_N sleep_interval ->
    (List.length (ahead x (queue w)) <= fuel)%nat ->
    while_not_shutdown fuel run_body w = (r, w') ->
    exists evs,
      trace w' = trace w ++ evs
      /\ In (QueueItemDB.id x) (map QueueItemDB.id (spawned evs)).
Proof.
  induction fuel as [| fuel IH]; intros w r w' Hq Hnd Hs Hx Hh Hdue Hlen E.
  - exfalso.
    assert (Hin : In x (ahead x (queue w))).
    { unfold ahead. apply filter_In. split; [exact Hx |].
      rewrite Hh. cbn [negb andb]. apply Z.leb_le. lia. }
    destruct (ahead x (queue w)); [destruct Hin | cbn [List.length] in Hlen; lia].
  - cbn [while_not_shutdown] in E. rewrite Hs in E.
    assert (Hready : ready (clock w + Z.of_N sleep_interval) x) by (split; assumption).
    destruct (next_ready (clock w + Z.of_N sleep_interval) (queue w)) as [i |] eqn:Hi;
      [| exfalso; exact (@next_ready_none _ _ Hi x Hx Hready)].
    pose proof (@next_ready_some _ _ _ Hi) as (Hin & [Hih Hidue] & Hmin).
    unfold bind in E. rewrite (@run_body_quiet_claim w i Hq Hnd Hi) in E.
    set (j := Collection.advance (claim_of i)) in *.
    set (w1 := record (Spawned j)
                 (record (QueueWritten j)
                    (with_queue (Collection.put j (queue w)) (tick sleep_interval w))))
      in *.
    destruct (@while_trace fuel w1 r w' E) as (evs & Ht).
    assert (Ht1 : trace w1 = trace w ++ [QueueWritten j; Spawned j]).
    { unfold w1. trace_norm. reflexivity. }
    destruct (Nat.eq_dec (QueueItemDB.id i) (QueueItemDB.id x)) as [Eid | Nid].
    + exists ([QueueWritten j; Spawned j] ++ evs).
      rewrite Ht, Ht1, <- app_assoc. split; [reflexivity |].
      cbn [app spawned map]. left. exact Eid.
    + assert (Hia : In i (ahead x (queue w))).
      { unfold ahead. apply filter_In. split; [exact Hin |].
        rewrite Hih. cbn [negb andb]. apply Z.leb_le. apply Hmin; assumption. }
      pose proof (@ahead_after_claim x i (queue w) Hnd Hia) as Hless.
      assert (Hnd1 : NoDup (map QueueItemDB.id (Collection.docs (queue w1))))
        by (unfold w1; cbn [queue record with_queue]; rewrite put_ids; exact Hnd).
      assert (Hx1 : In x (Collection.docs (queue w1))).
      { unfold w1. cbn [queue record with_queue]. apply put_keeps_others; [| exact Hx].
        change (QueueItemDB.id j) with (QueueItemDB.id i). congruence. }
      assert (Hdue1 : QueueItemDB.scheduled_start_timestamp x
                      <= clock w1 + Z.of_N sleep_interval).
      { unfold w1. cbn [clock record with_queue tick]. lia. }
      assert (Hlen1 : (List.length (ahead x (queue w1)) <= fuel)%nat).
      { unfold w1. cbn [queue record with_queue]. fold j in Hless. lia. }
      destruct (IH w1 r w' Hq Hnd1 Hs Hx1 Hh Hdue1 Hlen1 E) as (evs' & Ht' & Hsp).
      exists ([QueueWritten j; Spawned j] ++ evs').
      rewrite Ht', Ht1, <- app_assoc. split; [reflexivity |].
      rewrite spawned_app, map_app. apply in_or_app. right. exact Hsp.
Qed.

(** X15: no starvation: left to itself, the claim loop gets to every item
    that is due.  An unclaimed item whose time has come when the first turn
    reads the clock is handed to a worker within as many turns as there are
    unclaimed items scheduled no later than it: each turn claims the
    earliest ready item, so items are served in the order of their scheduled
    start. *)
Lemma due_item_is_spawned (fuel : nat) (w : World) (x : QueueItemDB.t) :
  quiet w ->
  NoDup (map QueueItemDB.id (Collection.docs (queue w))) ->
  _shutdown w = false ->
  In x (Collection.docs (queue w)) ->
  QueueItemDB.handling x = false ->
  QueueItemDB.scheduled_start_timestamp x <= clock w + Z.of_N sleep_interval ->
  (List.length (ahead x (queue w)) <= fuel)%nat ->
  In (QueueItemDB.id x) (map QueueItemDB.id (spawned (events_of (run fuel) w))).
Proof.
  intros Hq Hnd Hs Hx Hh Hdue Hlen.
  destruct (run fuel w) as [r w'] eqn:E. pose proof E as E0.
  rewrite run_unfold in E0. apply bind_inv in E0.
  destruct E0 as [(a & w1 & E1 & E2) | (e & E1 & ->)];
    apply emit_inv in E1; destruct E1 as [E1 ->]; [| discriminate E1].
  destruct (@quiet_loop_reaches x fuel
              (record (Logged DEBUG Entering_scheduler_loop []) w) r w'
              Hq Hnd Hs Hx Hh Hdue Hlen E2)
    as (evs & Ht & Hsp).
  rewrite trace_record, <- app_assoc in Ht.
  rewrite (@events_of_intro _ (run fuel) w r w' _ E Ht).
  cbn [app spawned]. exact Hsp.
Qed.

End Handler.

(** ** The code at work *)

(** C1: the policy-delay branch as the code has it.  Item 1 is claimed at
    time 10000 and its live action is policy-delayed: the status goes to
    delayed, nothing is published or deleted, and the item is written back
    with start time 11500, but still with [handling] set, so the claim loop
    does not see it when that time has come. *)
Theorem C1_policy_delay_leaves_handling_set :
  let w := Scenario.world 10000 [Scenario.Q1] [Scenario.L1 requested] in
  let m := claim_and_dispatch Scenario.delaying_policies
             Scenario.LIVEACTION_COMPLETED_STATES Scenario.LIVEACTION_CANCEL_STATES in
  result m w = Return tt
  /\ effects (events_of m w)
     = [QueueWritten Scenario.Q1_claimed;
        StatusUpdated (Scenario.L1 delayed) false;
        QueueWritten
          (Collection.advance
             (QueueItemDB.set_scheduled_start_timestamp 11500 Scenario.Q1_claimed))]
  /\ Collection.docs (queue (after m w))
     = [{| QueueItemDB.id := 1; QueueItemDB.rev := 2; QueueItemDB.liveaction_id := 7;
           QueueItemDB.action_execution_id := 70; QueueItemDB.original_start_timestamp := 0;
           QueueItemDB.scheduled_start_timestamp := 11500; QueueItemDB.delay := None;
           QueueItemDB.handling := true |}]
  /\ result _get_next_execution (tick 1500 (after m w)) = Return None.
Proof. vm_compute. repeat split. Qed.

(** C10: [_apply_pre_run] tests for the policy-delayed status with [is], the
    identity of the string object, where every other status test of the
    handler goes by value.  Live action 7 is stored as policy-delayed and no
    policy touches it: its status, read from the database, equals the
    constant without being the constant, so [_apply_pre_run] does nothing
    and hands the live action back, policy-delayed as it is.  The worker
    then finds it not runnable and deletes its queue item: the execution is
    never tried again.  When the policies have just assigned the constant,
    the same call takes the delay branch and returns [None]. *)
Theorem C10_policy_delayed_from_the_database_is_handed_back :
  let w := Scenario.world 10000 [Scenario.Q1_claimed] [Scenario.L1 policy_delayed] in
  let l := LiveActionDB.loaded (Scenario.L1 policy_delayed) in
  let m := _apply_pre_run Scenario.no_policies Scenario.LIVEACTION_COMPLETED_STATES
             Scenario.LIVEACTION_CANCEL_STATES l Scenario.Q1_claimed in
  let m' := _apply_pre_run Scenario.delaying_policies Scenario.LIVEACTION_COMPLETED_STATES
              Scenario.LIVEACTION_CANCEL_STATES l Scenario.Q1_claimed in
  let h := _handle_execution Scenario.no_policies Scenario.LIVEACTION_COMPLETED_STATES
             Scenario.LIVEACTION_CANCEL_STATES Scenario.Q1_claimed in
  lookup (QueueItemDB.liveaction_id Scenario.Q1_claimed) (liveactions w) = Some l
  /\ (exists l', result m w = Return (Some l')
                 /\ LiveActionDB.status l' = policy_delayed)
  /\ effects (events_of m w) = []
  /\ result m' w = Return None
  /\ effects (events_of m' w)
     = [StatusUpdated (Scenario.L1 delayed) false;
        QueueWritten
          (Collection.advance
             (QueueItemDB.set_scheduled_start_timestamp 11500 Scenario.Q1_claimed))]
  /\ result h w = Return tt
  /\ effects (events_of h w) = [QueueDeleted Scenario.Q1_claimed]
  /\ Collection.docs (queue (after h w)) = [].
Proof.
  vm_compute. repeat split. eexists. split; reflexivity.
Qed.

(** C6: the collector compares the scheduled start time, not the time of the
    last update.  Item 1, due at time 0, is claimed at time 59000; the
    collector's tick at time 60000 releases it although the claim was written
    1000 ms before.  And an item claimed at time 0 and policy-delayed (start
    time 1500, [handling] still set, last written at time 0) is left alone by
    the tick at time 60000, 60000 ms after its last update. *)
Theorem C6_collector_goes_by_scheduled_start :
  (let w := Scenario.world 59000 [Scenario.Q1] [Scenario.L1 requested] in
   let m := (_get_next_execution ;; cleanup 1000 1)%handler in
   clock (after _get_next_execution w) = 59000
   /\ Collection.docs (queue (after _get_next_execution w)) = [Scenario.Q1_claimed]
   /\ clock (after m w) = 60000
   /\ Collection.docs (queue (after m w))
      = [Collection.advance (QueueItemDB.set_handling false Scenario.Q1_claimed)])
  /\ (let w := Scenario.world 0 [Scenario.Q1] [Scenario.L1 requested] in
      let claim := claim_and_dispatch Scenario.delaying_policies
                     Scenario.LIVEACTION_COMPLETED_STATES Scenario.LIVEACTION_CANCEL_STATES in
      let m := (claim ;; cleanup 60000 1)%handler in
      clock (after claim w) = 0
      /\ clock (after m w) = 60000
      /\ Collection.docs (queue (after m w)) = Collection.docs (queue (after claim w))
      /\ map QueueItemDB.handling (Collection.docs (queue (after m w))) = [true]).
Proof. vm_compute. repeat split. Qed.

(** *** The scenarios of the specification *)

(** S1, the happy path: the requested live action becomes scheduled, the
    status is published once, and the item is deleted. *)
Example scenario_happy_path :
  let w := Scenario.world 1000 [Scenario.Q1] [Scenario.L1 requested] in
  let m := claim_and_dispatch Scenario.no_policies
             Scenario.LIVEACTION_COMPLETED_STATES Scenario.LIVEACTION_CANCEL_STATES in
  result m w = Return tt
  /\ effects (events_of m w)
     = [QueueWritten Scenario.Q1_claimed;
        StatusUpdated (Scenario.L1 scheduled) false;
        StatusPublished (Scenario.L1 scheduled);
        QueueDeleted Scenario.Q1_claimed]
  /\ liveactions (after m w) = [Scenario.L1 scheduled]
  /\ Collection.docs (queue (after m w)) = [].
Proof. vm_compute. repeat split. Qed.

(** S3, the concurrent claim: another scheduler claims the item between the
    query and the write of this one, which logs the conflict and returns
    nothing. *)
Example scenario_concurrent_claim :
  let quiet := {| elapsed := 0; fleet := []; stop := false; fault := false |} in
  let rival :=
    {| elapsed := 0; fleet := [AddOrUpdate (QueueItemDB.set_handling true Scenario.Q1)];
       stop := false; fault := false |} in
  let w :=
    {| queue := {| Collection.docs := [Scenario.Q1]; Collection.next_id := 2 |};
       liveactions := [Scenario.L1 requested]; clock := 1000; _shutdown := false;
       env := [quiet; rival]; trace := [] |} in
  result _get_next_execution w = Return None
  /\ events_of _get_next_execution w = [conflict_line Scenario.Q1]
  /\ Collection.docs (queue (after _get_next_execution w)) = [Scenario.Q1_claimed]
  /\ events_of (run_body 100) w = [].
Proof. vm_compute. repeat split. Qed.

(** S4, the orphan: the item is claimed at time 0 and never dispatched; the
    collector's tick at time 60001 releases it and the next claim succeeds. *)
Example scenario_orphan_recovery :
  let w := Scenario.world 0 [Scenario.Q1] [Scenario.L1 requested] in
  let m := (_get_next_execution ;; cleanup 60001 1)%handler in
  map QueueItemDB.handling (Collection.docs (queue (after _get_next_execution w))) = [true]
  /\ map QueueItemDB.handling (Collection.docs (queue (after m w))) = [false]
  /\ result _get_next_execution (after m w)
     = Return (Some (Collection.advance
                       (QueueItemDB.set_handling true
                          (Collection.advance
                             (QueueItemDB.set_handling false Scenario.Q1_claimed))))).
Proof. vm_compute. repeat split. Qed.

(** *** The theorems at concrete inputs *)

Lemma C2_publish_before_delete_witness :
  let i := Scenario.Q1_claimed in
  let w := Scenario.world 10000 [Scenario.Q1_claimed] [Scenario.L1 requested] in
  let m := _handle_execution Scenario.no_policies Scenario.LIVEACTION_COMPLETED_STATES
             Scenario.LIVEACTION_CANCEL_STATES i in
  lookup (QueueItemDB.liveaction_id i) (liveactions w) = Some (Scenario.L1 requested)
  /\ status_in (LiveActionDB.status (Scenario.no_policies (liveactions w) (Scenario.L1 requested)))
               [requested; scheduled; delayed] = true
  /\ terminal Scenario.LIVEACTION_COMPLETED_STATES Scenario.LIVEACTION_CANCEL_STATES
              (LiveActionDB.status (Scenario.no_policies (liveactions w) (Scenario.L1 requested)))
     = false
  /\ precedes is_publish is_delete (events_of m w)
  /\ match result m w with
     | Return _ =>
         effects (events_of m w)
         = schedule_effects (Scenario.no_policies (liveactions w) (Scenario.L1 requested)) i
         /\ LiveActionDB.status
              (as_scheduled (Scenario.no_policies (liveactions w) (Scenario.L1 requested)))
            = scheduled
     | Raise e => e = TransientError /\ filter is_delete (events_of m w) = []
     end.
Proof.
  intros i w m.
  assert (H1 : lookup (QueueItemDB.liveaction_id i) (liveactions w)
               = Some (Scenario.L1 requested)) by reflexivity.
  assert (H2 : status_in
                 (LiveActionDB.status
                    (Scenario.no_policies (liveactions w) (Scenario.L1 requested)))
                 [requested; scheduled; delayed] = true) by reflexivity.
  assert (H3 : terminal Scenario.LIVEACTION_COMPLETED_STATES Scenario.LIVEACTION_CANCEL_STATES
                 (LiveActionDB.status
                    (Scenario.no_policies (liveactions w) (Scenario.L1 requested)))
               = false) by reflexivity.
  split; [exact H1 | split; [exact H2 | split; [exact H3 |]]].
  exact (@C2_publish_before_delete Scenario.no_policies Scenario.LIVEACTION_COMPLETED_STATES
           Scenario.LIVEACTION_CANCEL_STATES i w (Scenario.L1 requested) H1 H2 H3).
Defined.

Lemma C3_claim_or_conflict_witness :
  let w := Scenario.world 10000 [Scenario.Q1] [Scenario.L1 requested] in
  Collection.wf (queue w)
  /\ match result _get_next_execution w with
     | Return (Some j) =>
         exists i c',
           next_ready (clock w) (queue (idle 1 w)) = Some i
           /\ j = Collection.advance (claim_of i)
           /\ Collection.cas (claim_of i) (queue (idle 2 w)) = Some (j, c')
           /\ queue (after _get_next_execution w) = c'
           /\ forall ops k,
                QueueItemDB.id k = QueueItemDB.id i ->
                QueueItemDB.rev k = QueueItemDB.rev i ->
                Collection.cas k (fold_left apply_op ops c') = None
     | Return None =>
         written (events_of _get_next_execution w) = []
         /\ ((next_ready (clock w) (queue (idle 1 w)) = None
              /\ same_stores (after _get_next_execution w) (idle 1 w))
             \/ exists i,
                  next_ready (clock w) (queue (idle 1 w)) = Some i
                  /\ Collection.cas (claim_of i) (queue (idle 2 w)) = None
                  /\ events_of _get_next_execution w = [conflict_line i]
                  /\ same_stores (after _get_next_execution w) (idle 2 w))
     | Raise e =>
         e = TransientError
         /\ events_of _get_next_execution w = []
         /\ (same_stores (after _get_next_execution w) (idle 1 w)
             \/ same_stores (after _get_next_execution w) (idle 2 w))
     end
  /\ spawned (events_of (run_body 100) w) = written (events_of (run_body 100) w).
Proof.
  intros w.
  assert (H : Collection.wf (queue w)).
  { unfold Collection.wf. cbn. repeat constructor. }
  split; [exact H |].
  exact (@C3_claim_or_conflict 100 w H).
Defined.

Lemma C4_missing_liveaction_witness :
  let i := Scenario.Q1_claimed in
  let w := Scenario.world 10000 [Scenario.Q1_claimed] [] in
  let m := _handle_execution Scenario.no_policies Scenario.LIVEACTION_COMPLETED_STATES
             Scenario.LIVEACTION_CANCEL_STATES i in
  lookup (QueueItemDB.liveaction_id i) (liveactions w) = None
  /\ (QueueItemDB.id i < Collection.next_id (queue w))%nat
  /\ match result m w with
     | Raise StackStormDBObjectNotFoundError =>
         effects (events_of m w) = [QueueDeleted i]
         /\ Collection.current i (queue (after m w)) = None
         /\ forall fuel j,
              In j (spawned (events_of (run 100 fuel) (after m w))) ->
              QueueItemDB.id j <> QueueItemDB.id i
     | Raise TransientError =>
         effects (events_of m w) = [] /\ fault_within 2 w = true
     | _ => False
     end.
Proof.
  intros i w m.
  assert (H1 : lookup (QueueItemDB.liveaction_id i) (liveactions w) = None) by reflexivity.
  assert (H2 : (QueueItemDB.id i < Collection.next_id (queue w))%nat) by (cbn; lia).
  split; [exact H1 | split; [exact H2 |]].
  exact (@C4_missing_liveaction Scenario.no_policies Scenario.LIVEACTION_COMPLETED_STATES
           Scenario.LIVEACTION_CANCEL_STATES 100 i w H1 H2).
Defined.

Lemma C7_not_runnable_is_dropped_witness :
  let i := Scenario.Q1_claimed in
  let w := Scenario.world 10000 [Scenario.Q1_claimed] [Scenario.L1 canceled] in
  let m := _handle_execution Scenario.no_policies Scenario.LIVEACTION_COMPLETED_STATES
             Scenario.LIVEACTION_CANCEL_STATES i in
  terminal Scenario.LIVEACTION_COMPLETED_STATES Scenario.LIVEACTION_CANCEL_STATES
           policy_delayed = false
  /\ lookup (QueueItemDB.liveaction_id i) (liveactions w) = Some (Scenario.L1 canceled)
  /\ (terminal Scenario.LIVEACTION_COMPLETED_STATES Scenario.LIVEACTION_CANCEL_STATES
               (LiveActionDB.status (Scenario.no_policies (liveactions w) (Scenario.L1 canceled)))
      = true
      \/ (status_in (LiveActionDB.status
                       (Scenario.no_policies (liveactions w) (Scenario.L1 canceled)))
                    [requested; scheduled; delayed] = false
          /\ LiveActionDB.status
               (Scenario.no_policies (liveactions w) (Scenario.L1 canceled))
             <> policy_delayed))
  /\ match result m w with
     | Return _ =>
         effects (events_of m w) = [QueueDeleted i]
         /\ Collection.current i (queue (after m w)) = None
     | Raise e =>
         e = TransientError /\ effects (events_of m w) = []
         /\ fault_within 3 w = true
     end.
Proof.
  intros i w m.
  assert (H0 : terminal Scenario.LIVEACTION_COMPLETED_STATES
                 Scenario.LIVEACTION_CANCEL_STATES policy_delayed = false)
    by reflexivity.
  assert (H1 : lookup (QueueItemDB.liveaction_id i) (liveactions w)
               = Some (Scenario.L1 canceled)) by reflexivity.
  assert (H3 : terminal Scenario.LIVEACTION_COMPLETED_STATES Scenario.LIVEACTION_CANCEL_STATES
                 (LiveActionDB.status
                    (Scenario.no_policies (liveactions w) (Scenario.L1 canceled)))
               = true
               \/ (status_in (LiveActionDB.status
                                (Scenario.no_policies (liveactions w) (Scenario.L1 canceled)))
                             [requested; scheduled; delayed] = false
                   /\ LiveActionDB.status
                        (Scenario.no_policies (liveactions w) (Scenario.L1 canceled))
                      <> policy_delayed))
    by (left; reflexivity).
  split; [exact H0 | split; [exact H1 | split; [exact H3 |]]].
  exact (@C7_not_runnable_is_dropped Scenario.no_policies Scenario.LIVEACTION_COMPLETED_STATES
           Scenario.LIVEACTION_CANCEL_STATES i w (Scenario.L1 canceled) H0 H1 H3).
Defined.


Lemma gc_quiet_run_witness :
  let w := Scenario.world 60000 [Scenario.Q1_claimed] [Scenario.L1 requested] in
  env w = []
  /\ NoDup (map QueueItemDB.id (Collection.docs (queue w)))
  /\ result _handle_garbage_collection w = Return tt
  /\ Collection.docs (queue (after _handle_garbage_collection w))
     = map (fun r =>
              if QueueItemDB.handling r
                 && (QueueItemDB.scheduled_start_timestamp r
                     <=? clock w - EXECUTION_SCHEDUELING_TIMEOUT_THRESHOLD_MS)
              then Collection.advance (QueueItemDB.set_handling false r)
              else r)
           (Collection.docs (queue w)).
Proof.
  intros w.
  assert (H1 : env w = []) by reflexivity.
  assert (H2 : NoDup (map QueueItemDB.id (Collection.docs (queue w)))).
  { cbn. constructor; [intros [] | constructor]. }
  split; [exact H1 | split; [exact H2 |]].
  exact (@gc_quiet_run w H1 H2).
Defined.

Lemma loops_stop_on_shutdown_witness :
  let w :=
    {| queue := {| Collection.docs := [Scenario.Q1]; Collection.next_id := 2 |};
       liveactions := [Scenario.L1 requested]; clock := 1000; _shutdown := false;
       env := [{| elapsed := 0; fleet := []; stop := true; fault := false |}];
       trace := [] |} in
  stop_within 1 w = true
  /\ (1 <= 3)%nat
  /\ run 100 3 w = run 100 1 w
  /\ cleanup 30000 3 w = cleanup 30000 1 w
  /\ (result (run 100 3) w = Return tt -> _shutdown (after (run 100 3) w) = true)
  /\ (result (cleanup 30000 3) w = Return tt
      -> _shutdown (after (cleanup 30000 3) w) = true).
Proof.
  intros w.
  assert (H1 : stop_within 1 w = true) by reflexivity.
  assert (H2 : (1 <= 3)%nat) by lia.
  split; [exact H1 | split; [exact H2 |]].
  exact (@loops_stop_on_shutdown 100 30000 1 w H1 3%nat H2).
Defined.

Lemma at_most_one_spawn_after_shutdown_witness :
  let w :=
    {| queue := {| Collection.docs := [Scenario.Q1]; Collection.next_id := 2 |};
       liveactions := [Scenario.L1 requested]; clock := 1000; _shutdown := false;
       env := [{| elapsed := 0; fleet := []; stop := true; fault := false |}];
       trace := [] |} in
  stop_within 1 w = true
  /\ (List.length (spawned (events_of (run 100 4) w)) <= 1)%nat
  /\ (_shutdown w = true -> spawned (events_of (run 100 4) w) = [])
  /\ spawned (events_of (run 100 4) (after shutdown w)) = [].
Proof.
  intros w.
  assert (H1 : stop_within 1 w = true) by reflexivity.
  split; [exact H1 |].
  exact (@at_most_one_spawn_after_shutdown 100 4%nat w H1).
Defined.

Lemma loops_end_on_store_fault_witness :
  let calm := {| elapsed := 0; fleet := []; stop := false; fault := false |} in
  let failing := {| elapsed := 0; fleet := []; stop := false; fault := true |} in
  let w :=
    {| queue := {| Collection.docs := [Scenario.Q1]; Collection.next_id := 2 |};
       liveactions := [Scenario.L1 requested]; clock := 1000; _shutdown := false;
       env := [calm; failing]; trace := [] |} in
  _shutdown w = false
  /\ env w = [calm; failing]
  /\ fault failing = true
  /\ (result (run 100 5) w = Raise TransientError
      /\ events_of (run 100 5) w = [Logged DEBUG Entering_scheduler_loop []]
      /\ env (after (run 100 5) w) = [])
  /\ (result (cleanup 30000 5) w = Raise TransientError
      /\ events_of (cleanup 30000 5) w
         = [Logged DEBUG Starting_scheduler_garbage_collection []]
      /\ env (after (cleanup 30000 5) w) = []).
Proof.
  intros calm failing w.
  assert (H1 : _shutdown w = false) by reflexivity.
  assert (H2 : env w = [calm; failing]) by reflexivity.
  assert (H3 : fault failing = true) by reflexivity.
  split; [exact H1 | split; [exact H2 | split; [exact H3 |]]].
  exact (@loops_end_on_store_fault 100 30000 4 w calm failing [] H1 H2 H3).
Defined.

Lemma quiet_claim_and_dispatch_witness :
  let w := Scenario.world 1000 [Scenario.Q1] [Scenario.L1 requested] in
  let m := claim_and_dispatch Scenario.no_policies
             Scenario.LIVEACTION_COMPLETED_STATES Scenario.LIVEACTION_CANCEL_STATES in
  let l := Scenario.no_policies (liveactions w) (Scenario.L1 requested) in
  quiet w
  /\ NoDup (map QueueItemDB.id (Collection.docs (queue w)))
  /\ next_ready (clock w) (queue w) = Some Scenario.Q1
  /\ lookup (QueueItemDB.liveaction_id Scenario.Q1) (liveactions w)
     = Some (Scenario.L1 requested)
  /\ status_in (LiveActionDB.status l) valid_status = true
  /\ terminal Scenario.LIVEACTION_COMPLETED_STATES Scenario.LIVEACTION_CANCEL_STATES
       (LiveActionDB.status l) = false
  /\ result m w = Return tt
  /\ effects (events_of m w)
     = QueueWritten Scenario.Q1_claimed :: schedule_effects l Scenario.Q1_claimed
  /\ queue (after m w) = Collection.remove Scenario.Q1 (queue w).
Proof.
  intros w m l.
  assert (H1 : quiet w) by reflexivity.
  assert (H2 : NoDup (map QueueItemDB.id (Collection.docs (queue w)))).
  { cbn. constructor; [intros [] | constructor]. }
  assert (H3 : next_ready (clock w) (queue w) = Some Scenario.Q1) by reflexivity.
  assert (H4 : lookup (QueueItemDB.liveaction_id Scenario.Q1) (liveactions w)
               = Some (Scenario.L1 requested)) by reflexivity.
  assert (H5 : status_in (LiveActionDB.status l) valid_status = true) by reflexivity.
  assert (H6 : terminal Scenario.LIVEACTION_COMPLETED_STATES
                 Scenario.LIVEACTION_CANCEL_STATES (LiveActionDB.status l) = false)
    by reflexivity.
  split; [exact H1 | split; [exact H2 | split; [exact H3 | split; [exact H4 |
    split; [exact H5 | split; [exact H6 |]]]]]].
  exact (@quiet_claim_and_dispatch Scenario.no_policies
           Scenario.LIVEACTION_COMPLETED_STATES Scenario.LIVEACTION_CANCEL_STATES
           w Scenario.Q1 (Scenario.L1 requested) H1 H2 H3 H4 H5 H6).
Defined.

Lemma collector_second_tick_finds_nothing_witness :
  let w := Scenario.world 60000 [Scenario.Q1_claimed] [Scenario.L1 requested] in
  let w1 := after _handle_garbage_collection w in
  quiet w
  /\ NoDup (map QueueItemDB.id (Collection.docs (queue w)))
  /\ result _handle_garbage_collection w1 = Return tt
  /\ events_of _handle_garbage_collection w1 = []
  /\ after _handle_garbage_collection w1 = w1.
Proof.
  intros w w1.
  assert (H1 : quiet w) by reflexivity.
  assert (H2 : NoDup (map QueueItemDB.id (Collection.docs (queue w)))).
  { cbn. constructor; [intros [] | constructor]. }
  split; [exact H1 | split; [exact H2 |]].
  exact (@collector_second_tick_finds_nothing w H1 H2).
Defined.

Lemma orphan_is_claimable_after_collection_witness :
  let w := Scenario.world 60000 [Scenario.Q1_claimed] [Scenario.L1 requested] in
  let x := Scenario.Q1_claimed in
  let w1 := after _handle_garbage_collection w in
  quiet w
  /\ NoDup (map QueueItemDB.id (Collection.docs (queue w)))
  /\ In x (Collection.docs (queue w))
  /\ QueueItemDB.handling x = true
  /\ QueueItemDB.scheduled_start_timestamp x
     <= clock w - EXECUTION_SCHEDUELING_TIMEOUT_THRESHOLD_MS
  /\ Collection.current x (queue w1) = Some (released x)
  /\ exists j,
       result _get_next_execution w1 = Return (Some j)
       /\ QueueItemDB.handling j = true
       /\ QueueItemDB.scheduled_start_timestamp j
          <= QueueItemDB.scheduled_start_timestamp x.
Proof.
  intros w x w1.
  assert (H1 : quiet w) by reflexivity.
  assert (H2 : NoDup (map QueueItemDB.id (Collection.docs (queue w)))).
  { cbn. constructor; [intros [] | constructor]. }
  assert (H3 : In x (Collection.docs (queue w))) by (left; reflexivity).
  assert (H4 : QueueItemDB.handling x = true) by reflexivity.
  assert (H5 : QueueItemDB.scheduled_start_timestamp x
               <= clock w - EXECUTION_SCHEDUELING_TIMEOUT_THRESHOLD_MS)
    by (vm_compute; discriminate).
  split; [exact H1 | split; [exact H2 | split; [exact H3 | split; [exact H4 |
    split; [exact H5 |]]]]].
  exact (@orphan_is_claimable_after_collection w x H1 H2 H3 H4 H5).
Defined.

Lemma due_item_is_spawned_witness :
  let x :=
    {| QueueItemDB.id := 2; QueueItemDB.rev := 0; QueueItemDB.liveaction_id := 8;
       QueueItemDB.action_execution_id := 80; QueueItemDB.original_start_timestamp := 500;
       QueueItemDB.scheduled_start_timestamp := 500; QueueItemDB.delay := None;
       QueueItemDB.handling := false |} in
  let w :=
    {| queue := {| Collection.docs := [x; Scenario.Q1]; Collection.next_id := 3 |};
       liveactions := [Scenario.L1 requested]; clock := 1000; _shutdown := false;
       env := []; trace := [] |} in
  quiet w
  /\ NoDup (map QueueItemDB.id (Collection.docs (queue w)))
  /\ _shutdown w = false
  /\ In x (Collection.docs (queue w))
  /\ QueueItemDB.handling x = false
  /\ QueueItemDB.scheduled_start_timestamp x <= clock w + Z.of_N 100
  /\ (List.length (ahead x (queue w)) <= 2)%nat
  /\ In (QueueItemDB.id x) (map QueueItemDB.id (spawned (events_of (run 100 2) w))).
Proof.
  intros x w.
  assert (H1 : quiet w) by reflexivity.
  assert (H2 : NoDup (map QueueItemDB.id (Collection.docs (queue w)))).
  { cbn. constructor; [intros [H | []]; discriminate H |].
    constructor; [intros [] | constructor]. }
  assert (H3 : _shutdown w = false) by reflexivity.
  assert (H4 : In x (Collection.docs (queue w))) by (left; reflexivity).
  assert (H5 : QueueItemDB.handling x = false) by reflexivity.
  assert (H6 : QueueItemDB.scheduled_start_timestamp x <= clock w + Z.of_N 100)
    by (vm_compute; discriminate).
  assert (H7 : (List.length (ahead x (queue w)) <= 2)%nat) by (vm_compute; lia).
  split; [exact H1 | split; [exact H2 | split; [exact H3 | split; [exact H4 |
    split; [exact H5 | split; [exact H6 | split; [exact H7 |]]]]]]].
  exact (@due_item_is_spawned 100 2%nat w x H1 H2 H3 H4 H5 H6 H7).
Defined.

(** * The dig action: what is proved *)

Lemma dig_split_without_separator c s :
  dig.search c s = false -> dig.split c s = [s].
Proof.
  induction s as [| a s IH]; cbn [dig.search dig.split]; [reflexivity |].
  intros H. apply orb_false_iff in H. destruct H as [Ha Hs].
  rewrite Ha, (IH Hs). reflexivity.
Qed.

Lemma dig_split_pieces c s :
  dig.split c s <> []
  /\ String.concat (String c EmptyString) (dig.split c s) = s
  /\ Forall (fun o => dig.search c o = false) (dig.split c s).
Proof.
  induction s as [| a s (Hne & Hcat & Hall)]; cbn [dig.split].
  - repeat split; [discriminate | constructor; [reflexivity | constructor]].
  - destruct (Ascii.eqb a c) eqn:Ha.
    + apply Ascii.eqb_eq in Ha. subst a.
      split; [discriminate | split].
      * destruct (dig.split c s) as [| p ps]; [contradiction |].
        rewrite <- Hcat. reflexivity.
      * constructor; [reflexivity | exact Hall].
    + destruct (dig.split c s) as [| p ps]; [contradiction |].
      split; [discriminate | split].
      * rewrite <- Hcat. destruct ps as [| q qs]; reflexivity.
      * inversion Hall; subst. constructor; [| assumption].
        cbn [dig.search]. rewrite Ha. assumption.
Qed.

Lemma dig_append_options opts acc :
  fold_left (fun cmd_args v => cmd_args ++ [String.append "+" v]) opts acc
  = acc ++ map (String.append "+") opts.
Proof.
  revert acc. induction opts as [| o opts IH]; intros acc; cbn [fold_left map].
  - rewrite app_nil_r. reflexivity.
  - rewrite IH, <- app_assoc. reflexivity.
Qed.

(** X16: the command line of [dig]: the program name, the name server behind
    an [@] when one is given, every query option behind a [+], the host name
    last.  The options are the pieces of [queryopts] between its commas,
    whether it holds a comma or not (the test on the comma changes nothing):
    joined by commas they give [queryopts] back, none of them holds a comma,
    and there is always at least one, so an empty [queryopts] puts a bare
    [+] on the command line. *)
Lemma dig_command_line (nameserver : option string) (hostname queryopts : string) :
  let server :=
    match nameserver with
    | Some s => if dig.truthy s then [String.append "@" s] else []
    | None => []
    end in
  let options := dig.split "," queryopts in
  dig.cmd_args nameserver hostname queryopts
  = ["dig"%string] ++ server ++ map (String.append "+") options ++ [hostname]
  /\ String.concat "," options = queryopts
  /\ Forall (fun o => dig.search "," o = false) options
  /\ options <> [].
Proof.
  cbv zeta. destruct (dig_split_pieces "," queryopts) as (Hne & Hcat & Hall).
  split; [| auto].
  unfold dig.cmd_args.
  assert (Hopts : (if dig.search "," queryopts
                   then dig.split "," queryopts else [] ++ [queryopts])
                  = dig.split "," queryopts).
  { destruct (dig.search "," queryopts) eqn:Hs; [reflexivity |].
    rewrite (dig_split_without_separator _ _ Hs). reflexivity. }
  rewrite Hopts, dig_append_options.
  destruct nameserver as [s |]; [destruct (dig.truthy s) |];
    cbn [app]; rewrite <- ?app_assoc; reflexivity.
Qed.

Lemma dig_length_update n v x : List.length (dig.update n v x) = List.length x.
Proof.
  revert n. induction x as [| a x IH]; intros [| n]; cbn [dig.update List.length];
    auto.
Qed.

Lemma dig_nth_error_update_same n v x :
  (n < List.length x)%nat -> nth_error (dig.update n v x) n = Some v.
Proof.
  revert n. induction x as [| a x IH]; intros [| n] H; cbn [List.length] in H;
    cbn [dig.update nth_error]; try lia; [reflexivity |].
  apply IH. lia.
Qed.

Lemma dig_nth_error_update_other n k v x :
  k <> n -> nth_error (dig.update n v x) k = nth_error x k.
Proof.
  revert n k. induction x as [| a x IH]; intros [| n] [| k] H;
    cbn [dig.update nth_error]; try reflexivity; try contradiction.
  apply IH. congruence.
Qed.

Lemma dig_swap_permutation i j x :
  (i < List.length x)%nat -> (j < List.length x)%nat ->
  Permutation (dig.swap i j x) x.
Proof.
  intros Hi Hj. symmetry. apply Permutation_nth_error. split.
  - unfold dig.swap. rewrite !dig_length_update. reflexivity.
  - exists (fun n => if Nat.eqb n i then j else if Nat.eqb n j then i else n).
    split.
    + intros a b. cbn beta.
      destruct (Nat.eqb_spec a i), (Nat.eqb_spec b i),
        (Nat.eqb_spec a j), (Nat.eqb_spec b j); lia.
    + intros n. unfold dig.swap. cbn zeta.
      destruct (Nat.eqb_spec n j) as [-> | Hnj].
      * rewrite dig_nth_error_update_same by (rewrite dig_length_update; exact Hj).
        destruct (Nat.eqb_spec j i) as [-> | _];
          symmetry; apply nth_error_nth'; assumption.
      * rewrite (dig_nth_error_update_other _ _ Hnj).
        destruct (Nat.eqb_spec n i) as [-> | Hni].
        -- rewrite dig_nth_error_update_same by exact Hi.
           symmetry. apply nth_error_nth'. exact Hj.
        -- apply dig_nth_error_update_other. exact Hni.
Qed.

Lemma dig_shuffle_from_permutation i :
  forall draws x,
    (i < List.length x)%nat -> Permutation (dig.shuffle_from i draws x) x.
Proof.
  induction i as [| i IH]; intros draws x Hi; cbn [dig.shuffle_from].
  - reflexivity.
  - cbv zeta.
    assert (Hj : (Nat.modulo (hd O draws) (S (S i)) < S (S i))%nat)
      by (apply Nat.mod_upper_bound; discriminate).
    assert (Hs : Permutation (dig.swap (S i) (Nat.modulo (hd O draws) (S (S i))) x) x)
      by (apply dig_swap_permutation; lia).
    rewrite IH; [exact Hs |].
    rewrite (Permutation_length Hs). lia.
Qed.

Lemma dig_shuffle_permutation draws x : Permutation (dig.shuffle draws x) x.
Proof.
  unfold dig.shuffle. destruct x as [| a x]; [reflexivity |].
  apply dig_shuffle_from_permutation. cbn [List.length]. lia.
Qed.

Lemma dig_shuffle_short draws x : (List.length x <= 1)%nat -> dig.shuffle draws x = x.
Proof.
  intros H. unfold dig.shuffle.
  replace (List.length x - 1)%nat with O by lia. reflexivity.
Qed.

Lemma dig_in_firstn (A : Type) (a : A) n l : In a (firstn n l) -> In a l.
Proof.
  revert l. induction n as [| n IH]; intros [| b l] H; cbn [firstn] in H;
    try contradiction.
  destruct H as [-> | H]; [left; reflexivity | right; apply IH, H].
Qed.

(** The cut that [run] makes: the first [count] lines when [count] is
    positive and there are that many, all the lines otherwise. *)
Lemma dig_cut count (result_list : list string) :
  dig.slice_to
    (if (count >? Z.of_nat (List.length result_list)) || (count <=? 0)
     then Z.of_nat (List.length result_list)
     else count)
    result_list
  = firstn (if (0 <? count) && (count <=? Z.of_nat (List.length result_list))
            then Z.to_nat count
            else List.length result_list)
           result_list.
Proof.
  unfold dig.slice_to.
  destruct (Z.gtb_spec count (Z.of_nat (List.length result_list))),
    (Z.leb_spec count 0), (Z.ltb_spec 0 count),
    (Z.leb_spec count (Z.of_nat (List.length result_list)));
    cbn [orb andb]; try lia.
  all: match goal with
       | |- context [?a <? 0] => destruct (Z.ltb_spec a 0); try lia
       end.
  all: rewrite ?Nat2Z.id; reflexivity.
Qed.

(** X17: when [dig] could be run, [run] returns lines of its output: the
    lines that are not empty, cut to the first [count] of them when [count]
    is positive and there are that many, and to all of them otherwise (a
    [count] of zero or below asks for everything).  Without [rand] they come
    in the order of the output; with [rand] the same lines come in some
    order. *)
Lemma dig_output (Popen : list string -> dig.OSError + string) (draws : list nat)
    (rand : bool) (count : Z) (nameserver : option string)
    (hostname queryopts stdout : string) :
  Popen (dig.cmd_args nameserver hostname queryopts) = inr stdout ->
  let lines := filter dig.truthy (dig.split "010" stdout) in
  let n := if (0 <? count) && (count <=? Z.of_nat (List.length lines))
           then Z.to_nat count
           else List.length lines in
  exists output,
    dig.run Popen draws rand count nameserver hostname queryopts
    = dig.Returned (dig.Output output)
    /\ Permutation output (firstn n lines)
    /\ (rand = false -> output = firstn n lines)
    /\ List.length output = n
    /\ Forall (fun line => line <> EmptyString) output.
Proof.
  intros HP lines n. unfold dig.run. rewrite HP. fold lines.
  rewrite dig_cut. fold n.
  assert (Hn : (n <= List.length lines)%nat).
  { unfold n. destruct ((0 <? count) && (count <=? Z.of_nat (List.length lines))) eqn:E;
      [| lia].
    apply andb_true_iff in E. destruct E as [E1 E2].
    apply Z.ltb_lt in E1. apply Z.leb_le in E2. lia. }
  assert (Hlines : Forall (fun line => line <> EmptyString) (firstn n lines)).
  { apply Forall_forall. intros line Hin. apply dig_in_firstn in Hin.
    unfold lines in Hin. apply filter_In in Hin. destruct Hin as [_ Ht].
    intros He. rewrite He in Ht. discriminate Ht. }
  assert (Hperm : Permutation (if rand then dig.shuffle draws (firstn n lines)
                               else firstn n lines) (firstn n lines)).
  { destruct rand; [apply dig_shuffle_permutation | reflexivity]. }
  eexists. split; [reflexivity |]. split; [exact Hperm |]. split; [| split].
  - intros ->. reflexivity.
  - rewrite (Permutation_length Hperm), length_firstn. lia.
  - eapply Permutation_Forall; [symmetry; exact Hperm | exact Hlines].
Qed.

(** X18: the lines are cut before they are shuffled: with a [count] of one,
    [rand] and the random source make no difference, and the line returned
    is the first line of the output. *)
Lemma dig_rand_with_count_one (Popen : list string -> dig.OSError + string)
    (draws : list nat) (rand : bool) (nameserver : option string)
    (hostname queryopts : string) :
  dig.run Popen draws rand 1 nameserver hostname queryopts
  = dig.run Popen [] false 1 nameserver hostname queryopts.
Proof.
  unfold dig.run.
  destruct (Popen (dig.cmd_args nameserver hostname queryopts)) as [e | stdout];
    [reflexivity |].
  rewrite dig_cut. destruct rand; [| reflexivity].
  rewrite dig_shuffle_short; [reflexivity |].
  rewrite length_firstn.
  destruct ((0 <? 1) && (1 <=? Z.of_nat (List.length (filter dig.truthy
                                                      (dig.split "010" stdout))))) eqn:E.
  - change (Z.to_nat 1) with 1%nat. lia.
  - cbn [andb Z.ltb Z.compare] in E. apply Z.leb_gt in E. lia.
Qed.

(** X19: a [dig] that is not installed is reported, not raised: [run]
    returns the pair [(False, message)] exactly when the process could not
    be started for [ENOENT]; any other [OSError] of the start comes out of
    [run] as it is, and nothing else does. *)
Lemma dig_reports_missing_binary (Popen : list string -> dig.OSError + string)
    (draws : list nat) (rand : bool) (count : Z) (nameserver : option string)
    (hostname queryopts : string) :
  let r := dig.run Popen draws rand count nameserver hostname queryopts in
  (forall message,
      r = dig.Returned (dig.Failure message)
      <-> message = dig.not_installed
          /\ exists e, Popen (dig.cmd_args nameserver hostname queryopts) = inl e
                       /\ dig.errno e = dig.ENOENT)
  /\ (forall e,
         r = dig.Raised e
         <-> Popen (dig.cmd_args nameserver hostname queryopts) = inl e
             /\ dig.errno e <> dig.ENOENT).
Proof.
  cbv zeta. unfold dig.run.
  destruct (Popen (dig.cmd_args nameserver hostname queryopts)) as [e | stdout].
  - destruct (Nat.eqb_spec (dig.errno e) dig.ENOENT) as [He | He]; split.
    + intros message. split.
      * intros H. inversion H. split; [reflexivity |]. exists e. auto.
      * intros [-> _]. reflexivity.
    + intros e'. split; [discriminate |]. intros [H Hne]. inversion H; subst. contradiction.
    + intros message. split; [discriminate |].
      intros [_ (e' & H & He')]. inversion H; subst. contradiction.
    + intros e'. split.
      * intros H. inversion H; subst. auto.
      * intros [H _]. inversion H; subst. reflexivity.
  - split.
    + intros message. split; [discriminate |]. intros [_ (e' & H & _)]. discriminate H.
    + intros e'. split; [discriminate |]. intros [H _]. discriminate H.
Qed.

Lemma dig_output_witness :
  let Popen := fun _ : list string =>
    @inr dig.OSError string
      (String.concat (String "010" EmptyString)
         ["93.184.216.34"%string; "93.184.216.35"%string; EmptyString]) in
  let stdout :=
    String.concat (String "010" EmptyString)
      ["93.184.216.34"%string; "93.184.216.35"%string; EmptyString] in
  let lines := filter dig.truthy (dig.split "010" stdout) in
  let n := if (0 <? 1) && (1 <=? Z.of_nat (List.length lines))
           then Z.to_nat 1
           else List.length lines in
  Popen (dig.cmd_args None "example.com" "short") = inr stdout
  /\ exists output,
       dig.run Popen [0%nat] true 1 None "example.com" "short"
       = dig.Returned (dig.Output output)
       /\ Permutation output (firstn n lines)
       /\ (true = false -> output = firstn n lines)
       /\ List.length output = n
       /\ Forall (fun line => line <> EmptyString) output.
Proof.
  intros Popen stdout lines n.
  assert (H : Popen (dig.cmd_args None "example.com" "short") = inr stdout)
    by reflexivity.
  split; [exact H |].
  exact (@dig_output Popen [0%nat] true 1 None "example.com" "short" stdout H).
Defined.
